(** * The scaling engine of the baking recipe box

    A shallow embedding of the arithmetic found in [App.tsx]
    (component [DisplayIngredientSection], and [scalingFactor], [getVolume]
    and [calculatedMoldFactor] of component [App]), together with the
    properties the specification states about it.

    JavaScript numbers are modelled by [number]: a rational, or one of the
    three special values [NaN], [+Infinity], [-Infinity].  The arithmetic
    is read twice.  Module [JS] reads [+], [*] and [/] over the rationals,
    without rounding: the properties stated over it are about the
    branches of the code, the order of the rows and the text written for a
    given number.  Module [Binary64] rounds every result to the nearest
    binary64 number, with overflow to an infinity and underflow to zero,
    and embeds the functions a second time: the properties about the
    digits that are displayed and about computations that the code rounds
    at different places are stated over it.  The sign of zero is not
    modelled. *)

From Stdlib Require Import QArith Qround Qabs ZArith List Bool Lia Lqa.
From Stdlib Require Import QArith.Qpower.
From Stdlib Require Import Strings.String Strings.Ascii Numbers.DecimalString.
From Stdlib Require Import Sorting.Permutation.
From Stdlib Require Floats.
Import ListNotations.

Local Open Scope Q_scope.

(** ** JavaScript numbers *)

Module JS.

Inductive number : Type :=
| Fin (q : Q)
| PInf
| NInf
| NaN.

Definition Qlt_bool (x y : Q) : bool := negb (Qle_bool y x).

(** The sign of a special value, used by [mul] and [div]. *)
Definition Qpositive (q : Q) : bool := Qlt_bool 0 q.
Definition Qnegative (q : Q) : bool := Qlt_bool q 0.

(** [a + b], before it is rounded to binary64 ([Binary64.add] rounds
    it). *)
Definition add (a b : number) : number :=
  match a, b with
  | NaN, _ | _, NaN => NaN
  | Fin p, Fin q => Fin (p + q)
  | PInf, NInf | NInf, PInf => NaN
  | PInf, _ | _, PInf => PInf
  | NInf, _ | _, NInf => NInf
  end.

Definition neg (a : number) : number :=
  match a with
  | Fin p => Fin (- p)
  | PInf => NInf
  | NInf => PInf
  | NaN => NaN
  end.

(** An infinity of the sign of [q]; [NaN] for [q = 0]. *)
Definition infTimes (inf : number) (q : Q) : number :=
  if Qpositive q then inf else if Qnegative q then neg inf else NaN.

(** [a * b], before it is rounded to binary64 ([Binary64.mul] rounds
    it). *)
Definition mul (a b : number) : number :=
  match a, b with
  | NaN, _ | _, NaN => NaN
  | Fin p, Fin q => Fin (p * q)
  | Fin p, PInf => infTimes PInf p
  | Fin p, NInf => infTimes NInf p
  | PInf, Fin q => infTimes PInf q
  | NInf, Fin q => infTimes NInf q
  | PInf, PInf | NInf, NInf => PInf
  | PInf, NInf | NInf, PInf => NInf
  end.

(** [a / b], before it is rounded to binary64 ([Binary64.div] rounds
    it).  A zero divisor is taken to be [+0]. *)
Definition div (a b : number) : number :=
  match a, b with
  | NaN, _ | _, NaN => NaN
  | Fin p, Fin q =>
      if Qeq_bool q 0 then infTimes PInf p else Fin (p / q)
  | Fin _, (PInf | NInf) => Fin 0
  | PInf, Fin q => if Qnegative q then NInf else PInf
  | NInf, Fin q => if Qnegative q then PInf else NInf
  | (PInf | NInf), (PInf | NInf) => NaN
  end.

(** [a < b]; every comparison with [NaN] is false. *)
Definition lt (a b : number) : bool :=
  match a, b with
  | NaN, _ | _, NaN => false
  | Fin p, Fin q => Qlt_bool p q
  | NInf, (Fin _ | PInf) => true
  | Fin _, PInf => true
  | _, _ => false
  end.

(** [a > b] *)
Definition gt (a b : number) : bool := lt b a.

(** [a <= b] *)
Definition le (a b : number) : bool :=
  match a, b with
  | NaN, _ | _, NaN => false
  | Fin p, Fin q => Qle_bool p q
  | NInf, _ => true
  | _, PInf => true
  | _, _ => false
  end.

(** [isNaN(a)] *)
Definition isNaN (a : number) : bool :=
  match a with NaN => true | _ => false end.

(** [ToBoolean(a)]: zero and [NaN] are falsy. *)
Definition truthy (a : number) : bool :=
  match a with
  | Fin q => negb (Qeq_bool q 0)
  | NaN => false
  | PInf | NInf => true
  end.

(** [a || b] on numbers *)
Definition or_else (a b : number) : number := if truthy a then a else b.

(** [Math.pow(a, 2)] *)
Definition pow2 (a : number) : number := mul a a.

(** [Math.PI], the binary64 number nearest to pi:
    3.141592653589793115997963468544185161590576171875 = 884279719003555 / 2^48. *)
Definition Math_PI : Q := 884279719003555 # 281474976710656.

(** Equality of the numbers denoted. *)
Definition same (a b : number) : Prop :=
  match a, b with
  | Fin p, Fin q => p == q
  | PInf, PInf | NInf, NInf | NaN, NaN => True
  | _, _ => False
  end.

End JS.

(** ** JavaScript strings: [parseFloat], [toFixed], [replace] *)

Module JSString.

Local Open Scope string_scope.

Definition code (c : ascii) : N := N_of_ascii c.

(** White space and line terminators of one, two and three UTF-8 bytes:
    TAB, LF, VT, FF, CR, SP; U+00A0; U+1680, U+2000..U+200A, U+2028, U+2029,
    U+202F, U+205F, U+3000, U+FEFF. *)
Definition isSpace1 (c : ascii) : bool :=
  let n := code c in
  ((9 <=? n) && (n <=? 13) || (n =? 32))%N.

Definition isSpace2 (c1 c2 : ascii) : bool :=
  ((code c1 =? 194) && (code c2 =? 160))%N.

Definition isSpace3 (c1 c2 c3 : ascii) : bool :=
  let '(a, b, c) := (code c1, code c2, code c3) in
  ((a =? 225) && (b =? 154) && (c =? 128)
   || (a =? 226) && (b =? 128)
      && ((128 <=? c) && (c <=? 138) || (c =? 168) || (c =? 169) || (c =? 175))
   || (a =? 226) && (b =? 129) && (c =? 159)
   || (a =? 227) && (b =? 128) && (c =? 128)
   || (a =? 239) && (b =? 187) && (c =? 191))%N.

(** [TrimString(s, start)] *)
Fixpoint trimStart (s : string) : string :=
  match s with
  | EmptyString => s
  | String c1 r1 =>
      if isSpace1 c1 then trimStart r1 else
      match r1 with
      | EmptyString => s
      | String c2 r2 =>
          if isSpace2 c1 c2 then trimStart r2 else
          match r2 with
          | EmptyString => s
          | String c3 r3 => if isSpace3 c1 c2 c3 then trimStart r3 else s
          end
      end
  end.

Definition digitOf (c : ascii) : option Z :=
  let n := code c in
  if ((48 <=? n) && (n <=? 57))%N then Some (Z.of_N n - 48)%Z else None.

(** The longest run of decimal digits at the head of [s], and what follows. *)
Fixpoint takeDigits (s : string) : list Z * string :=
  match s with
  | EmptyString => ([], s)
  | String c r =>
      match digitOf c with
      | Some d => let '(ds, rest) := takeDigits r in (d :: ds, rest)
      | None => ([], s)
      end
  end.

Definition digitsValue (ds : list Z) : Z :=
  fold_left (fun acc d => 10 * acc + d)%Z ds 0%Z.

(** An optional sign: [1] or [-1], and what follows. *)
Definition takeSign (s : string) : Z * string :=
  match s with
  | String "+" r => (1%Z, r)
  | String "-" r => ((-1)%Z, r)
  | _ => (1%Z, s)
  end.

(** The value of an [ExponentPart] at the head of [s]; [0] when there is none. *)
Definition exponentPart (s : string) : Z :=
  match s with
  | String c r =>
      if (Ascii.eqb c "e" || Ascii.eqb c "E")%bool then
        let '(sg, r') := takeSign r in
        let '(ds, _) := takeDigits r' in
        match ds with
        | [] => 0%Z
        | _ => (sg * digitsValue ds)%Z
        end
      else 0%Z
  | EmptyString => 0%Z
  end.

(** The mathematical value of digits [ip . fp] followed by the exponent
    part at the head of [rest]. *)
Definition decimalValue (ip fp : list Z) (rest : string) : Q :=
  inject_Z (digitsValue (ip ++ fp))
  * Qpower (10 # 1) (exponentPart rest - Z.of_nat (List.length fp)).

(** [parseFloat(s)]: the value of the longest prefix of the trimmed string
    that is a [StrDecimalLiteral], before it is rounded to binary64
    ([Binary64.parseFloat] rounds it); [NaN] when there is none. *)
Definition parseFloat (s : string) : JS.number :=
  let '(sg, body) := takeSign (trimStart s) in
  let signed (q : Q) := JS.Fin (inject_Z sg * q) in
  if String.prefix "Infinity" body then
    (if (sg <? 0)%Z then JS.NInf else JS.PInf)
  else
    let '(ip, r1) := takeDigits body in
    match ip, r1 with
    | [], String "." r2 =>
        let '(fp, r3) := takeDigits r2 in
        match fp with
        | [] => JS.NaN
        | _ => signed (decimalValue [] fp r3)
        end
    | [], _ => JS.NaN
    | _, String "." r2 =>
        let '(fp, r3) := takeDigits r2 in signed (decimalValue ip fp r3)
    | _, _ => signed (decimalValue ip [] r1)
    end.

Definition digitChar (d : Z) : ascii := ascii_of_N (Z.to_N (48 + d)).

(** The digits of the decimal representation of [n >= 0]. *)
Fixpoint decimalDigits (fuel : nat) (n : Z) : string :=
  match fuel with
  | O => ""
  | S fuel' =>
      if (n <? 10)%Z then String (digitChar n) ""
      else decimalDigits fuel' (n / 10) ++ String (digitChar (n mod 10)) ""
  end.

Definition decimal (n : Z) : string :=
  decimalDigits (S (Z.to_nat (Z.log2 n))) n.

Fixpoint zeros (k : nat) : string :=
  match k with O => "" | S k' => String "0" (zeros k') end.

Definition pow10 (f : nat) : Q := inject_Z (10 ^ Z.of_nat f).

Section ToFixed.

(** [Number::toString] of a number of magnitude at least [10^21]
    (exponential notation with the shortest digits that identify the
    binary64 value): outside this model of numbers, taken as given. *)
Variable NumberToString : Q -> string.

(** Steps 8 and 9 of [Number.prototype.toFixed(f)] at [0 <= x < 10^21]. *)
Definition fixedNotation (f : nat) (x : Q) : string :=
  let n := Qfloor (x * pow10 f + (1 # 2)) in
  let m := if (n =? 0)%Z then "0" else decimal n in
  match f with
  | O => m
  | _ =>
      let k := String.length m in
      let m' := if (k <=? f)%nat then zeros (f + 1 - k) ++ m else m in
      let k' := if (k <=? f)%nat then (f + 1)%nat else k in
      substring 0 (k' - f) m' ++ "." ++ substring (k' - f) f m'
  end.

(** [x.toFixed(f)] *)
Definition toFixed (f : nat) (x : JS.number) : string :=
  match x with
  | JS.NaN => "NaN"
  | JS.PInf => "Infinity"
  | JS.NInf => "-Infinity"
  | JS.Fin q =>
      let s := if JS.Qlt_bool q 0 then "-" else "" in
      let a := if JS.Qlt_bool q 0 then - q else q in
      s ++ (if Qle_bool (pow10 21) a then NumberToString a
            else fixedNotation f a)
  end.

End ToFixed.

(** [s.replace(/\.0$/, '')]: a final [.0] is removed. *)
Fixpoint stripDotZero (s : string) : string :=
  if String.eqb s ".0" then ""
  else match s with
       | EmptyString => ""
       | String c r => String c (stripDotZero r)
       end.

End JSString.

Import JSString.
Local Open Scope string_scope.

(** ** Data model ([types.ts]) *)

(** [amount: number | string] *)
Inductive Amount : Type :=
| AmtNum (n : JS.number)
| AmtStr (s : string).

Module Ingredient.
Record t : Type := mk {
  name : string;
  amount : Amount;
  unit : string;
  isFlour : bool
}.
End Ingredient.

(** The fields of [Recipe] that the scaling view reads; optional fields
    are [option]s. *)
Module Recipe.
Record t : Type := mk {
  quantity : option JS.number;
  ingredients : list Ingredient.t;
  mainSectionName : option string;
  liquidStarterName : option string;
  liquidStarterIngredients : option (list Ingredient.t);
  fillingIngredients : option (list Ingredient.t);
  decorationIngredients : option (list Ingredient.t);
  customSectionName : option string;
  customSectionIngredients : option (list Ingredient.t);
  sectionsOrder : option (list string);
  isBakingRecipe : bool
}.
End Recipe.

Inductive MoldType : Type := circular | rectangular.

(** The state objects [sourceMold] and [targetMold]. *)
Module Mold.
Record t : Type := mk {
  type : MoldType;
  diameter : JS.number;
  height : JS.number;
  length : JS.number;
  width : JS.number
}.
End Mold.

(** [s || d] on strings: the empty string is falsy. *)
Definition strOr (s d : string) : string :=
  if String.eqb s "" then d else s.

(** [o || d] on an optional string *)
Definition optStrOr (o : option string) (d : string) : string :=
  match o with Some s => strOr s d | None => d end.

(** [o || []] on an optional array *)
Definition orEmpty {A : Type} (o : option (list A)) : list A :=
  match o with Some l => l | None => [] end.

(** ** [DisplayIngredientSection]: the base of the section *)

(** [typeof ing.amount === 'number' ? ing.amount : parseFloat(ing.amount) || 0] *)
Definition baseAmount (ing : Ingredient.t) : JS.number :=
  match Ingredient.amount ing with
  | AmtNum n => n
  | AmtStr s => JS.or_else (parseFloat s) (JS.Fin 0)
  end.

(** The three variables of the [forEach] loop. *)
Record BaseLoop : Type := mkLoop {
  flourTotal : JS.number;
  maxWeight : JS.number;
  maxName : string
}.

Definition baseLoopInit : BaseLoop :=
  {| flourTotal := JS.Fin 0; maxWeight := JS.Fin 0; maxName := "" |}.

(** One iteration of the loop. *)
Definition baseLoopStep (st : BaseLoop) (ing : Ingredient.t) : BaseLoop :=
  let amt := baseAmount ing in
  let ft := if Ingredient.isFlour ing then JS.add (flourTotal st) amt
            else flourTotal st in
  if JS.gt amt (maxWeight st)
  then {| flourTotal := ft; maxWeight := amt; maxName := Ingredient.name ing |}
  else {| flourTotal := ft; maxWeight := maxWeight st; maxName := maxName st |}.

Module LocalBase.
Record t : Type := mk { weight : JS.number; name : string }.
End LocalBase.

(** [localBase] *)
Definition localBase (ingredients : list Ingredient.t) : LocalBase.t :=
  let st := fold_left baseLoopStep ingredients baseLoopInit in
  if JS.gt (flourTotal st) (JS.Fin 0)
  then {| LocalBase.weight := flourTotal st; LocalBase.name := "總粉量" |}
  else {| LocalBase.weight := JS.or_else (maxWeight st) (JS.Fin 1);
          LocalBase.name := strOr (maxName st) "主食材" |}.

(** ** [DisplayIngredientSection]: the rows *)

(** [numericAmt] *)
Definition numericAmt (ing : Ingredient.t) : JS.number :=
  match Ingredient.amount ing with
  | AmtNum n => n
  | AmtStr s => let parsed := parseFloat s in
                if JS.isNaN parsed then JS.Fin 0 else parsed
  end.

Definition hasValidAmt (ing : Ingredient.t) : bool :=
  JS.gt (numericAmt ing) (JS.Fin 0).

Definition shouldHideUnit (ing : Ingredient.t) : bool :=
  match Ingredient.amount ing with
  | AmtStr s => String.eqb s "適量" || String.eqb s "少許"
  | AmtNum _ => false
  end.

(** What stands in the percentage column of a row: the percentage, an
    empty placeholder, or nothing at all. *)
Inductive PercentCell : Type :=
| PercentText (s : string)
| PercentBlank
| PercentAbsent.

Module Row.
Record t : Type := mk {
  name : string;
  flourDot : bool;
  amount : Amount;
  unit : option string;
  percent : PercentCell
}.
End Row.

Module SectionView.
Record t : Type := mk {
  title : string;
  baseLabel : option string;
  rows : list Row.t
}.
End SectionView.

Section Display.

Variable NumberToString : Q -> string.

(** [scaledAmount] *)
Definition scaledAmount (scalingFactor : JS.number) (ing : Ingredient.t)
  : Amount :=
  if hasValidAmt ing
  then AmtStr (stripDotZero
                 (toFixed NumberToString 1
                    (JS.mul (numericAmt ing) scalingFactor)))
  else Ingredient.amount ing.

(** [{!shouldHideUnit && ing.unit}] *)
Definition unitCell (ing : Ingredient.t) : option string :=
  if shouldHideUnit ing then None else Some (Ingredient.unit ing).

(** The percentage column of one row. *)
Definition percentCell (isBaking showPercentage : bool)
    (base : LocalBase.t) (ing : Ingredient.t) : PercentCell :=
  if isBaking && showPercentage
     && JS.gt (LocalBase.weight base) (JS.Fin 0)
  then
    if hasValidAmt ing
    then PercentText
           (toFixed NumberToString 1
              (JS.mul (JS.div (numericAmt ing) (LocalBase.weight base))
                      (JS.Fin 100)) ++ "%")
    else PercentBlank
  else PercentAbsent.

Definition displayRow (isBaking showPercentage : bool)
    (scalingFactor : JS.number) (base : LocalBase.t) (ing : Ingredient.t)
  : Row.t :=
  {| Row.name := Ingredient.name ing;
     Row.flourDot := Ingredient.isFlour ing;
     Row.amount := scaledAmount scalingFactor ing;
     Row.unit := unitCell ing;
     Row.percent := percentCell isBaking showPercentage base ing |}.

(** [DisplayIngredientSection]; [None] is the [null] rendered for an
    empty section. *)
Definition DisplayIngredientSection (ingredients : list Ingredient.t)
    (title : string) (isBaking showPercentage : bool)
    (scalingFactor : JS.number) : option SectionView.t :=
  match ingredients with
  | [] => None
  | _ =>
      let base := localBase ingredients in
      Some {| SectionView.title := title;
              SectionView.baseLabel :=
                if isBaking && showPercentage
                then Some (LocalBase.name base) else None;
              SectionView.rows :=
                map (displayRow isBaking showPercentage scalingFactor base)
                    ingredients |}
  end.

(** The sections of the scaling view, in the order of [sectionsOrder]. *)
Definition scalingSection (scalingRecipe : Recipe.t)
    (scalingFactor : JS.number) (secKey : string)
  : option SectionView.t :=
  let baking := Recipe.isBakingRecipe scalingRecipe in
  if String.eqb secKey "ingredients" then
    DisplayIngredientSection (Recipe.ingredients scalingRecipe)
      (optStrOr (Recipe.mainSectionName scalingRecipe) "主麵團")
      baking true scalingFactor
  else if String.eqb secKey "liquidStarterIngredients" then
    DisplayIngredientSection
      (orEmpty (Recipe.liquidStarterIngredients scalingRecipe))
      (optStrOr (Recipe.liquidStarterName scalingRecipe) "發酵種")
      baking true scalingFactor
  else if String.eqb secKey "fillingIngredients" then
    DisplayIngredientSection
      (orEmpty (Recipe.fillingIngredients scalingRecipe))
      "內餡 (固定量)" baking false (JS.Fin 1)
  else if String.eqb secKey "decorationIngredients" then
    DisplayIngredientSection
      (orEmpty (Recipe.decorationIngredients scalingRecipe))
      "裝飾 / 表面 (固定量)" baking false (JS.Fin 1)
  else if String.eqb secKey "customSectionIngredients" then
    DisplayIngredientSection
      (orEmpty (Recipe.customSectionIngredients scalingRecipe))
      (optStrOr (Recipe.customSectionName scalingRecipe) "其他區塊"
       ++ " (固定量)")
      baking false (JS.Fin 1)
  else None.

Definition scalingSections (scalingRecipe : Recipe.t)
    (scalingFactor : JS.number) : list (option SectionView.t) :=
  match Recipe.sectionsOrder scalingRecipe with
  | Some order => map (scalingSection scalingRecipe scalingFactor) order
  | None => []
  end.

(** The sections of the detail view: no [scalingFactor] is passed, so
    the default [1] applies. *)
Definition detailSection (selectedRecipe : Recipe.t) (secKey : string)
  : option SectionView.t :=
  let baking := Recipe.isBakingRecipe selectedRecipe in
  if String.eqb secKey "ingredients" then
    DisplayIngredientSection (Recipe.ingredients selectedRecipe)
      (optStrOr (Recipe.mainSectionName selectedRecipe) "主麵團")
      baking true (JS.Fin 1)
  else if String.eqb secKey "liquidStarterIngredients" then
    DisplayIngredientSection
      (orEmpty (Recipe.liquidStarterIngredients selectedRecipe))
      (optStrOr (Recipe.liquidStarterName selectedRecipe) "發酵種")
      baking true (JS.Fin 1)
  else if String.eqb secKey "fillingIngredients" then
    DisplayIngredientSection
      (orEmpty (Recipe.fillingIngredients selectedRecipe))
      "內餡" baking false (JS.Fin 1)
  else if String.eqb secKey "decorationIngredients" then
    DisplayIngredientSection
      (orEmpty (Recipe.decorationIngredients selectedRecipe))
      "裝飾 / 表面" baking false (JS.Fin 1)
  else if String.eqb secKey "customSectionIngredients" then
    DisplayIngredientSection
      (orEmpty (Recipe.customSectionIngredients selectedRecipe))
      (optStrOr (Recipe.customSectionName selectedRecipe) "其他區塊")
      baking false (JS.Fin 1)
  else None.

End Display.

(** ** [App]: the yield factor and the mold factor *)

(** [scalingFactor]; [scalingRecipe] is [None] when no recipe has the
    selected id. *)
Definition scalingFactor (scalingRecipe : option Recipe.t)
    (targetQuantity : JS.number) : JS.number :=
  match scalingRecipe with
  | None => JS.Fin 1
  | Some r =>
      match Recipe.quantity r with
      | None => JS.Fin 1
      | Some q => if JS.truthy q then JS.div targetQuantity q else JS.Fin 1
      end
  end.

(** [getVolume] *)
Definition getVolume (mold : Mold.t) : JS.number :=
  match Mold.type mold with
  | circular =>
      JS.mul (JS.mul (JS.Fin JS.Math_PI)
                (JS.pow2 (JS.div (Mold.diameter mold) (JS.Fin 2))))
             (JS.or_else (Mold.height mold) (JS.Fin 1))
  | rectangular =>
      JS.mul (JS.mul (Mold.length mold) (Mold.width mold))
             (JS.or_else (Mold.height mold) (JS.Fin 1))
  end.

(** [calculatedMoldFactor] *)
Definition calculatedMoldFactor (sourceMold targetMold : Mold.t) : JS.number :=
  let vSource := getVolume sourceMold in
  let vTarget := getVolume targetMold in
  if JS.le vSource (JS.Fin 0) || JS.le vTarget (JS.Fin 0) then JS.Fin 1
  else JS.div vTarget vSource.

(** The result list of the scaling view for the selected recipe. *)
Definition scalingResultList (NumberToString : Q -> string)
    (scalingRecipe : Recipe.t) (targetQuantity : JS.number)
  : list (option SectionView.t) :=
  scalingSections NumberToString scalingRecipe
    (scalingFactor (Some scalingRecipe) targetQuantity).

(** ** Notions of the specification *)

(** The sum of a list of numbers, taken from left to right. *)
Definition sumOf (l : list JS.number) : JS.number :=
  fold_left JS.add l (JS.Fin 0).

(** The amounts of the ingredients flagged as flour. *)
Definition flourAmounts (ingredients : list Ingredient.t) : list JS.number :=
  map baseAmount (filter Ingredient.isFlour ingredients).

(** [x], at index [i], is the heaviest ingredient of the section: its amount
    is positive, no ingredient is heavier, and no earlier one is as heavy. *)
Definition heaviestAt (ingredients : list Ingredient.t) (i : nat)
    (x : Ingredient.t) : Prop :=
  nth_error ingredients i = Some x
  /\ JS.gt (baseAmount x) (JS.Fin 0) = true
  /\ (forall y, In y ingredients ->
        JS.gt (baseAmount y) (baseAmount x) = false)
  /\ (forall j y, (j < i)%nat -> nth_error ingredients j = Some y ->
        ~ JS.same (baseAmount y) (baseAmount x)).

(** No ingredient of the section has a positive amount. *)
Definition noPositiveAmount (ingredients : list Ingredient.t) : Prop :=
  forall y, In y ingredients -> JS.gt (baseAmount y) (JS.Fin 0) = false.


(** A mold whose four dimensions are the finite numbers [d], [h], [l], [w]. *)
Definition moldOf (ty : MoldType) (d h l w : Q) : Mold.t :=
  {| Mold.type := ty; Mold.diameter := JS.Fin d; Mold.height := JS.Fin h;
     Mold.length := JS.Fin l; Mold.width := JS.Fin w |}.

(** Every dimension of the mold multiplied by [k]. *)
Definition scaleMold (k : JS.number) (mold : Mold.t) : Mold.t :=
  {| Mold.type := Mold.type mold;
     Mold.diameter := JS.mul k (Mold.diameter mold);
     Mold.height := JS.mul k (Mold.height mold);
     Mold.length := JS.mul k (Mold.length mold);
     Mold.width := JS.mul k (Mold.width mold) |}.

(** The integer nearest to [10 * x], the larger one at a tie. *)
Definition roundTenths (x : Q) : Z := Qfloor (x * (10 # 1) + (1 # 2)).

(** An amount is numeric when it is a number other than [NaN], or a string
    that [parseFloat] reads as one. *)
Definition isNumeric (a : Amount) : bool :=
  match a with
  | AmtNum n => negb (JS.isNaN n)
  | AmtStr s => negb (JS.isNaN (parseFloat s))
  end.

(** The height [getVolume] computes with, the volume and the factor, for
    molds of finite dimensions. *)
Definition heightOr1 (h : Q) : Q := if Qeq_bool h 0 then 1 else h.

Definition volumeOf (ty : MoldType) (d h l w : Q) : Q :=
  match ty with
  | circular => JS.Math_PI * (d / 2) ^ 2 * heightOr1 h
  | rectangular => l * w * heightOr1 h
  end.

Definition factorOf (vSource vTarget : Q) : Q :=
  if Qle_bool vSource 0 || Qle_bool vTarget 0 then 1 else vTarget / vSource.

(** A recipe of which only the quantity matters. *)
Definition recipeOfQuantity (quantity : option JS.number) : Recipe.t :=
  {| Recipe.quantity := quantity;
     Recipe.ingredients := [];
     Recipe.mainSectionName := None;
     Recipe.liquidStarterName := None;
     Recipe.liquidStarterIngredients := None;
     Recipe.fillingIngredients := None;
     Recipe.decorationIngredients := None;
     Recipe.customSectionName := None;
     Recipe.customSectionIngredients := None;
     Recipe.sectionsOrder := None;
     Recipe.isBakingRecipe := true |}.

(** A recipe for four with a main dough and a filling. *)
Definition custardBun : Recipe.t :=
  {| Recipe.quantity := Some (JS.Fin 4);
     Recipe.ingredients :=
       [ Ingredient.mk "flour" (AmtNum (JS.Fin 400)) "g" true;
         Ingredient.mk "water" (AmtNum (JS.Fin 280)) "g" false ];
     Recipe.mainSectionName := None;
     Recipe.liquidStarterName := None;
     Recipe.liquidStarterIngredients := None;
     Recipe.fillingIngredients :=
       Some [ Ingredient.mk "custard" (AmtNum (JS.Fin 120)) "g" false;
              Ingredient.mk "vanilla" (AmtStr "少許") "" false ];
     Recipe.decorationIngredients := None;
     Recipe.customSectionName := None;
     Recipe.customSectionIngredients := None;
     Recipe.sectionsOrder :=
       Some ["ingredients"; "fillingIngredients"];
     Recipe.isBakingRecipe := true |}.

(** The sign and the magnitude that [toFixed] prints. *)
Definition signText (q : Q) : string := if JS.Qlt_bool q 0 then "-" else "".

Definition magnitude (q : Q) : Q := if JS.Qlt_bool q 0 then - q else q.

(** [q] written with one decimal: sign, the digits of the integer part, a
    point and the digit of the tenths, after rounding to the nearest tenth. *)
Definition oneDecimal (q : Q) : string :=
  let n := roundTenths (magnitude q) in
  signText q ++ decimal (n / 10) ++ "." ++ String (digitChar (n mod 10)) "".

(** The same without point and tenths: the text of an integer. *)
Definition integerText (q : Q) : string :=
  signText q ++ decimal (roundTenths (magnitude q) / 10).

(** What the loop of [localBase] has found after a list: nothing positive,
    or the first heaviest ingredient. *)
Definition loopFound (l : list Ingredient.t) (st : BaseLoop) : Prop :=
  (maxWeight st = JS.Fin 0 /\ maxName st = "" /\ noPositiveAmount l)
  \/ (exists i x, heaviestAt l i x
                  /\ maxWeight st = baseAmount x
                  /\ maxName st = Ingredient.name x).

(** ** More of [App]: the target quantity *)



(** [r.quantity || 1] *)
Definition quantityOr1 (r : Recipe.t) : JS.number :=
  match Recipe.quantity r with
  | Some q => JS.or_else q (JS.Fin 1)
  | None => JS.Fin 1
  end.

(** The recipe selector: [if (r) setTargetQuantity(r.quantity || 1)], where
    [r] is the recipe found for the chosen id. *)
Definition selectTarget (r : option Recipe.t) (targetQuantity : JS.number)
  : JS.number :=
  match r with
  | Some r => quantityOr1 r
  | None => targetQuantity
  end.

(** ** More of [App]: moving ingredients and sections *)

(** A JavaScript array; an element that is [undefined] is [None]. *)
Definition array (A : Type) : Type := list (option A).

(** [l[i]]: [undefined] past the end. *)
Definition arrayGet {A : Type} (l : array A) (i : nat) : option A :=
  match nth_error l i with
  | Some v => v
  | None => None
  end.

(** [l[i] = v]: an index past the end extends the array with [undefined]. *)
Fixpoint arraySet {A : Type} (l : array A) (i : nat) (v : option A)
  : array A :=
  match l, i with
  | [], O => [v]
  | [], S i' => None :: arraySet [] i' v
  | _ :: r, O => v :: r
  | x :: r, S i' => x :: arraySet r i' v
  end.

Inductive Direction : Type := up | down.

(** The body shared by [moveIngredient] and [moveSection], on the copy
    [list] of the array:
    [[list[index], list[index-1]] = [list[index-1], list[index]]] for
    ['up'] when [index > 0], and the same with [index+1] for ['down'] when
    [index < list.length - 1]. *)
Definition moveItem {A : Type} (list : array A) (index : nat)
    (direction : Direction) : array A :=
  match direction with
  | up =>
      if (0 <? index)%nat then
        arraySet (arraySet list index (arrayGet list (index - 1)))
                 (index - 1) (arrayGet list index)
      else list
  | down =>
      if (Z.of_nat index <? Z.of_nat (List.length list) - 1)%Z then
        arraySet (arraySet list index (arrayGet list (index + 1)))
                 (index + 1) (arrayGet list index)
      else list
  end.

(** [moveIngredient], on the ingredients of the section [fieldKey]. *)
Definition moveIngredient (items : list Ingredient.t) (index : nat)
    (direction : Direction) : array Ingredient.t :=
  moveItem (map Some items) index direction.

Definition DEFAULT_SECTIONS_ORDER : list string :=
  [ "liquidStarterIngredients"; "ingredients"; "fillingIngredients";
    "decorationIngredients"; "customSectionIngredients" ].

(** [moveSection], on [prev.sectionsOrder || DEFAULT_SECTIONS_ORDER]. *)
Definition moveSection (sectionsOrder : option (list string)) (index : nat)
    (direction : Direction) : array string :=
  moveItem
    (map Some (match sectionsOrder with
               | Some order => order
               | None => DEFAULT_SECTIONS_ORDER
               end))
    index direction.

(** The list with the elements at [i] and [i + 1] exchanged. *)
Fixpoint swapAdjacent {A : Type} (l : list A) (i : nat) : list A :=
  match i, l with
  | O, x :: y :: r => y :: x :: r
  | S i', x :: r => x :: swapAdjacent r i'
  | _, _ => l
  end.

(** ** More of [App]: applying the mold factor *)

(** [applyMoldFactor]: the target quantity it leaves, where
    [calculatedMoldFactor] is the factor computed from the two molds. *)
Definition applyMoldFactor (NumberToString : Q -> string)
    (scalingRecipe : option Recipe.t) (calculatedMoldFactor : JS.number)
    (targetQuantity : JS.number) : JS.number :=
  match scalingRecipe with
  | None => targetQuantity
  | Some r =>
      let newTarget := JS.mul (quantityOr1 r) calculatedMoldFactor in
      parseFloat (toFixed NumberToString 2 newTarget)
  end.

(** The integer nearest to [100 * x], the larger one at a tie. *)
Definition roundHundredths (x : Q) : Z := Qfloor (x * (100 # 1) + (1 # 2)).

(** [q] rounded to the nearest hundredth, away from zero at a tie. *)
Definition toHundredths (q : Q) : Q :=
  inject_Z (if JS.Qlt_bool q 0 then -1 else 1)
  * (inject_Z (roundHundredths (magnitude q)) / (100 # 1)).

(** ** More of [App]: the mold presets *)

Inductive PresetType : Type := presetNone | presetCircular | presetRectangular.

(** An entry of [MOLD_PRESETS]; a dimension the entry does not list is
    [None]. *)
Module Preset.
Record t : Type := mk {
  name : string;
  type : PresetType;
  diameter : option JS.number;
  height : option JS.number;
  length : option JS.number;
  width : option JS.number
}.
End Preset.

Definition MOLD_PRESETS : list Preset.t :=
  [ Preset.mk "自定義尺寸" presetNone None None None None;
    Preset.mk "4吋圓模 (D10 H6)" presetCircular
      (Some (JS.Fin 10)) (Some (JS.Fin 6)) None None;
    Preset.mk "6吋圓模 (D15 H7.5)" presetCircular
      (Some (JS.Fin 15)) (Some (JS.Fin 7.5)) None None;
    Preset.mk "8吋圓模 (D20 H8)" presetCircular
      (Some (JS.Fin 20)) (Some (JS.Fin 8)) None None;
    Preset.mk "12兩吐司模 (20x10x10)" presetRectangular
      None (Some (JS.Fin 10)) (Some (JS.Fin 20)) (Some (JS.Fin 10));
    Preset.mk "24兩吐司模 (32x10x10)" presetRectangular
      None (Some (JS.Fin 10)) (Some (JS.Fin 32)) (Some (JS.Fin 10));
    Preset.mk "半盤烤盤 (42x33x2)" presetRectangular
      None (Some (JS.Fin 2)) (Some (JS.Fin 42)) (Some (JS.Fin 33)) ].

(** [preset.diameter || 0] and the like. *)
Definition dimensionOr0 (o : option JS.number) : JS.number :=
  match o with
  | Some n => JS.or_else n (JS.Fin 0)
  | None => JS.Fin 0
  end.

Inductive MoldSide : Type := sourceSide | targetSide.

(** [handleApplyMoldPreset], on the pair of [sourceMold] and [targetMold]. *)
Definition handleApplyMoldPreset (mold : MoldSide) (presetName : string)
    (molds : Mold.t * Mold.t) : Mold.t * Mold.t :=
  let updateFn (m : Mold.t) :=
    match mold with
    | sourceSide => (m, snd molds)
    | targetSide => (fst molds, m)
    end in
  match find (fun p => String.eqb (Preset.name p) presetName) MOLD_PRESETS with
  | None => molds
  | Some preset =>
      match Preset.type preset with
      | presetNone => molds
      | presetCircular =>
          updateFn {| Mold.type := circular;
                      Mold.diameter := dimensionOr0 (Preset.diameter preset);
                      Mold.height := dimensionOr0 (Preset.height preset);
                      Mold.length := JS.Fin 0;
                      Mold.width := JS.Fin 0 |}
      | presetRectangular =>
          updateFn {| Mold.type := rectangular;
                      Mold.diameter := JS.Fin 0;
                      Mold.height := dimensionOr0 (Preset.height preset);
                      Mold.length := dimensionOr0 (Preset.length preset);
                      Mold.width := dimensionOr0 (Preset.width preset) |}
      end
  end.

(** ** [RecipeCard]: the number of ingredients *)

(** [totalIngredientsCount] *)
Definition totalIngredientsCount (recipe : Recipe.t) : nat :=
  List.length (Recipe.ingredients recipe)
  + List.length (orEmpty (Recipe.liquidStarterIngredients recipe))
  + List.length (orEmpty (Recipe.fillingIngredients recipe))
  + List.length (orEmpty (Recipe.decorationIngredients recipe))
  + List.length (orEmpty (Recipe.customSectionIngredients recipe)).

(** The number of ingredient rows of a rendered section. *)
Definition rowCount (v : option SectionView.t) : nat :=
  match v with
  | Some v => List.length (SectionView.rows v)
  | None => O
  end.

(** ** More of [App]: the tags *)

(** The end of [s.trim()]: the longest suffix of white space is removed. *)
Fixpoint trimEnd (s : string) : string :=
  match s with
  | EmptyString => EmptyString
  | String c r =>
      if String.eqb (trimStart s) "" then "" else String c (trimEnd r)
  end.

(** [s.trim()] *)
Definition trim (s : string) : string := trimEnd (trimStart s).

(** The full-width comma U+FF0C in UTF-8. *)
Definition isFullWidthComma (c1 c2 c3 : ascii) : bool :=
  ((code c1 =? 239) && (code c2 =? 188) && (code c3 =? 140))%N.

(** [c] put in front of the first piece. *)
Definition pushChar (c : ascii) (pieces : list string) : list string :=
  match pieces with
  | p :: ps => String c p :: ps
  | [] => [String c ""]
  end.

(** [val.split(/[，,]/)]: the pieces between the commas, ASCII or
    full-width; there is always at least one piece. *)
Fixpoint splitCommas (s : string) : list string :=
  match s with
  | EmptyString => [""]
  | String c r =>
      if Ascii.eqb c "," then "" :: splitCommas r
      else
        match r with
        | String c2 (String c3 r3) =>
            if isFullWidthComma c c2 c3 then "" :: splitCommas r3
            else pushChar c (splitCommas r)
        | _ => pushChar c (splitCommas r)
        end
  end.

(** [handleTagsInput]: the tags it stores. *)
Definition handleTagsInput (val : string) : list string :=
  filter (fun t => negb (String.eqb t "")) (map trim (splitCommas val)).

(** [tags.join(', ')], the text shown in the tags input. *)
Fixpoint joinTags (tags : list string) : string :=
  match tags with
  | [] => ""
  | [t] => t
  | t :: rest => t ++ ", " ++ joinTags rest
  end.

(** [s] is made of white space and commas, ASCII or full-width, only. *)
Fixpoint onlyBlanksAndCommas (s : string) : bool :=
  match s with
  | EmptyString => true
  | String c1 r1 =>
      if isSpace1 c1 || Ascii.eqb c1 "," then onlyBlanksAndCommas r1
      else
        match r1 with
        | String c2 r2 =>
            if isSpace2 c1 c2 then onlyBlanksAndCommas r2
            else
              match r2 with
              | String c3 r3 =>
                  if isSpace3 c1 c2 c3 || isFullWidthComma c1 c2 c3
                  then onlyBlanksAndCommas r3
                  else false
              | EmptyString => false
              end
        | EmptyString => false
        end
  end.

(** No comma, ASCII or full-width, occurs in [s]. *)
Fixpoint noComma (s : string) : bool :=
  match s with
  | EmptyString => true
  | String c r =>
      negb (Ascii.eqb c ",")
      && negb (match r with
               | String c2 (String c3 _) => isFullWidthComma c c2 c3
               | _ => false
               end)
      && noComma r
  end.

(** A tag as [handleTagsInput] stores it: not empty, without comma, and
    with no white space at either end. *)
Definition cleanTag (t : string) : Prop :=
  t <> "" /\ noComma t = true /\ trimStart t = t /\ trimEnd t = t.

(** A full-width comma begins at [c], continued in [r]; and [r] after the
    two bytes that continue it. *)
Definition fullWidthCommaAt (c : ascii) (r : string) : bool :=
  match r with
  | String c2 (String c3 _) => isFullWidthComma c c2 c3
  | _ => false
  end.

Definition dropTwo (r : string) : string :=
  match r with
  | String _ (String _ r3) => r3
  | _ => r
  end.

(** One white-space character, of one, two or three bytes, at the head of
    a string, and the string after it: a step of [trimStart]. *)
Inductive TrimStep : string -> string -> Prop :=
| trim1 (c : ascii) (r : string) :
    isSpace1 c = true -> TrimStep (String c r) r
| trim2 (c1 c2 : ascii) (r : string) :
    isSpace1 c1 = false -> isSpace2 c1 c2 = true ->
    TrimStep (String c1 (String c2 r)) r
| trim3 (c1 c2 c3 : ascii) (r : string) :
    isSpace1 c1 = false -> isSpace2 c1 c2 = false ->
    isSpace3 c1 c2 c3 = true ->
    TrimStep (String c1 (String c2 (String c3 r))) r.

(** ** [IngredientList]: adding and removing a row *)

(** The ingredient that the button "+ 新增" appends. *)
Definition blankIngredient : Ingredient.t :=
  {| Ingredient.name := ""; Ingredient.amount := AmtNum (JS.Fin 0);
     Ingredient.unit := "g"; Ingredient.isFlour := false |}.

(** [[...(prev[fieldKey] || []), { name: '', amount: 0, unit: 'g',
    isFlour: false }]] *)
Definition addIngredient (items : option (list Ingredient.t))
  : list Ingredient.t :=
  orEmpty items ++ [blankIngredient].

(** [l.filter((x, i) => f(x, i))], the indexes counted from [i]. *)
Fixpoint filterIndexed {A : Type} (f : A -> nat -> bool) (i : nat)
    (l : list A) : list A :=
  match l with
  | [] => []
  | x :: r =>
      if f x i then x :: filterIndexed f (S i) r
      else filterIndexed f (S i) r
  end.

(** [items.filter((_, i) => i !== idx)] *)
Definition removeIngredient (items : list Ingredient.t) (idx : nat)
  : list Ingredient.t :=
  filterIndexed (fun _ i => negb (Nat.eqb i idx)) 0 items.

(** ** [geminiService.ts] and [AIImageTools]: the image of an edit request *)

(** [s.split(sep)] for a separator of one ASCII character; there is always
    at least one piece. *)
Fixpoint splitOn (sep : ascii) (s : string) : list string :=
  match s with
  | EmptyString => [""]
  | String c r =>
      if Ascii.eqb c sep then "" :: splitOn sep r
      else pushChar c (splitOn sep r)
  end.

(** [`data:${mimeType};base64,${data}`], the URL that [generateRecipeImage]
    and [editRecipeImage] return for the image of the response. *)
Definition dataUrl (mimeType data : string) : string :=
  "data:" ++ mimeType ++ ";base64," ++ data.

Module InlineData.
Record t : Type := mk {
  data : option string;        (* [None] is [undefined] *)
  mimeType : string
}.
End InlineData.

Module EditParts.
Record t : Type := mk {
  inlineData : InlineData.t;
  text : string
}.
End EditParts.

(** [editRecipeImage]: the parts of the request it sends. *)
Definition editRecipeImage_parts (base64Image prompt : string)
  : EditParts.t :=
  let base64Data := nth_error (splitOn "," base64Image) 1 in
  let mimeType :=
    optStrOr (nth_error (splitOn ":" (hd "" (splitOn ";" base64Image))) 1)
             "image/png" in
  {| EditParts.inlineData :=
       {| InlineData.data := base64Data; InlineData.mimeType := mimeType |};
     EditParts.text := prompt |}.

(** [handleEdit] of [AIImageTools]: the request sent, [None] when the
    handler returns at its guard. *)
Definition handleEdit (currentImageUrl prompt : string)
  : option EditParts.t :=
  if String.eqb (trim prompt) "" || String.eqb currentImageUrl ""
  then None
  else Some (editRecipeImage_parts currentImageUrl prompt).

(** The character [c] does not occur in [s]. *)
Fixpoint noChar (c : ascii) (s : string) : bool :=
  match s with
  | EmptyString => true
  | String x r => negb (Ascii.eqb x c) && noChar c r
  end.

(** [n] spaces. *)
Fixpoint spaces (n : nat) : string :=
  match n with
  | O => ""
  | S k => String " " (spaces k)
  end.

(** * The arithmetic in binary64 *)

(** The definitions above read [+], [*], [/] and [parseFloat] over the
    rationals: that is what the code computes as long as no result has to
    be rounded.  This module reads them as the operations of binary64: the
    result is the exact one rounded to the nearest binary64 number, to the
    one with an even last bit at a tie, to an infinity when the rounded
    magnitude reaches [2^1024], and to zero when it is below half of
    [2^-1074].  The functions of the code whose results depend on the
    rounding are embedded a second time over these operations.  The sign
    of a zero is not kept. *)

Module Binary64.

(** [2^e] *)
Definition twoTo (e : Z) : Q := Qpower 2 e.

(** The exponent of the binade of [q > 0]: [2^(ilog2 q) <= q < 2^(ilog2 q + 1)]. *)
Definition ilog2 (q : Q) : Z :=
  let L := (Z.log2 (Qnum q) - Z.log2 (Zpos (Qden q)))%Z in
  if Qle_bool (twoTo L) q then L else (L - 1)%Z.

(** The exponent of the last of the 53 bits of [a > 0]; the subnormal
    numbers are the multiples of [2^-1074]. *)
Definition ulpExp (a : Q) : Z := Z.max (ilog2 a - 52) (-1074).

(** The integer nearest to [x], the even one at a tie. *)
Definition nearestEven (x : Q) : Z :=
  let f := Qfloor x in
  match Qcompare (x - inject_Z f) (1 # 2) with
  | Lt => f
  | Gt => (f + 1)%Z
  | Eq => if Z.even f then f else (f + 1)%Z
  end.

(** The binary64 number nearest to [q]. *)
Definition round (q : Q) : JS.number :=
  if Qeq_bool q 0 then JS.Fin 0
  else
    let a := Qabs q in
    let e := ulpExp a in
    let r := inject_Z (nearestEven (a / twoTo e)) * twoTo e in
    if Qle_bool (twoTo 1024) r
    then (if Qle_bool q 0 then JS.NInf else JS.PInf)
    else JS.Fin (Qred (if Qle_bool q 0 then - r else r)).

Definition rnd (a : JS.number) : JS.number :=
  match a with
  | JS.Fin q => round q
  | _ => a
  end.

(** [a + b], [a * b], [a / b] and [parseFloat(s)]: the exact result,
    rounded.  [Math.pow(a, 2)], whose precision the language leaves to the
    implementation, is read as the rounded square. *)
Definition add (a b : JS.number) : JS.number := rnd (JS.add a b).

Definition mul (a b : JS.number) : JS.number := rnd (JS.mul a b).

Definition div (a b : JS.number) : JS.number := rnd (JS.div a b).

Definition pow2 (a : JS.number) : JS.number := mul a a.

Definition parseFloat (s : string) : JS.number := rnd (JSString.parseFloat s).

(** ** [DisplayIngredientSection] *)

(** [typeof ing.amount === 'number' ? ing.amount : parseFloat(ing.amount) || 0] *)
Definition baseAmount (ing : Ingredient.t) : JS.number :=
  match Ingredient.amount ing with
  | AmtNum n => n
  | AmtStr s => JS.or_else (parseFloat s) (JS.Fin 0)
  end.

(** One iteration of the [forEach] loop. *)
Definition baseLoopStep (st : BaseLoop) (ing : Ingredient.t) : BaseLoop :=
  let amt := baseAmount ing in
  let ft := if Ingredient.isFlour ing then add (flourTotal st) amt
            else flourTotal st in
  if JS.gt amt (maxWeight st)
  then {| flourTotal := ft; maxWeight := amt; maxName := Ingredient.name ing |}
  else {| flourTotal := ft; maxWeight := maxWeight st; maxName := maxName st |}.

(** [localBase] *)
Definition localBase (ingredients : list Ingredient.t) : LocalBase.t :=
  let st := fold_left baseLoopStep ingredients baseLoopInit in
  if JS.gt (flourTotal st) (JS.Fin 0)
  then {| LocalBase.weight := flourTotal st; LocalBase.name := "總粉量" |}
  else {| LocalBase.weight := JS.or_else (maxWeight st) (JS.Fin 1);
          LocalBase.name := strOr (maxName st) "主食材" |}.

(** [numericAmt] *)
Definition numericAmt (ing : Ingredient.t) : JS.number :=
  match Ingredient.amount ing with
  | AmtNum n => n
  | AmtStr s => let parsed := parseFloat s in
                if JS.isNaN parsed then JS.Fin 0 else parsed
  end.

Definition hasValidAmt (ing : Ingredient.t) : bool :=
  JS.gt (numericAmt ing) (JS.Fin 0).

Section Display.

Variable NumberToString : Q -> string.

(** [scaledAmount] *)
Definition scaledAmount (scalingFactor : JS.number) (ing : Ingredient.t)
  : Amount :=
  if hasValidAmt ing
  then AmtStr (stripDotZero
                 (toFixed NumberToString 1
                    (mul (numericAmt ing) scalingFactor)))
  else Ingredient.amount ing.

(** The percentage column of one row. *)
Definition percentCell (isBaking showPercentage : bool)
    (base : LocalBase.t) (ing : Ingredient.t) : PercentCell :=
  if isBaking && showPercentage
     && JS.gt (LocalBase.weight base) (JS.Fin 0)
  then
    if hasValidAmt ing
    then PercentText
           (toFixed NumberToString 1
              (mul (div (numericAmt ing) (LocalBase.weight base))
                   (JS.Fin 100)) ++ "%")
    else PercentBlank
  else PercentAbsent.

Definition displayRow (isBaking showPercentage : bool)
    (scalingFactor : JS.number) (base : LocalBase.t) (ing : Ingredient.t)
  : Row.t :=
  {| Row.name := Ingredient.name ing;
     Row.flourDot := Ingredient.isFlour ing;
     Row.amount := scaledAmount scalingFactor ing;
     Row.unit := unitCell ing;
     Row.percent := percentCell isBaking showPercentage base ing |}.

(** [DisplayIngredientSection]; [None] is the [null] rendered for an
    empty section. *)
Definition DisplayIngredientSection (ingredients : list Ingredient.t)
    (title : string) (isBaking showPercentage : bool)
    (scalingFactor : JS.number) : option SectionView.t :=
  match ingredients with
  | [] => None
  | _ =>
      let base := localBase ingredients in
      Some {| SectionView.title := title;
              SectionView.baseLabel :=
                if isBaking && showPercentage
                then Some (LocalBase.name base) else None;
              SectionView.rows :=
                map (displayRow isBaking showPercentage scalingFactor base)
                    ingredients |}
  end.

(** The sections of the scaling view. *)
Definition scalingSection (scalingRecipe : Recipe.t)
    (scalingFactor : JS.number) (secKey : string)
  : option SectionView.t :=
  let baking := Recipe.isBakingRecipe scalingRecipe in
  if String.eqb secKey "ingredients" then
    DisplayIngredientSection (Recipe.ingredients scalingRecipe)
      (optStrOr (Recipe.mainSectionName scalingRecipe) "主麵團")
      baking true scalingFactor
  else if String.eqb secKey "liquidStarterIngredients" then
    DisplayIngredientSection
      (orEmpty (Recipe.liquidStarterIngredients scalingRecipe))
      (optStrOr (Recipe.liquidStarterName scalingRecipe) "發酵種")
      baking true scalingFactor
  else if String.eqb secKey "fillingIngredients" then
    DisplayIngredientSection
      (orEmpty (Recipe.fillingIngredients scalingRecipe))
      "內餡 (固定量)" baking false (JS.Fin 1)
  else if String.eqb secKey "decorationIngredients" then
    DisplayIngredientSection
      (orEmpty (Recipe.decorationIngredients scalingRecipe))
      "裝飾 / 表面 (固定量)" baking false (JS.Fin 1)
  else if String.eqb secKey "customSectionIngredients" then
    DisplayIngredientSection
      (orEmpty (Recipe.customSectionIngredients scalingRecipe))
      (optStrOr (Recipe.customSectionName scalingRecipe) "其他區塊"
       ++ " (固定量)")
      baking false (JS.Fin 1)
  else None.

End Display.

(** ** [App] *)

(** [scalingFactor] *)
Definition scalingFactor (scalingRecipe : option Recipe.t)
    (targetQuantity : JS.number) : JS.number :=
  match scalingRecipe with
  | None => JS.Fin 1
  | Some r =>
      match Recipe.quantity r with
      | None => JS.Fin 1
      | Some q => if JS.truthy q then div targetQuantity q else JS.Fin 1
      end
  end.

(** [getVolume] *)
Definition getVolume (mold : Mold.t) : JS.number :=
  match Mold.type mold with
  | circular =>
      mul (mul (JS.Fin JS.Math_PI) (pow2 (div (Mold.diameter mold) (JS.Fin 2))))
          (JS.or_else (Mold.height mold) (JS.Fin 1))
  | rectangular =>
      mul (mul (Mold.length mold) (Mold.width mold))
          (JS.or_else (Mold.height mold) (JS.Fin 1))
  end.

(** [calculatedMoldFactor] *)
Definition calculatedMoldFactor (sourceMold targetMold : Mold.t) : JS.number :=
  let vSource := getVolume sourceMold in
  let vTarget := getVolume targetMold in
  if JS.le vSource (JS.Fin 0) || JS.le vTarget (JS.Fin 0) then JS.Fin 1
  else div vTarget vSource.

(** [applyMoldFactor] *)
Definition applyMoldFactor (NumberToString : Q -> string)
    (scalingRecipe : option Recipe.t) (calculatedMoldFactor : JS.number)
    (targetQuantity : JS.number) : JS.number :=
  match scalingRecipe with
  | None => targetQuantity
  | Some r =>
      let newTarget := mul (quantityOr1 r) calculatedMoldFactor in
      parseFloat (toFixed NumberToString 2 newTarget)
  end.

(** ** Notions of the specification *)

(** A mold of dimensions [d], [h], [l], [w], each entered as the nearest
    binary64 number. *)
Definition moldOf (ty : MoldType) (d h l w : Q) : Mold.t :=
  {| Mold.type := ty; Mold.diameter := round d; Mold.height := round h;
     Mold.length := round l; Mold.width := round w |}.

(** [q] is between [2^-b] and [2^b]. *)
Definition inRange (b : Z) (q : Q) : Prop :=
  twoTo (- b) <= q /\ q <= twoTo b.

(** The dimensions that [getVolume] reads for a mold of type [ty] are
    between [2^-100] and [2^100]; the height may be unset. *)
Definition dimensionsInRange (ty : MoldType) (d h l w : Q) : Prop :=
  (h == 0 \/ inRange 100 h)
  /\ match ty with
     | circular => inRange 100 d
     | rectangular => inRange 100 l /\ inRange 100 w
     end.

(** The relative error of one rounding is at most [2^-53]; [slack] is
    [1 / (1 - 2^-53)], and [tol n] bounds the factor by which [n] roundings
    in a row can move a positive result. *)
Definition slack : Q := 9007199254740992 # 9007199254740991.

Definition tol (n : nat) : Q := Qpower slack (Z.of_nat n).

(** [x] is [X] up to [n] roundings. *)
Definition upTo (n : nat) (x X : Q) : Prop :=
  X <= x * tol n /\ x <= X * tol n.

(** The number [a] is finite and is [X] up to [n] roundings, where [X] is
    between [2^-b] and [2^b]. *)
Definition tracked (n : nat) (b : Z) (a : JS.number) (X : Q) : Prop :=
  exists x, a = JS.Fin x /\ inRange b X /\ upTo n x X.

(** Two finite positive numbers that differ by a relative error of at most
    [eps]. *)
Definition closeTo (eps : Q) (a b : JS.number) : Prop :=
  exists x y, a = JS.Fin x /\ b = JS.Fin y /\ 0 < x /\ 0 < y
              /\ x <= y * (1 + eps) /\ y <= x * (1 + eps).

(** The value of a finite number. *)
Definition valueOf (a : JS.number) : Q :=
  match a with JS.Fin q => q | _ => 0 end.

(** The exact sum of the amounts flagged as flour, and their number. *)
Definition flourSum (l : list Ingredient.t) : Q :=
  fold_right (fun x acc => if Ingredient.isFlour x
                           then valueOf (baseAmount x) + acc
                           else acc) 0 l.

Definition flourCount (l : list Ingredient.t) : nat :=
  List.length (filter Ingredient.isFlour l).

(** Every amount flagged as flour is between [2^-100] and [2^100]. *)
Definition flourInRange (l : list Ingredient.t) : Prop :=
  forall x, In x l -> Ingredient.isFlour x = true ->
    exists a, baseAmount x = JS.Fin a /\ inRange 100 a.

(** A recipe for four whose filling has an amount with two decimals and an
    amount written as a fraction. *)
Definition creamBun : Recipe.t :=
  {| Recipe.quantity := Some (JS.Fin 4);
     Recipe.ingredients :=
       [ Ingredient.mk "flour" (AmtNum (JS.Fin 400)) "g" true;
         Ingredient.mk "water" (AmtNum (JS.Fin 280)) "g" false ];
     Recipe.mainSectionName := None;
     Recipe.liquidStarterName := None;
     Recipe.liquidStarterIngredients := None;
     Recipe.fillingIngredients :=
       Some [ Ingredient.mk "cream" (AmtNum (round 12.34)) "g" false;
              Ingredient.mk "zest" (AmtStr "1/2") "" false;
              Ingredient.mk "vanilla" (AmtStr "少許") "" false ];
     Recipe.decorationIngredients := None;
     Recipe.customSectionName := None;
     Recipe.customSectionIngredients := None;
     Recipe.sectionsOrder :=
       Some ["ingredients"; "fillingIngredients"];
     Recipe.isBakingRecipe := true |}.

End Binary64.

(** ** Binary64 numbers of the machine *)

Module Binary64Hardware.
Import Floats.PrimFloat Floats.SpecFloat Floats.FloatOps.

(** The number that a binary64 value of the machine denotes. *)
Definition ofFloat (f : float) : JS.number :=
  match Prim2SF f with
  | S754_zero _ => JS.Fin 0
  | S754_infinity s => if s then JS.NInf else JS.PInf
  | S754_nan => JS.NaN
  | S754_finite s m e =>
      JS.Fin (Qred (inject_Z (if s then Zneg m else Zpos m)
                    * Binary64.twoTo e))
  end.

End Binary64Hardware.

(** * Properties *)

(** ** Numbers *)

Module JSFacts.
Import JS.

Lemma Qlt_bool_true (x y : Q) : Qlt_bool x y = true <-> x < y.
Proof.
  unfold Qlt_bool. rewrite negb_true_iff.
  split; intro H.
  - apply Qnot_le_lt. intro Hle. apply Qle_bool_iff in Hle. congruence.
  - destruct (Qle_bool y x) eqn:E; [|reflexivity].
    apply Qle_bool_iff in E. exfalso. apply (Qlt_not_le _ _ H E).
Qed.

Lemma Qlt_bool_false (x y : Q) : Qlt_bool x y = false <-> y <= x.
Proof.
  unfold Qlt_bool. rewrite negb_false_iff. apply Qle_bool_iff.
Qed.

Lemma Qeq_bool_false (x y : Q) : Qeq_bool x y = false <-> ~ x == y.
Proof.
  split; intro H.
  - intro E. apply Qeq_bool_iff in E. congruence.
  - destruct (Qeq_bool x y) eqn:E; [|reflexivity].
    apply Qeq_bool_iff in E. contradiction.
Qed.

Ltac qbool :=
  repeat match goal with
  | H : Qlt_bool _ _ = true |- _ => apply Qlt_bool_true in H
  | H : Qlt_bool _ _ = false |- _ => apply Qlt_bool_false in H
  | H : Qle_bool _ _ = true |- _ => apply Qle_bool_iff in H
  | H : Qeq_bool _ _ = true |- _ => apply Qeq_bool_iff in H
  | H : Qeq_bool _ _ = false |- _ => apply Qeq_bool_false in H
  | H : negb _ = true |- _ => apply negb_true_iff in H
  | H : negb _ = false |- _ => apply negb_false_iff in H
  | |- Qlt_bool _ _ = true => apply Qlt_bool_true
  | |- Qlt_bool _ _ = false => apply Qlt_bool_false
  | |- Qle_bool _ _ = true => apply Qle_bool_iff
  | |- Qeq_bool _ _ = true => apply Qeq_bool_iff
  | |- Qeq_bool _ _ = false => apply Qeq_bool_false
  | |- negb _ = true => apply negb_true_iff
  | |- negb _ = false => apply negb_false_iff
  end.

Lemma Qle_bool_false (x y : Q) : Qle_bool x y = false <-> y < x.
Proof.
  rewrite <- Qlt_bool_true. unfold Qlt_bool.
  now rewrite negb_true_iff.
Qed.

Lemma same_sym (a b : number) : same a b -> same b a.
Proof. destruct a, b; simpl; auto. intro H; now symmetry. Qed.

Lemma same_trans (a b c : number) : same a b -> same b c -> same a c.
Proof.
  destruct a, b, c; simpl; auto; try contradiction.
  intros H1 H2. now rewrite H1.
Qed.

Lemma lt_irrefl (a : number) : lt a a = false.
Proof. destruct a; simpl; auto. qbool. apply Qle_refl. Qed.

Lemma lt_trans (a b c : number) :
  lt a b = true -> lt b c = true -> lt a c = true.
Proof.
  destruct a, b, c; simpl; auto; try discriminate.
  intros H1 H2. qbool. eapply Qlt_trans; eauto.
Qed.

Lemma lt_same_r (a b c : number) : same a b -> lt c a = lt c b.
Proof.
  destruct a, b, c; simpl; auto; try contradiction.
  intro H. unfold Qlt_bool. f_equal.
  destruct (Qle_bool q q1) eqn:E1, (Qle_bool q0 q1) eqn:E2; auto.
  - apply Qle_bool_iff in E1. apply Qle_bool_false in E2.
    rewrite H in E1. exfalso. apply (Qlt_not_le _ _ E2 E1).
  - apply Qle_bool_iff in E2. apply Qle_bool_false in E1.
    rewrite H in E1. exfalso. apply (Qlt_not_le _ _ E1 E2).
Qed.

(** A number above zero is truthy, is not below or equal to zero, and is
    not zero. *)
Lemma gt0_truthy (a : number) : gt a (Fin 0) = true -> truthy a = true.
Proof.
  destruct a; simpl; auto. unfold gt; simpl. intro H. qbool.
  intro E. rewrite E in H. discriminate.
Qed.


Lemma gt0_not_zero (a : number) : gt a (Fin 0) = true -> ~ same a (Fin 0).
Proof.
  destruct a; unfold gt; simpl; auto.
  intros H E. qbool. rewrite E in H. discriminate.
Qed.

(** A number that is neither below zero nor falsy is above zero. *)
Lemma nonneg_truthy_gt0 (a : number) :
  le (Fin 0) a = true -> truthy a = true -> gt a (Fin 0) = true.
Proof.
  destruct a; unfold gt; simpl; auto.
  intros H1 H2. qbool.
  apply Qle_lteq in H1. destruct H1 as [H1|H1]; [exact H1|].
  exfalso. apply H2. now symmetry.
Qed.

Lemma gt_nonneg (a b : number) :
  le (Fin 0) b = true -> gt a b = true -> le (Fin 0) a = true.
Proof.
  destruct a, b; unfold gt; simpl; auto; try discriminate.
  intros H1 H2. qbool. apply Qlt_le_weak. eapply Qle_lt_trans; eauto.
Qed.

End JSFacts.

(** ** The base of a section *)

Section BaseLoop.
Import JS JSFacts.

Lemma flourTotal_step (st : BaseLoop) (x : Ingredient.t) :
  flourTotal (baseLoopStep st x)
  = if Ingredient.isFlour x then add (flourTotal st) (baseAmount x)
    else flourTotal st.
Proof.
  unfold baseLoopStep.
  destruct (gt (baseAmount x) (maxWeight st)); reflexivity.
Qed.

(** The loop adds up the amounts of the flour ingredients in list order. *)
Lemma flourTotal_fold (l : list Ingredient.t) (st : BaseLoop) :
  flourTotal (fold_left baseLoopStep l st)
  = fold_left add (flourAmounts l) (flourTotal st).
Proof.
  revert st. induction l as [|x l IH]; intro st; [reflexivity|].
  simpl fold_left at 1. rewrite IH, flourTotal_step.
  unfold flourAmounts. simpl filter.
  destruct (Ingredient.isFlour x); reflexivity.
Qed.

Lemma flourTotal_sum (l : list Ingredient.t) :
  flourTotal (fold_left baseLoopStep l baseLoopInit) = sumOf (flourAmounts l).
Proof. apply flourTotal_fold. Qed.

Lemma gt_above (a b c : number) :
  gt b c = true -> gt a c = false -> gt a b = false.
Proof.
  intros Hbc Hac. destruct (gt a b) eqn:E; [|reflexivity].
  unfold gt in *. rewrite (lt_trans _ _ _ Hbc E) in Hac. discriminate.
Qed.

Lemma not_same_above (a b c : number) :
  gt b c = true -> gt a c = false -> ~ same a b.
Proof.
  intros Hbc Hac E. unfold gt in *.
  rewrite (lt_same_r _ _ _ E) in Hac. congruence.
Qed.

Lemma loopFound_fold (l : list Ingredient.t) :
  loopFound l (fold_left baseLoopStep l baseLoopInit).
Proof.
  induction l as [|x l IH] using rev_ind.
  - left. repeat split. intros y [].
  - rewrite fold_left_app. simpl.
    set (st := fold_left baseLoopStep l baseLoopInit) in *.
    unfold baseLoopStep.
    destruct (gt (baseAmount x) (maxWeight st)) eqn:Hgt; simpl.
    + (* [x] is the new maximum *)
      right. exists (List.length l), x.
      assert (Hold : forall y, In y l ->
                 gt (baseAmount y) (maxWeight st) = false).
      { destruct IH as [(Hw & _ & Hnone)|(i & m & Hm & Hw & _)].
        - rewrite Hw. exact Hnone.
        - rewrite Hw. apply Hm. }
      assert (Hpos : gt (baseAmount x) (Fin 0) = true).
      { destruct IH as [(Hw & _ & _)|(i & m & Hm & Hw & _)].
        - now rewrite Hw in Hgt.
        - destruct Hm as (_ & Hmpos & _). rewrite Hw in Hgt.
          unfold gt in *. eapply lt_trans; eauto. }
      repeat split; auto.
      * rewrite nth_error_app2 by lia. now rewrite Nat.sub_diag.
      * intros y Hy. apply in_app_or in Hy. destruct Hy as [Hy|[<-|[]]].
        -- apply (gt_above _ _ (maxWeight st)); auto.
        -- apply lt_irrefl.
      * intros j y Hj Hy. rewrite nth_error_app1 in Hy by exact Hj.
        apply nth_error_In in Hy.
        apply (not_same_above _ _ (maxWeight st)); auto.
    + (* the maximum stays *)
      destruct IH as [(Hw & Hn & Hnone)|(i & m & Hm & Hw & Hn)].
      * left. repeat split; auto.
        intros y Hy. apply in_app_or in Hy. destruct Hy as [Hy|[<-|[]]].
        -- now apply Hnone.
        -- now rewrite Hw in Hgt.
      * right. exists i, m. repeat split; auto.
        -- destruct Hm as (Hnth & _).
           rewrite nth_error_app1; [exact Hnth|].
           apply nth_error_Some. congruence.
        -- apply Hm.
        -- intros y Hy. apply in_app_or in Hy. destruct Hy as [Hy|[<-|[]]].
           ++ now apply Hm.
           ++ now rewrite Hw in Hgt.
        -- intros j y Hj Hy. destruct Hm as (Hnth & _ & _ & Hfirst).
           apply (Hfirst j y Hj).
           rewrite nth_error_app1 in Hy; [exact Hy|].
           assert (i < List.length l)%nat
             by (apply nth_error_Some; congruence).
           lia.
Qed.

(** The largest amount found is never below zero. *)
Lemma maxWeight_nonneg (l : list Ingredient.t) (st : BaseLoop) :
  le (Fin 0) (maxWeight st) = true ->
  le (Fin 0) (maxWeight (fold_left baseLoopStep l st)) = true.
Proof.
  revert st. induction l as [|x l IH]; intros st H; [exact H|].
  simpl. apply IH. unfold baseLoopStep.
  destruct (gt (baseAmount x) (maxWeight st)) eqn:E; simpl; auto.
  eapply gt_nonneg; eauto.
Qed.

Lemma localBase_weight_cases (l : list Ingredient.t) :
  let st := fold_left baseLoopStep l baseLoopInit in
  (gt (flourTotal st) (Fin 0) = true
   /\ LocalBase.weight (localBase l) = flourTotal st)
  \/ (gt (flourTotal st) (Fin 0) = false
      /\ gt (maxWeight st) (Fin 0) = true
      /\ LocalBase.weight (localBase l) = maxWeight st)
  \/ (gt (flourTotal st) (Fin 0) = false
      /\ truthy (maxWeight st) = false
      /\ LocalBase.weight (localBase l) = Fin 1).
Proof.
  intro st. unfold localBase. fold st.
  destruct (gt (flourTotal st) (Fin 0)) eqn:Hf; simpl; [left; auto|].
  right. unfold or_else.
  destruct (truthy (maxWeight st)) eqn:Ht; [left|right]; repeat split.
  apply nonneg_truthy_gt0; auto.
  apply maxWeight_nonneg. reflexivity.
Qed.

End BaseLoop.

Section SectionBase.
Import JS JSFacts.

Lemma localBase_flour (l : list Ingredient.t) :
  gt (sumOf (flourAmounts l)) (Fin 0) = true ->
  localBase l = {| LocalBase.weight := sumOf (flourAmounts l);
                   LocalBase.name := "總粉量" |}.
Proof.
  intro H. unfold localBase. rewrite flourTotal_sum, H. reflexivity.
Qed.

Lemma localBase_heaviest (l : list Ingredient.t) :
  gt (sumOf (flourAmounts l)) (Fin 0) = false ->
  (exists y, In y l /\ gt (baseAmount y) (Fin 0) = true) ->
  exists i x, heaviestAt l i x
    /\ localBase l = {| LocalBase.weight := baseAmount x;
                        LocalBase.name := strOr (Ingredient.name x) "主食材" |}.
Proof.
  intros H (y & Hy & Hpos). unfold localBase. rewrite flourTotal_sum, H.
  destruct (loopFound_fold l) as [(_ & _ & Hnone)|(i & x & Hx & Hw & Hn)].
  - rewrite (Hnone y Hy) in Hpos. discriminate.
  - exists i, x. split; [exact Hx|].
    rewrite Hw, Hn. unfold or_else.
    destruct Hx as (_ & Hxpos & _). now rewrite (gt0_truthy _ Hxpos).
Qed.

Lemma localBase_default (l : list Ingredient.t) :
  gt (sumOf (flourAmounts l)) (Fin 0) = false ->
  noPositiveAmount l ->
  localBase l = {| LocalBase.weight := Fin 1; LocalBase.name := "主食材" |}.
Proof.
  intros H Hnone. unfold localBase. rewrite flourTotal_sum, H.
  destruct (loopFound_fold l) as [(Hw & Hn & _)|(i & x & Hx & _)].
  - rewrite Hw, Hn. reflexivity.
  - destruct Hx as (Hnth & Hxpos & _).
    apply nth_error_In in Hnth. rewrite (Hnone x Hnth) in Hxpos. discriminate.
Qed.

End SectionBase.




(** C10.  Whatever the ingredients (none, all zero, strings that do not
    parse), the weight of the base is above zero: it is a positive flour
    total, the positive amount of the heaviest ingredient, or the default 1.
    So the guard [localBase.weight > 0] of the percentage column always
    passes, and the percentage is never a division by zero. *)
Theorem localBase_weight_positive (ingredients : list Ingredient.t) :
  let base := localBase ingredients in
  let total := sumOf (flourAmounts ingredients) in
  JS.gt (LocalBase.weight base) (JS.Fin 0) = true
  /\ ((JS.gt total (JS.Fin 0) = true /\ LocalBase.weight base = total)
      \/ (exists i x, heaviestAt ingredients i x
                      /\ LocalBase.weight base = baseAmount x)
      \/ LocalBase.weight base = JS.Fin 1)
  /\ ~ JS.same (LocalBase.weight base) (JS.Fin 0)
  /\ (forall NumberToString isBaking showPercentage x,
         percentCell NumberToString isBaking showPercentage base x
         = if isBaking && showPercentage
           then if hasValidAmt x
                then PercentText
                       (toFixed NumberToString 1
                          (JS.mul (JS.div (numericAmt x)
                                          (LocalBase.weight base))
                                  (JS.Fin 100)) ++ "%")
                else PercentBlank
           else PercentAbsent).
Proof.
  intros base total.
  assert (Hpos : JS.gt (LocalBase.weight base) (JS.Fin 0) = true).
  { destruct (localBase_weight_cases ingredients)
      as [(H & E)|[(_ & H & E)|(_ & _ & E)]]; subst base; rewrite E; auto. }
  split; [exact Hpos|]. split; [|split].
  - subst base total.
    destruct (JS.gt (sumOf (flourAmounts ingredients)) (JS.Fin 0)) eqn:Hf.
    + left. split; [reflexivity|]. now rewrite localBase_flour.
    + right.
      destruct (loopFound_fold ingredients)
        as [(_ & _ & Hnone)|(i & x & Hx & _)].
      * right. now rewrite localBase_default.
      * left. destruct (localBase_heaviest ingredients Hf) as (i' & x' & Hx' & E).
        { destruct Hx as (Hnth & Hxpos & _).
          exists x. split; [eapply nth_error_In; eauto | exact Hxpos]. }
        exists i', x'. split; [exact Hx'|]. now rewrite E.
  - now apply JSFacts.gt0_not_zero.
  - intros N isBaking showPercentage x. unfold percentCell.
    rewrite Hpos, andb_true_r. reflexivity.
Qed.

(** ** Strings: decimal digits, [toFixed(1)] and the removal of [.0] *)

Module StringFacts.

Lemma length_app (a b : string) :
  String.length (a ++ b) = (String.length a + String.length b)%nat.
Proof. induction a as [|c a IH]; simpl; [reflexivity | now rewrite IH]. Qed.

Lemma app_assoc (a b c : string) : (a ++ b) ++ c = a ++ (b ++ c).
Proof. induction a as [|x a IH]; simpl; [reflexivity | now rewrite IH]. Qed.

Lemma substring_head (a b : string) :
  substring 0 (String.length a) (a ++ b) = a.
Proof.
  induction a as [|c a IH]; simpl.
  - destruct b; reflexivity.
  - now rewrite IH.
Qed.

Lemma substring_tail (a b : string) (m : nat) :
  substring (String.length a) m (a ++ b) = substring 0 m b.
Proof. induction a as [|c a IH]; simpl; [reflexivity | exact IH]. Qed.

(** Enough fuel prints the same digits. *)
Lemma decimalDigits_fuel (f1 : nat) :
  forall (f2 : nat) (n : Z),
    (0 <= n < 2 ^ Z.of_nat (S f1))%Z -> (n < 2 ^ Z.of_nat (S f2))%Z ->
    decimalDigits (S f1) n = decimalDigits (S f2) n.
Proof.
  induction f1 as [|f1 IH]; intros f2 n H1 H2.
  - simpl. change (2 ^ Z.of_nat 1)%Z with 2%Z in H1.
    destruct (n <? 10)%Z eqn:E; [reflexivity|].
    apply Z.ltb_ge in E. lia.
  - cbn [decimalDigits].
    destruct (n <? 10)%Z eqn:E; [reflexivity|].
    apply Z.ltb_ge in E. f_equal.
    assert (Hhalf : forall k : nat, (n < 2 ^ Z.of_nat (S k))%Z ->
                      (n / 10 < 2 ^ Z.of_nat k)%Z).
    { intros k Hk. rewrite Nat2Z.inj_succ, Z.pow_succ_r in Hk by lia.
      apply Z.div_lt_upper_bound; lia. }
    destruct f2 as [|f2].
    + change (2 ^ Z.of_nat 1)%Z with 2%Z in H2. lia.
    + apply IH.
      * split; [apply Z.div_pos; lia | apply Hhalf; lia].
      * apply Hhalf; lia.
Qed.

Lemma decimal_fuel (f : nat) (n : Z) :
  (0 <= n < 2 ^ Z.of_nat (S f))%Z -> decimalDigits (S f) n = decimal n.
Proof.
  intro H. unfold decimal. apply decimalDigits_fuel; [exact H|].
  destruct (Z.eq_dec n 0) as [->|Hn]; [reflexivity|].
  rewrite Nat2Z.inj_succ, Z2Nat.id by apply Z.log2_nonneg.
  apply Z.log2_spec. lia.
Qed.

Lemma decimal_small (n : Z) :
  (n < 10)%Z -> decimal n = String (digitChar n) "".
Proof.
  intro H. unfold decimal. cbn [decimalDigits].
  apply Z.ltb_lt in H. now rewrite H.
Qed.

Lemma decimal_step (n : Z) :
  (10 <= n)%Z ->
  decimal n = decimal (n / 10) ++ String (digitChar (n mod 10)) "".
Proof.
  intro H. unfold decimal at 1. cbn [decimalDigits].
  assert (E : (n <? 10)%Z = false) by (apply Z.ltb_ge; lia).
  rewrite E. f_equal.
  assert (Hlog : (3 <= Z.log2 n)%Z).
  { apply Z.log2_le_pow2; [lia|]. change (2 ^ 3)%Z with 8%Z. lia. }
  destruct (Z.to_nat (Z.log2 n)) as [|k] eqn:Ek; [lia|].
  apply decimal_fuel. split; [apply Z.div_pos; lia|].
  assert (Hn : (n < 2 ^ Z.succ (Z.log2 n))%Z) by (apply Z.log2_spec; lia).
  replace (Z.of_nat (S k)) with (Z.log2 n) by lia.
  rewrite Z.pow_succ_r in Hn by lia.
  apply Z.div_lt_upper_bound; lia.
Qed.

Lemma decimal_length (n : Z) : (1 <= String.length (decimal n))%nat.
Proof.
  destruct (Z_lt_le_dec n 10) as [H|H].
  - rewrite decimal_small by exact H. simpl. lia.
  - rewrite decimal_step by exact H. rewrite length_app. simpl. lia.
Qed.

(** A number below ten is printed as the decimal of its tens (zero) and
    its last digit, like any other. *)
Lemma roundTenths_nonneg (x : Q) : 0 <= x -> (0 <= roundTenths x)%Z.
Proof.
  intro H. unfold roundTenths.
  change 0%Z with (Qfloor (inject_Z 0)) at 1.
  rewrite Qfloor_Z. change 0%Z with (Qfloor 0).
  apply Qfloor_resp_le.
  assert (H' : 0 <= x * (10 # 1)) by (apply Qmult_le_0_compat; [exact H | discriminate]).
  lra.
Qed.

(** The integer chosen by [toFixed(1)] is within a half of [10 * x]. *)
Lemma roundTenths_close (x : Q) :
  inject_Z (roundTenths x) - (1 # 2) <= x * (10 # 1)
  /\ x * (10 # 1) < inject_Z (roundTenths x) + (1 # 2).
Proof.
  unfold roundTenths.
  pose proof (Qfloor_le (x * (10 # 1) + (1 # 2))) as H1.
  pose proof (Qlt_floor (x * (10 # 1) + (1 # 2))) as H2.
  rewrite inject_Z_plus in H2. change (inject_Z 1) with 1 in H2.
  split; lra.
Qed.


Lemma fixedNotation_tenths (x : Q) :
  0 <= x ->
  fixedNotation 1 x
  = decimal (roundTenths x / 10) ++ "."
    ++ String (digitChar (roundTenths x mod 10)) "".
Proof.
  intro Hx. pose proof (roundTenths_nonneg x Hx) as Hn.
  unfold fixedNotation.
  change (Qfloor (x * pow10 1 + (1 # 2))) with (roundTenths x).
  set (n := roundTenths x) in *.
  destruct (Z.eqb_spec n 0) as [->|Hn0]; [reflexivity|].
  destruct (Z_lt_le_dec n 10) as [H|H].
  - rewrite (decimal_small n H).
    rewrite Z.div_small, Z.mod_small by lia. reflexivity.
  - rewrite (decimal_step n H).
    set (a := decimal (n / 10)). set (d := digitChar (n mod 10)).
    pose proof (decimal_length (n / 10)) as Hlen. fold a in Hlen.
    rewrite length_app. cbn [String.length].
    assert (E : (String.length a + 1 <=? 1)%nat = false)
      by (apply Nat.leb_gt; lia).
    rewrite E.
    replace (String.length a + 1 - 1)%nat with (String.length a) by lia.
    rewrite substring_head, substring_tail. reflexivity.
Qed.

Lemma eqb_dot_zero_long (c d : ascii) (a : string) :
  String.eqb (String c (a ++ "." ++ String d "")) ".0" = false.
Proof.
  apply String.eqb_neq. intro E.
  apply (f_equal String.length) in E. simpl in E.
  rewrite length_app in E. simpl in E. lia.
Qed.

(** A final [.0] is removed, any other final digit is kept. *)
Lemma stripDotZero_tenths (a : string) (d : ascii) :
  stripDotZero (a ++ "." ++ String d "")
  = if Ascii.eqb d "0" then a else a ++ "." ++ String d "".
Proof.
  induction a as [|c a IH].
  - cbn. destruct (Ascii.eqb d "0") eqn:E; [reflexivity|].
    destruct (Ascii.eqb d "."); reflexivity.
  - change (String c a ++ "." ++ String d "")
      with (String c (a ++ "." ++ String d "")).
    cbn [stripDotZero]. rewrite eqb_dot_zero_long, IH.
    destruct (Ascii.eqb d "0"); reflexivity.
Qed.

Lemma digitChar_zero (d : Z) :
  (0 <= d < 10)%Z -> Ascii.eqb (digitChar d) "0" = (d =? 0)%Z.
Proof.
  intro H.
  assert (C : (d = 0 \/ d = 1 \/ d = 2 \/ d = 3 \/ d = 4 \/ d = 5
               \/ d = 6 \/ d = 7 \/ d = 8 \/ d = 9)%Z) by lia.
  destruct C as [->|[->|[->|[->|[->|[->|[->|[->|[->| ->]]]]]]]]];
    reflexivity.
Qed.

End StringFacts.

(** ** Rounding to binary64 *)

Module Binary64Facts.
Import Binary64.

Lemma twoTo_pos (e : Z) : 0 < twoTo e.
Proof. apply Qpower_0_lt. reflexivity. Qed.

Lemma twoTo_add (a b : Z) : twoTo (a + b) == twoTo a * twoTo b.
Proof. apply Qpower_plus. discriminate. Qed.

Lemma twoTo_le (a b : Z) : (a <= b)%Z -> twoTo a <= twoTo b.
Proof. intro H. apply Qpower_le_compat_l; [exact H | discriminate]. Qed.

Lemma twoTo_lt (a b : Z) : (a < b)%Z -> twoTo a < twoTo b.
Proof. intro H. apply Qpower_lt_compat_l; [exact H | reflexivity]. Qed.

Lemma twoTo_lt_inv (a b : Z) : twoTo a < twoTo b -> (a < b)%Z.
Proof. intro H. apply (Qpower_lt_compat_l_inv 2); [exact H | reflexivity]. Qed.

Lemma twoTo_Z (n : Z) : (0 <= n)%Z -> twoTo n == inject_Z (2 ^ n).
Proof. intro H. unfold twoTo. now rewrite Zpower_Qpower. Qed.

Lemma twoTo_succ (a : Z) : twoTo (a + 1) == 2 * twoTo a.
Proof. rewrite twoTo_add. change (twoTo 1) with 2. ring. Qed.

Lemma twoTo_pred (a : Z) : twoTo (a - 1) == twoTo a / 2.
Proof.
  assert (H := twoTo_succ (a - 1)). replace (a - 1 + 1)%Z with a in H by ring.
  rewrite H. field.
Qed.

(** [ilog2 q] is the exponent of the binade of [q > 0]. *)
Lemma ilog2_spec (q : Q) :
  0 < q -> twoTo (ilog2 q) <= q /\ q < twoTo (ilog2 q + 1).
Proof.
  intro Hq. unfold ilog2.
  destruct q as [p d]. cbn [Qnum Qden].
  assert (Hp : (0 < p)%Z) by (unfold Qlt in Hq; simpl in Hq; lia).
  set (lp := Z.log2 p). set (ld := Z.log2 (Zpos d)).
  assert (Hlp : (0 <= lp)%Z) by apply Z.log2_nonneg.
  assert (Hld : (0 <= ld)%Z) by apply Z.log2_nonneg.
  destruct (Z.log2_spec p Hp) as [P1 P2]. fold lp in P1, P2.
  destruct (Z.log2_spec (Zpos d) (Pos2Z.is_pos d)) as [D1 D2].
  fold ld in D1, D2.
  assert (Q1 : twoTo lp <= inject_Z p)
    by (rewrite twoTo_Z by lia; now rewrite <- Zle_Qle).
  assert (Q2 : inject_Z p < twoTo (lp + 1))
    by (rewrite twoTo_Z by lia; now rewrite <- Zlt_Qlt).
  assert (Q3 : twoTo ld <= inject_Z (Zpos d))
    by (rewrite twoTo_Z by lia; now rewrite <- Zle_Qle).
  assert (Q4 : inject_Z (Zpos d) < twoTo (ld + 1))
    by (rewrite twoTo_Z by lia; now rewrite <- Zlt_Qlt).
  assert (E : (p # d) * inject_Z (Zpos d) == inject_Z p).
  { rewrite (Qmake_Qdiv p d). field. discriminate. }
  set (x := p # d) in *. set (P := inject_Z p) in *.
  set (D := inject_Z (Zpos d)) in *.
  assert (Hld0 := twoTo_pos ld).
  assert (Low : twoTo (lp - ld - 1) < x).
  { assert (H : twoTo lp == twoTo (lp - ld - 1) * twoTo (ld + 1)).
    { rewrite <- twoTo_add. now replace (lp - ld - 1 + (ld + 1))%Z with lp by ring. }
    assert (H0 := twoTo_pos (lp - ld - 1)).
    apply Qnot_le_lt. intro C.
    assert (x * D <= twoTo (lp - ld - 1) * D)
      by (apply Qmult_le_compat_r; [exact C | lra]).
    assert (twoTo (lp - ld - 1) * D < twoTo (lp - ld - 1) * twoTo (ld + 1))
      by (apply Qmult_lt_l; assumption).
    lra. }
  assert (High : x < twoTo (lp - ld + 1)).
  { assert (H : twoTo (lp + 1) == twoTo (lp - ld + 1) * twoTo ld).
    { rewrite <- twoTo_add. now replace (lp - ld + 1 + ld)%Z with (lp + 1)%Z by ring. }
    assert (H0 := twoTo_pos (lp - ld + 1)).
    apply Qnot_le_lt. intro C.
    assert (twoTo (lp - ld + 1) * twoTo ld <= x * twoTo ld)
      by (apply Qmult_le_compat_r; [exact C | lra]).
    assert (x * twoTo ld <= x * D)
      by (apply Qmult_le_l; assumption).
    lra. }
  destruct (Qle_bool (twoTo (lp - ld)) x) eqn:C.
  - apply Qle_bool_iff in C. split; assumption.
  - assert (C' : x < twoTo (lp - ld)).
    { apply Qnot_le_lt. intro H. apply Qle_bool_iff in H. congruence. }
    split; [now apply Qlt_le_weak|].
    now replace (lp - ld - 1 + 1)%Z with (lp - ld)%Z by ring.
Qed.

Lemma ilog2_unique (q : Q) (k : Z) :
  twoTo k <= q -> q < twoTo (k + 1) -> ilog2 q = k.
Proof.
  intros H1 H2.
  assert (Hq : 0 < q) by (assert (H := twoTo_pos k); lra).
  destruct (ilog2_spec q Hq) as [S1 S2].
  assert (A : (k < ilog2 q + 1)%Z) by (apply twoTo_lt_inv; lra).
  assert (B : (ilog2 q < k + 1)%Z) by (apply twoTo_lt_inv; lra).
  lia.
Qed.

Lemma ilog2_compat (p q : Q) : 0 < p -> p == q -> ilog2 p = ilog2 q.
Proof.
  intros Hp E. destruct (ilog2_spec p Hp) as [S1 S2].
  symmetry. apply ilog2_unique; rewrite <- E; assumption.
Qed.

Lemma nearestEven_compat (p q : Q) : p == q -> nearestEven p = nearestEven q.
Proof.
  intro E. unfold nearestEven. rewrite (Qfloor_comp _ _ E).
  assert (E' : p - inject_Z (Qfloor q) == q - inject_Z (Qfloor q))
    by now rewrite E.
  now rewrite (Qcompare_comp _ _ E' _ _ (Qeq_refl (1 # 2))).
Qed.

Lemma nearestEven_close (x : Q) :
  inject_Z (nearestEven x) - (1 # 2) <= x
  /\ x <= inject_Z (nearestEven x) + (1 # 2).
Proof.
  unfold nearestEven.
  assert (L := Qfloor_le x). assert (U := Qlt_floor x).
  rewrite inject_Z_plus in U. change (inject_Z 1) with 1 in U.
  destruct (Qcompare (x - inject_Z (Qfloor x)) (1 # 2)) eqn:C.
  - apply Qeq_alt in C.
    destruct (Z.even (Qfloor x)); rewrite ?inject_Z_plus;
      change (inject_Z 1) with 1; lra.
  - apply Qlt_alt in C. lra.
  - apply Qgt_alt in C. rewrite inject_Z_plus.
    change (inject_Z 1) with 1. lra.
Qed.

Lemma nearestEven_Z (n : Z) : nearestEven (inject_Z n) = n.
Proof.
  unfold nearestEven. rewrite Qfloor_Z.
  assert (E : inject_Z n - inject_Z n == 0) by ring.
  now rewrite (Qcompare_comp _ _ E _ _ (Qeq_refl (1 # 2))).
Qed.

Lemma nearestEven_floor (x : Q) :
  (Qfloor x <= nearestEven x <= Qfloor x + 1)%Z.
Proof.
  unfold nearestEven.
  destruct (Qcompare _ _); [destruct (Z.even _)| |]; lia.
Qed.

Lemma Qle_bool_comp (p p' q q' : Q) :
  p == p' -> q == q' -> Qle_bool p q = Qle_bool p' q'.
Proof.
  intros Hp Hq.
  destruct (Qle_bool p q) eqn:E1, (Qle_bool p' q') eqn:E2; auto.
  - apply Qle_bool_iff in E1. rewrite Hp, Hq in E1.
    apply Qle_bool_iff in E1. congruence.
  - apply Qle_bool_iff in E2. rewrite <- Hp, <- Hq in E2.
    apply Qle_bool_iff in E2. congruence.
Qed.

Lemma Qeq_bool_comp (p p' : Q) : p == p' -> Qeq_bool p 0 = Qeq_bool p' 0.
Proof.
  intro Hp.
  destruct (Qeq_bool p 0) eqn:E1, (Qeq_bool p' 0) eqn:E2; auto.
  - apply Qeq_bool_iff in E1. rewrite Hp in E1.
    apply Qeq_bool_iff in E1. congruence.
  - apply Qeq_bool_iff in E2. rewrite <- Hp in E2.
    apply Qeq_bool_iff in E2. congruence.
Qed.

(** The rounding of a positive number. *)
Lemma round_pos (q : Q) :
  0 < q ->
  round q
  = let r := inject_Z (nearestEven (q / twoTo (ulpExp q))) * twoTo (ulpExp q) in
    if Qle_bool (twoTo 1024) r then JS.PInf else JS.Fin (Qred r).
Proof.
  intro Hq. unfold round.
  assert (E0 : Qeq_bool q 0 = false).
  { destruct (Qeq_bool q 0) eqn:E; [|reflexivity].
    apply Qeq_bool_iff in E. lra. }
  assert (E1 : Qle_bool q 0 = false).
  { destruct (Qle_bool q 0) eqn:E; [|reflexivity].
    apply Qle_bool_iff in E. lra. }
  assert (Ea : Qabs q == q) by (apply Qabs_pos; lra).
  assert (Ee : ulpExp (Qabs q) = ulpExp q).
  { unfold ulpExp. f_equal. f_equal. apply ilog2_compat; [|exact Ea].
    rewrite Ea. exact Hq. }
  rewrite E0, E1, Ee. cbv zeta.
  assert (En : nearestEven (Qabs q / twoTo (ulpExp q))
               = nearestEven (q / twoTo (ulpExp q))).
  { apply nearestEven_compat. now rewrite Ea. }
  now rewrite En.
Qed.

Lemma round_compat (p q : Q) : p == q -> round p = round q.
Proof.
  intro E. unfold round.
  rewrite (Qeq_bool_comp p q E).
  destruct (Qeq_bool q 0) eqn:E0; [reflexivity|].
  assert (Hq : ~ q == 0).
  { intro H. apply Qeq_bool_iff in H. congruence. }
  assert (Ha : 0 < Qabs p).
  { rewrite E. destruct (Qlt_le_dec q 0) as [N|N].
    - rewrite Qabs_neg by lra. lra.
    - rewrite Qabs_pos by lra.
      apply Qle_lteq in N as [N|N]; [exact N|].
      exfalso. apply Hq. now symmetry. }
  assert (Ea : Qabs p == Qabs q) by now rewrite E.
  assert (Ee : ulpExp (Qabs p) = ulpExp (Qabs q)).
  { unfold ulpExp. f_equal. f_equal. now apply ilog2_compat. }
  rewrite Ee.
  assert (En : nearestEven (Qabs p / twoTo (ulpExp (Qabs q)))
               = nearestEven (Qabs q / twoTo (ulpExp (Qabs q)))).
  { apply nearestEven_compat. now rewrite Ea. }
  rewrite En, (Qle_bool_comp p q 0 0 E (Qeq_refl 0)).
  reflexivity.
Qed.

(** The unit in the last place of a number of the normal range. *)
Lemma ulpExp_normal (q : Q) :
  twoTo (-1022) <= q -> ulpExp q = (ilog2 q - 52)%Z.
Proof.
  intro H. unfold ulpExp.
  assert (Hq : 0 < q) by (assert (P := twoTo_pos (-1022)); lra).
  destruct (ilog2_spec q Hq) as [_ S2].
  assert ((-1022 < ilog2 q + 1)%Z) by (apply twoTo_lt_inv; lra).
  lia.
Qed.

(** In the normal range the rounding is a finite number with a relative
    error of at most [2^-53]. *)
Lemma round_normal (q : Q) :
  twoTo (-1022) <= q -> q <= twoTo 1023 ->
  exists r, round q = JS.Fin r /\ q * (1 - twoTo (-53)) <= r /\ r <= q * (1 + twoTo (-53)).
Proof.
  intros L U. set (u := twoTo (-53)).
  assert (Hq : 0 < q) by (assert (P := twoTo_pos (-1022)); lra).
  rewrite (round_pos q Hq), (ulpExp_normal q L). cbv zeta.
  destruct (ilog2_spec q Hq) as [S1 S2].
  set (k := ilog2 q) in *. set (e := (k - 52)%Z).
  assert (He := twoTo_pos e).
  destruct (nearestEven_close (q / twoTo e)) as [N1 N2].
  set (n := nearestEven (q / twoTo e)) in *.
  assert (Hk : twoTo k == twoTo e * twoTo 52).
  { rewrite <- twoTo_add. unfold e. now replace (k - 52 + 52)%Z with k by ring. }
  assert (Hu : twoTo e * (1 # 2) == twoTo k * u).
  { unfold u. rewrite <- twoTo_add.
    replace (k + -53)%Z with (e - 1)%Z by (unfold e; ring).
    rewrite twoTo_pred. field. }
  assert (Hx : q / twoTo e * twoTo e == q) by (field; lra).
  assert (T1 : (inject_Z n - (1 # 2)) * twoTo e <= q / twoTo e * twoTo e)
    by (apply Qmult_le_compat_r; lra).
  assert (T2 : q / twoTo e * twoTo e <= (inject_Z n + (1 # 2)) * twoTo e)
    by (apply Qmult_le_compat_r; lra).
  assert (R1 : inject_Z n * twoTo e - twoTo e * (1 # 2) <= q) by lra.
  assert (R2 : q <= inject_Z n * twoTo e + twoTo e * (1 # 2)) by lra.
  assert (Hu0 : 0 < u) by apply twoTo_pos.
  assert (Hqu : twoTo k * u <= q * u)
    by (apply Qmult_le_compat_r; lra).
  assert (B1 : q * (1 - u) <= inject_Z n * twoTo e) by lra.
  assert (B2 : inject_Z n * twoTo e <= q * (1 + u)) by lra.
  assert (O : Qle_bool (twoTo 1024) (inject_Z n * twoTo e) = false).
  { destruct (Qle_bool _ _) eqn:C; [|reflexivity].
    apply Qle_bool_iff in C.
    assert (u <= 1) by (unfold u; apply (twoTo_le (-53) 0); lia).
    assert (q * (1 + u) <= twoTo 1023 * (1 + u))
      by (apply Qmult_le_compat_r; lra).
    assert (twoTo 1024 == 2 * twoTo 1023)
      by (rewrite <- twoTo_succ; reflexivity).
    assert (P := twoTo_pos 1023).
    assert (u < 1) by (unfold u; apply (twoTo_lt (-53) 0); lia).
    assert (twoTo 1023 * u < twoTo 1023 * 1) by (apply Qmult_lt_l; lra).
    lra. }
  rewrite O. eexists. split; [reflexivity|].
  rewrite Qred_correct. split; assumption.
Qed.

Lemma Qle_bool_false_lt (x y : Q) : Qle_bool x y = false <-> y < x.
Proof.
  split; intro H.
  - apply Qnot_le_lt. intro C. apply Qle_bool_iff in C. congruence.
  - destruct (Qle_bool x y) eqn:E; [|reflexivity].
    apply Qle_bool_iff in E. lra.
Qed.

(** A number [n * 2^e] with at most 53 significant bits, above the
    exponent of the subnormal numbers and below the overflow threshold, is
    a binary64 number: rounding leaves it as it is. *)
Lemma round_fixed (r : Q) (n e : Z) :
  (0 < n <= 2 ^ 53)%Z -> (-1074 <= e)%Z ->
  r == inject_Z n * twoTo e -> r < twoTo 1024 ->
  round r = JS.Fin (Qred r).
Proof.
  intros [Hn0 Hn] He Er Hov.
  assert (Pe := twoTo_pos e).
  assert (Hn0' : 0 < inject_Z n)
    by (change 0 with (inject_Z 0); now rewrite <- Zlt_Qlt).
  assert (Hr : 0 < r) by (rewrite Er; now apply Qmult_lt_0_compat).
  rewrite (round_pos r Hr). cbv zeta.
  destruct (Z.log2_spec n Hn0) as [K1 K2]. set (k := Z.log2 n) in *.
  assert (Hk0 : (0 <= k)%Z) by apply Z.log2_nonneg.
  assert (Hk : (k <= 53)%Z).
  { unfold k. change 53%Z with (Z.log2 (2 ^ 53)). now apply Z.log2_le_mono. }
  assert (L : ilog2 r = (k + e)%Z).
  { apply ilog2_unique; rewrite Er.
    - rewrite twoTo_add. apply Qmult_le_compat_r; [|lra].
      rewrite twoTo_Z by lia. now rewrite <- Zle_Qle.
    - replace (k + e + 1)%Z with (Z.succ k + e)%Z by lia.
      rewrite twoTo_add. apply Qmult_lt_compat_r; [exact Pe|].
      rewrite twoTo_Z by lia. now rewrite <- Zlt_Qlt. }
  assert (Hint : exists N, r / twoTo (ulpExp r) == inject_Z N).
  { unfold ulpExp. rewrite L.
    destruct (Z.eq_dec k 53) as [E53|N53].
    - exists (2 ^ 52)%Z.
      assert (En : n = (2 ^ 53)%Z) by (rewrite E53 in K1; lia).
      replace (Z.max (k + e - 52) (-1074)) with (e + 1)%Z by lia.
      rewrite Er, En, twoTo_succ.
      change (inject_Z (2 ^ 53)) with (2 * inject_Z (2 ^ 52)).
      field. lra.
    - set (e' := Z.max (k + e - 52) (-1074)).
      assert (Hd : (0 <= e - e')%Z) by lia.
      exists (n * 2 ^ (e - e'))%Z.
      rewrite inject_Z_mult, <- (twoTo_Z (e - e')) by exact Hd.
      assert (Pe' := twoTo_pos e').
      assert (S : twoTo e == twoTo (e - e') * twoTo e').
      { rewrite <- twoTo_add. now replace (e - e' + e')%Z with e by ring. }
      rewrite Er, S. field. lra. }
  destruct Hint as [N HN].
  rewrite (nearestEven_compat _ _ HN), nearestEven_Z.
  assert (Pe' := twoTo_pos (ulpExp r)).
  assert (Eq : inject_Z N * twoTo (ulpExp r) == r).
  { rewrite <- HN. field. lra. }
  assert (O : Qle_bool (twoTo 1024) (inject_Z N * twoTo (ulpExp r)) = false).
  { apply Qle_bool_false_lt. now rewrite Eq. }
  rewrite O. f_equal. now apply Qred_complete.
Qed.

(** What [round] returns is a binary64 number: rounding it again changes
    nothing. *)
Lemma round_idem (q r : Q) : 0 < q -> round q = JS.Fin r -> round r = JS.Fin r.
Proof.
  intros Hq. rewrite (round_pos q Hq). cbv zeta.
  set (e := ulpExp q). set (n := nearestEven (q / twoTo e)).
  destruct (Qle_bool (twoTo 1024) (inject_Z n * twoTo e)) eqn:O;
    [discriminate|].
  remember (Qred (inject_Z n * twoTo e)) as R eqn:ER.
  intro H. injection H as <-. subst R.
  apply Qle_bool_false_lt in O.
  assert (Pe := twoTo_pos e).
  assert (Hx : 0 <= q / twoTo e).
  { apply Qlt_le_weak, Qlt_shift_div_l; lra. }
  assert (Hf : (0 <= Qfloor (q / twoTo e))%Z).
  { rewrite <- (Qfloor_Z 0). now apply Qfloor_resp_le. }
  assert (Hn := nearestEven_floor (q / twoTo e)). fold n in Hn.
  destruct (Z.eq_dec n 0) as [Z0|NZ].
  - assert (E : Qred (inject_Z n * twoTo e) = Qred 0)
      by (apply Qred_complete; rewrite Z0; ring).
    rewrite E. reflexivity.
  - assert (Hup : (Qfloor (q / twoTo e) < 2 ^ 53)%Z).
    { destruct (ilog2_spec q Hq) as [_ S2].
      assert (He : (ilog2 q - 52 <= e)%Z) by (unfold e, ulpExp; lia).
      assert (B : twoTo (ilog2 q + 1) <= twoTo (e + 53))
        by (apply twoTo_le; lia).
      assert (B' : q / twoTo e < twoTo 53).
      { apply Qlt_shift_div_r; [exact Pe|].
        rewrite <- twoTo_add. replace (53 + e)%Z with (e + 53)%Z by ring.
        lra. }
      assert (F := Qfloor_le (q / twoTo e)).
      rewrite Zlt_Qlt. change (inject_Z (2 ^ 53)) with (twoTo 53). lra. }
    rewrite (round_fixed (Qred (inject_Z n * twoTo e)) n e).
    + f_equal. apply Qred_complete, Qred_correct.
    + lia.
    + unfold e, ulpExp. lia.
    + apply Qred_correct.
    + now rewrite Qred_correct.
Qed.

End Binary64Facts.

(** ** The error of a chain of roundings *)

Module Binary64Error.
Import Binary64 Binary64Facts.

Lemma slack_pos : 0 < slack.
Proof. reflexivity. Qed.

Lemma slack_inv : (1 - twoTo (-53)) * slack == 1.
Proof. reflexivity. Qed.

Lemma slack_up : 1 + twoTo (-53) <= slack.
Proof. discriminate. Qed.

Lemma tol_pos (n : nat) : 0 < tol n.
Proof. apply Qpower_0_lt. reflexivity. Qed.

Lemma tol_ge1 (n : nat) : 1 <= tol n.
Proof. apply Qpower_1_le; [discriminate | lia]. Qed.

Lemma tol_add (n m : nat) : tol (n + m) == tol n * tol m.
Proof.
  unfold tol. rewrite Nat2Z.inj_add. apply Qpower_plus. discriminate.
Qed.

Lemma tol_S (n : nat) : tol (S n) == tol n * slack.
Proof.
  replace (S n) with (n + 1)%nat by lia. rewrite tol_add. reflexivity.
Qed.

Lemma tol_le (n m : nat) : (n <= m)%nat -> tol n <= tol m.
Proof.
  intro H. apply Qpower_le_compat_l; [lia | discriminate].
Qed.

Lemma tol_64 : tol 64 <= 2.
Proof. vm_compute. discriminate. Qed.

Lemma upTo_refl (x : Q) : 0 < x -> upTo 0 x x.
Proof.
  intro H. unfold upTo. change (tol 0) with 1. split; lra.
Qed.

Lemma upTo_weaken (n m : nat) (x X : Q) :
  0 < x -> 0 < X -> (n <= m)%nat -> upTo n x X -> upTo m x X.
Proof.
  intros Hx HX Hnm [H1 H2]. assert (T := tol_le n m Hnm).
  assert (Tn := tol_pos n).
  split.
  - assert (x * tol n <= x * tol m) by (apply Qmult_le_l; assumption). lra.
  - assert (X * tol n <= X * tol m) by (apply Qmult_le_l; assumption). lra.
Qed.

Lemma upTo_pos (n : nat) (x X : Q) : 0 < X -> upTo n x X -> 0 < x.
Proof.
  intros HX [H1 _]. assert (T := tol_pos n).
  apply Qnot_le_lt. intro C.
  assert (x * tol n <= 0).
  { setoid_replace 0 with (0 * tol n) by ring.
    apply Qmult_le_compat_r; lra. }
  lra.
Qed.

Lemma upTo_mul (n m : nat) (x X y Y : Q) :
  0 < X -> 0 < Y -> upTo n x X -> upTo m y Y ->
  upTo (n + m) (x * y) (X * Y).
Proof.
  intros HX HY Hx Hy.
  assert (Px := upTo_pos n x X HX Hx). assert (Py := upTo_pos m y Y HY Hy).
  destruct Hx as [A1 A2], Hy as [B1 B2].
  assert (Tn := tol_pos n). assert (Tm := tol_pos m).
  unfold upTo. rewrite tol_add. split.
  - setoid_replace (x * y * (tol n * tol m)) with (x * tol n * (y * tol m))
      by ring.
    apply Qmult_le_compat_nonneg; split; lra.
  - setoid_replace (X * Y * (tol n * tol m)) with (X * tol n * (Y * tol m))
      by ring.
    apply Qmult_le_compat_nonneg; split; lra.
Qed.

Lemma upTo_div (n m : nat) (x X y Y : Q) :
  0 < X -> 0 < Y -> upTo n x X -> upTo m y Y ->
  upTo (n + m) (x / y) (X / Y).
Proof.
  intros HX HY Hx Hy.
  assert (Px := upTo_pos n x X HX Hx). assert (Py := upTo_pos m y Y HY Hy).
  destruct Hx as [A1 A2], Hy as [B1 B2].
  assert (Tn := tol_pos n). assert (Tm := tol_pos m).
  unfold upTo. rewrite tol_add. split.
  - apply Qle_shift_div_r; [exact HY|].
    setoid_replace (x / y * (tol n * tol m) * Y)
      with (x * tol n * (Y * tol m) / y) by (field; lra).
    apply Qle_shift_div_l; [exact Py|].
    apply Qmult_le_compat_nonneg; split; lra.
  - apply Qle_shift_div_r; [exact Py|].
    setoid_replace (X / Y * (tol n * tol m) * y)
      with (X * tol n * (y * tol m) / Y) by (field; lra).
    apply Qle_shift_div_l; [exact HY|].
    apply Qmult_le_compat_nonneg; split; lra.
Qed.

Lemma upTo_sym (n : nat) (x X : Q) : upTo n x X -> upTo n X x.
Proof. intros [H1 H2]. split; assumption. Qed.

Lemma upTo_trans (n m : nat) (x y z : Q) :
  0 < y -> 0 < z -> upTo n x y -> upTo m y z -> upTo (n + m) x z.
Proof.
  intros Hy Hz Hx Hyz.
  assert (Px := upTo_pos n x y Hy Hx).
  destruct Hx as [A1 A2], Hyz as [B1 B2].
  assert (Tn := tol_pos n). assert (Tm := tol_pos m).
  unfold upTo. rewrite tol_add. split.
  - assert (y * tol m <= x * tol n * tol m)
      by (apply Qmult_le_compat_r; lra).
    setoid_replace (x * (tol n * tol m)) with (x * tol n * tol m) by ring.
    lra.
  - assert (y * tol n <= z * tol m * tol n)
      by (apply Qmult_le_compat_r; lra).
    setoid_replace (z * (tol n * tol m)) with (z * tol m * tol n) by ring.
    lra.
Qed.

Lemma upTo_compat (n : nat) (x X X' : Q) : X == X' -> upTo n x X -> upTo n x X'.
Proof. intros E [H1 H2]. split; rewrite <- E; assumption. Qed.

Lemma inRange_pos (b : Z) (X : Q) : inRange b X -> 0 < X.
Proof. intros [H _]. assert (P := twoTo_pos (- b)). lra. Qed.

Lemma inRange_weaken (b c : Z) (X : Q) :
  (b <= c)%Z -> inRange b X -> inRange c X.
Proof.
  intros H [L U]. split.
  - assert (twoTo (- c) <= twoTo (- b)) by (apply twoTo_le; lia). lra.
  - assert (twoTo b <= twoTo c) by (apply twoTo_le; lia). lra.
Qed.

Lemma inRange_mul (b c : Z) (X Y : Q) :
  inRange b X -> inRange c Y -> inRange (b + c) (X * Y).
Proof.
  intros [L1 U1] [L2 U2].
  assert (P1 := twoTo_pos (- b)). assert (P2 := twoTo_pos (- c)).
  split.
  - replace (- (b + c))%Z with (- b + - c)%Z by ring. rewrite twoTo_add.
    apply Qmult_le_compat_nonneg; split; lra.
  - rewrite twoTo_add. apply Qmult_le_compat_nonneg; split; lra.
Qed.

Lemma twoTo_opp (b : Z) : twoTo (- b) == / twoTo b.
Proof. apply Qpower_opp. Qed.

Lemma inRange_inv (b : Z) (X : Q) : inRange b X -> inRange b (/ X).
Proof.
  intros [L U]. assert (P1 := twoTo_pos (- b)). assert (P2 := twoTo_pos b).
  assert (HX : 0 < X) by lra.
  split.
  - rewrite twoTo_opp. apply Qle_shift_inv_l; [exact HX|].
    setoid_replace (/ twoTo b * X) with (X / twoTo b) by (field; lra).
    apply Qle_shift_div_r; lra.
  - apply Qle_shift_inv_r; [exact HX|].
    assert (E : 1 == twoTo b * twoTo (- b)).
    { rewrite <- twoTo_add. now replace (b + - b)%Z with 0%Z by ring. }
    assert (twoTo b * twoTo (- b) <= twoTo b * X)
      by (apply Qmult_le_l; lra).
    lra.
Qed.

Lemma inRange_div (b c : Z) (X Y : Q) :
  inRange b X -> inRange c Y -> inRange (b + c) (X / Y).
Proof.
  intros HX HY. unfold Qdiv. apply inRange_mul; [exact HX|].
  now apply inRange_inv.
Qed.

(** A result that needs rounding: when the exact result is [X] up to [n]
    roundings, the rounded one is [X] up to [n + 1]. *)
Lemma round_tracked (n : nat) (b : Z) (p X : Q) :
  (n < 64)%nat -> (0 <= b <= 1021)%Z ->
  inRange b X -> upTo n p X -> tracked (S n) b (round p) X.
Proof.
  intros Hn Hb HR HU.
  assert (HX := inRange_pos b X HR).
  assert (Hp := upTo_pos n p X HX HU).
  assert (T1 := tol_ge1 n).
  assert (T2 : tol n <= 2).
  { apply (Qle_trans _ (tol 64)); [apply tol_le; lia | apply tol_64]. }
  destruct HR as [L U]. destruct HU as [A1 A2].
  assert (Lp : twoTo (-1022) <= p).
  { assert (twoTo (-1022) * 2 <= twoTo (- b)).
    { setoid_replace (twoTo (-1022) * 2) with (twoTo (-1021))
        by (rewrite <- (twoTo_succ (-1022)); reflexivity).
      apply twoTo_le. lia. }
    assert (p * tol n <= p * 2) by (apply Qmult_le_l; assumption).
    lra. }
  assert (Up : p <= twoTo 1023).
  { assert (twoTo b * 2 <= twoTo 1023).
    { setoid_replace (twoTo b * 2) with (twoTo (b + 1))
        by (rewrite twoTo_succ; ring).
      apply twoTo_le. lia. }
    assert (X * tol n <= twoTo b * 2)
      by (apply Qmult_le_compat_nonneg; split; lra).
    lra. }
  destruct (round_normal p Lp Up) as (r & E & R1 & R2).
  exists r. split; [exact E|]. split; [split; assumption|].
  unfold upTo. rewrite tol_S.
  assert (Tn := tol_pos n). assert (S0 := slack_pos).
  assert (S1 := slack_inv). assert (S2 := slack_up).
  split.
  - assert (p * tol n <= r * slack * tol n).
    { apply Qmult_le_compat_r; [|lra].
      assert (p * (1 - twoTo (-53)) * slack <= r * slack)
        by (apply Qmult_le_compat_r; lra).
      setoid_replace p with (p * ((1 - twoTo (-53)) * slack))
        by (rewrite S1; ring).
      lra. }
    setoid_replace (r * (tol n * slack)) with (r * slack * tol n) by ring.
    lra.
  - assert (p * (1 + twoTo (-53)) <= p * slack)
      by (apply Qmult_le_l; assumption).
    assert (p * slack <= X * tol n * slack)
      by (apply Qmult_le_compat_r; lra).
    setoid_replace (X * (tol n * slack)) with (X * tol n * slack) by ring.
    lra.
Qed.

Lemma tracked_exact (b : Z) (x : Q) : inRange b x -> tracked 0 b (JS.Fin x) x.
Proof.
  intro H. exists x. split; [reflexivity|]. split; [exact H|].
  apply upTo_refl. now apply (inRange_pos b).
Qed.

Lemma tracked_round (b : Z) (X : Q) :
  (0 <= b <= 1021)%Z -> inRange b X -> tracked 1 b (round X) X.
Proof.
  intros Hb H. apply round_tracked; [lia | exact Hb | exact H|].
  apply upTo_refl. now apply (inRange_pos b).
Qed.

Lemma tracked_weaken (n m : nat) (b c : Z) (a : JS.number) (X : Q) :
  (n <= m)%nat -> (b <= c)%Z -> tracked n b a X -> tracked m c a X.
Proof.
  intros Hn Hb (x & E & R & U). exists x. split; [exact E|].
  assert (HX := inRange_pos b X R).
  split; [now apply (inRange_weaken b)|].
  apply (upTo_weaken n); auto. now apply (upTo_pos n x X).
Qed.

Lemma tracked_compat (n : nat) (b : Z) (a : JS.number) (X X' : Q) :
  X == X' -> tracked n b a X -> tracked n b a X'.
Proof.
  intros E (x & Ea & [L U] & H). exists x. split; [exact Ea|].
  split; [split; rewrite <- E; assumption|].
  now apply (upTo_compat n x X).
Qed.

Lemma tracked_pos (n : nat) (b : Z) (a : JS.number) (X : Q) :
  tracked n b a X -> exists x, a = JS.Fin x /\ 0 < x /\ 0 < X /\ upTo n x X.
Proof.
  intros (x & E & R & U). exists x.
  assert (HX := inRange_pos b X R).
  repeat split; try assumption; try apply U. now apply (upTo_pos n x X).
Qed.

Lemma mul_tracked (n m : nat) (b c : Z) (a a' : JS.number) (X Y : Q) :
  (n + m < 64)%nat -> (0 <= b)%Z -> (0 <= c)%Z -> (b + c <= 1021)%Z ->
  tracked n b a X -> tracked m c a' Y ->
  tracked (S (n + m)) (b + c) (mul a a') (X * Y).
Proof.
  intros Hn Hb Hc Hbc (x & -> & RX & UX) (y & -> & RY & UY).
  unfold mul. cbn [JS.mul rnd].
  apply round_tracked; [exact Hn | lia | now apply inRange_mul|].
  apply upTo_mul; auto; now eapply inRange_pos; eauto.
Qed.

Lemma div_tracked (n m : nat) (b c : Z) (a a' : JS.number) (X Y : Q) :
  (n + m < 64)%nat -> (0 <= b)%Z -> (0 <= c)%Z -> (b + c <= 1021)%Z ->
  tracked n b a X -> tracked m c a' Y ->
  tracked (S (n + m)) (b + c) (div a a') (X / Y).
Proof.
  intros Hn Hb Hc Hbc (x & -> & RX & UX) (y & -> & RY & UY).
  assert (HY := inRange_pos c Y RY).
  assert (Py := upTo_pos m y Y HY UY).
  assert (Ez : Qeq_bool y 0 = false).
  { destruct (Qeq_bool y 0) eqn:E; [|reflexivity].
    apply Qeq_bool_iff in E. lra. }
  unfold div. cbn [JS.div]. rewrite Ez. cbn [rnd].
  apply round_tracked; [exact Hn | lia | now apply inRange_div|].
  apply upTo_div; auto. now apply (inRange_pos b).
Qed.

(** The height that [getVolume] computes with. *)
Lemma height_tracked (h : Q) :
  h == 0 \/ inRange 100 h ->
  tracked 1 100 (JS.or_else (round h) (JS.Fin 1)) (heightOr1 h).
Proof.
  unfold heightOr1. intros [Hz|Hr].
  - assert (E : round h = JS.Fin 0).
    { unfold round. apply Qeq_bool_iff in Hz. now rewrite Hz. }
    apply Qeq_bool_iff in Hz. rewrite E, Hz. cbn.
    apply (tracked_weaken 0 1 0 100); [lia | lia|].
    apply tracked_exact. split; discriminate.
  - assert (Hh := inRange_pos 100 h Hr).
    assert (Ez : Qeq_bool h 0 = false).
    { destruct (Qeq_bool h 0) eqn:E; [|reflexivity].
      apply Qeq_bool_iff in E. lra. }
    rewrite Ez.
    assert (T := tracked_round 100 h ltac:(lia) Hr).
    destruct (tracked_pos _ _ _ _ T) as (x & Ex & Px & _).
    rewrite Ex in *. unfold JS.or_else. cbn [JS.truthy].
    assert (Ezx : Qeq_bool x 0 = false).
    { destruct (Qeq_bool x 0) eqn:E; [|reflexivity].
      apply Qeq_bool_iff in E. lra. }
    rewrite Ezx. exact T.
Qed.

Lemma getVolume_tracked (ty : MoldType) (d h l w : Q) :
  dimensionsInRange ty d h l w ->
  tracked 8 304 (getVolume (moldOf ty d h l w)) (volumeOf ty d h l w).
Proof.
  intros [Hh Hd]. unfold getVolume, moldOf, volumeOf.
  cbn [Mold.type Mold.diameter Mold.height Mold.length Mold.width].
  assert (TH := height_tracked h Hh).
  destruct ty.
  - assert (TD := tracked_round 100 d ltac:(lia) Hd).
    assert (T2 : tracked 0 1 (JS.Fin 2) 2)
      by (apply tracked_exact; split; discriminate).
    assert (TP : tracked 0 2 (JS.Fin JS.Math_PI) JS.Math_PI)
      by (apply tracked_exact; split; discriminate).
    assert (Q1 := div_tracked 1 0 100 1 _ _ _ _ ltac:(lia) ltac:(lia)
                    ltac:(lia) ltac:(lia) TD T2).
    assert (Q2 := mul_tracked 2 2 101 101 _ _ _ _ ltac:(lia) ltac:(lia)
                    ltac:(lia) ltac:(lia) Q1 Q1).
    assert (Q3 := mul_tracked 0 5 2 202 _ _ _ _ ltac:(lia) ltac:(lia)
                    ltac:(lia) ltac:(lia) TP Q2).
    assert (Q4 := mul_tracked 6 1 204 100 _ _ _ _ ltac:(lia) ltac:(lia)
                    ltac:(lia) ltac:(lia) Q3 TH).
    apply (tracked_compat _ _ _
             (JS.Math_PI * (d / 2 * (d / 2)) * heightOr1 h));
      [unfold Qpower; simpl; ring|].
    unfold pow2. exact Q4.
  - destruct Hd as [Hl Hw].
    assert (TL := tracked_round 100 l ltac:(lia) Hl).
    assert (TW := tracked_round 100 w ltac:(lia) Hw).
    assert (Q1 := mul_tracked 1 1 100 100 _ _ _ _ ltac:(lia) ltac:(lia)
                    ltac:(lia) ltac:(lia) TL TW).
    assert (Q2 := mul_tracked 3 1 200 100 _ _ _ _ ltac:(lia) ltac:(lia)
                    ltac:(lia) ltac:(lia) Q1 TH).
    apply (tracked_weaken 5 8 300 304); [lia | lia | exact Q2].
Qed.

Lemma calculatedMoldFactor_tracked (ty1 ty2 : MoldType)
    (d1 h1 l1 w1 d2 h2 l2 w2 : Q) :
  dimensionsInRange ty1 d1 h1 l1 w1 -> dimensionsInRange ty2 d2 h2 l2 w2 ->
  tracked 17 608
    (calculatedMoldFactor (moldOf ty1 d1 h1 l1 w1) (moldOf ty2 d2 h2 l2 w2))
    (volumeOf ty2 d2 h2 l2 w2 / volumeOf ty1 d1 h1 l1 w1).
Proof.
  intros H1 H2. unfold calculatedMoldFactor.
  assert (T1 := getVolume_tracked ty1 d1 h1 l1 w1 H1).
  assert (T2 := getVolume_tracked ty2 d2 h2 l2 w2 H2).
  assert (T := div_tracked 8 8 304 304 _ _ _ _ ltac:(lia) ltac:(lia)
                 ltac:(lia) ltac:(lia) T2 T1).
  destruct (tracked_pos _ _ _ _ T1) as (v1 & E1 & P1 & _).
  destruct (tracked_pos _ _ _ _ T2) as (v2 & E2 & P2 & _).
  rewrite E1, E2 in *. cbn [JS.le].
  assert (L1 : Qle_bool v1 0 = false) by (apply Qle_bool_false_lt; exact P1).
  assert (L2 : Qle_bool v2 0 = false) by (apply Qle_bool_false_lt; exact P2).
  rewrite L1, L2. exact T.
Qed.

Lemma tol_34 : tol 34 <= 1 + twoTo (-47).
Proof. vm_compute. discriminate. Qed.

Lemma tol_17 : tol 17 <= 1 + twoTo (-48).
Proof. vm_compute. discriminate. Qed.

Lemma upTo_closeTo (n : nat) (eps : Q) (x y : Q) :
  0 < x -> 0 < y -> tol n <= 1 + eps -> upTo n x y ->
  closeTo eps (JS.Fin x) (JS.Fin y).
Proof.
  intros Hx Hy T [H1 H2]. exists x, y.
  repeat split; try assumption.
  - assert (y * tol n <= y * (1 + eps)) by (apply Qmult_le_l; assumption).
    lra.
  - assert (x * tol n <= x * (1 + eps)) by (apply Qmult_le_l; assumption).
    lra.
Qed.

End Binary64Error.

(** ** [round] against the arithmetic of the machine *)

Module Binary64Check.
Import Floats.PrimFloat Binary64Hardware.

(** [round] and the operations against the binary64 arithmetic of the
    machine. *)
Example round_decimal :
  Binary64.round 0.7 = ofFloat (7 / 10)
  /\ Binary64.round 12.34 = ofFloat (1234 / 100)
  /\ Binary64.round (1 # 3) = ofFloat (1 / 3)
  /\ Binary64.round (- (2 # 3)) = ofFloat (- (2 / 3))
  /\ Binary64.round 9007199254740993 = ofFloat (9007199254740992 + 1)
  /\ Binary64.round 9007199254740995 = ofFloat (9007199254740994 + 1).
Proof. repeat split; vm_compute; reflexivity. Qed.

Example product_and_quotient :
  Binary64.mul (ofFloat (7 / 10)) (ofFloat (3 / 2))
  = ofFloat (7 / 10 * (3 / 2))
  /\ Binary64.mul (Binary64.div (JS.Fin 29) (JS.Fin 400)) (JS.Fin 100)
     = ofFloat (29 / 400 * 100)
  /\ Binary64.div (JS.Fin 70) (JS.Fin 3) = ofFloat (70 / 3)
  /\ Binary64.mul (JS.Fin 10) (Binary64.div (JS.Fin 7) (JS.Fin 3))
     = ofFloat (10 * (7 / 3)).
Proof. repeat split; vm_compute; reflexivity. Qed.

Example sum_in_order :
  Binary64.add (Binary64.add (ofFloat (1 / 10)) (ofFloat (2 / 10)))
    (ofFloat (3 / 10))
  = ofFloat (1 / 10 + 2 / 10 + 3 / 10)
  /\ Binary64.add (Binary64.add (ofFloat (3 / 10)) (ofFloat (2 / 10)))
       (ofFloat (1 / 10))
     = ofFloat (3 / 10 + 2 / 10 + 1 / 10).
Proof. repeat split; vm_compute; reflexivity. Qed.

Example volume_of_a_round_mold :
  JS.Fin JS.Math_PI = ofFloat (884279719003555 / 281474976710656)
  /\ Binary64.getVolume (Binary64.moldOf circular 15 7.5 0 0)
     = ofFloat (884279719003555 / 281474976710656
                * (15 / 2 * (15 / 2)) * (75 / 10)).
Proof. repeat split; vm_compute; reflexivity. Qed.

Example overflow_and_underflow :
  Binary64.mul (Binary64.round (Qpower 10 200)) (Binary64.round (Qpower 10 200))
  = JS.PInf
  /\ ofFloat (Floats.FloatOps.Z.ldexp 1 700 * Floats.FloatOps.Z.ldexp 1 700) = JS.PInf
  /\ Binary64.round (Qpower 10 400) = JS.PInf
  /\ Binary64.round (Qpower 10 (-400)) = JS.Fin 0
  /\ Binary64.mul (Binary64.round (Binary64.twoTo (-600)))
       (Binary64.round (Binary64.twoTo (-600))) = JS.Fin 0
  /\ ofFloat (Floats.FloatOps.Z.ldexp 1 (-600) * Floats.FloatOps.Z.ldexp 1 (-600)) = JS.Fin 0
  /\ Binary64.div (Binary64.round (Binary64.twoTo (-1060))) (JS.Fin 3)
     = ofFloat (Floats.FloatOps.Z.ldexp 1 (-1060) / 3).
Proof. repeat split; vm_compute; reflexivity. Qed.

End Binary64Check.

(** ** The rows of a section *)

Section Rows.
Import JS JSFacts StringFacts.

Variable NumberToString : Q -> string.

(** Below [10^21], [toFixed(1)] writes the number with one decimal. *)
Lemma toFixed_oneDecimal (q : Q) :
  magnitude q < pow10 21 ->
  toFixed NumberToString 1 (Fin q) = oneDecimal q.
Proof.
  intro H. unfold toFixed, oneDecimal.
  fold (signText q). fold (magnitude q).
  assert (E : Qle_bool (pow10 21) (magnitude q) = false)
    by now apply Qle_bool_false.
  rewrite E. f_equal. apply fixedNotation_tenths.
  unfold magnitude. destruct (Qlt_bool q 0) eqn:Hs; qbool; lra.
Qed.

(** Without its final [.0], a number with one decimal is the text of an
    integer; with another tenths digit it stays as it is. *)
Lemma stripDotZero_oneDecimal (q : Q) :
  stripDotZero (oneDecimal q)
  = if (roundTenths (magnitude q) mod 10 =? 0)%Z
    then integerText q else oneDecimal q.
Proof.
  unfold oneDecimal, integerText.
  set (n := roundTenths (magnitude q)).
  rewrite <- app_assoc, stripDotZero_tenths, digitChar_zero.
  - destruct (n mod 10 =? 0)%Z; [reflexivity | now rewrite app_assoc].
  - apply Z.mod_pos_bound. lia.
Qed.

Lemma not_numeric_invalid (x : Ingredient.t) :
  isNumeric (Ingredient.amount x) = false -> hasValidAmt x = false.
Proof.
  unfold isNumeric, hasValidAmt, numericAmt.
  destruct (Ingredient.amount x) as [n|s]; intro H; qbool.
  - destruct n; try discriminate. reflexivity.
  - rewrite H. reflexivity.
Qed.

Lemma shouldHideUnit_iff (x : Ingredient.t) :
  shouldHideUnit x = true
  <-> Ingredient.amount x = AmtStr "適量"
      \/ Ingredient.amount x = AmtStr "少許".
Proof.
  unfold shouldHideUnit.
  destruct (Ingredient.amount x) as [n|s].
  - split; [discriminate | intros [H|H]; discriminate].
  - rewrite orb_true_iff, !String.eqb_eq.
    split; (intros [H|H]; [left|right]; congruence).
Qed.

End Rows.

Section Rows64.
Import JS JSFacts StringFacts Binary64 Binary64Facts Binary64Error.

Variable NumberToString : Q -> string.

Lemma rnd_isNaN (a : number) : isNaN (rnd a) = isNaN a.
Proof.
  destruct a as [q| | |]; try reflexivity.
  cbn [rnd isNaN]. unfold round.
  destruct (Qeq_bool q 0); [reflexivity|].
  destruct (Qle_bool _ _); [destruct (Qle_bool q 0)|]; reflexivity.
Qed.

Lemma not_numeric_invalid64 (x : Ingredient.t) :
  isNumeric (Ingredient.amount x) = false -> Binary64.hasValidAmt x = false.
Proof.
  unfold isNumeric, Binary64.hasValidAmt, Binary64.numericAmt.
  destruct (Ingredient.amount x) as [n|s]; intro H;
    apply negb_false_iff in H.
  - destruct n; try discriminate. reflexivity.
  - unfold Binary64.parseFloat. rewrite rnd_isNaN, H. reflexivity.
Qed.

Lemma magnitude_compat (p q : Q) : p == q -> magnitude p == magnitude q.
Proof.
  intro E. unfold magnitude, Qlt_bool.
  rewrite (Qle_bool_comp 0 0 p q (Qeq_refl 0) E).
  destruct (negb (Qle_bool 0 q)); now rewrite E.
Qed.

Lemma oneDecimal_compat (p q : Q) : p == q -> oneDecimal p = oneDecimal q.
Proof.
  intro E. unfold oneDecimal, signText, roundTenths, Qlt_bool.
  rewrite (Qle_bool_comp 0 0 p q (Qeq_refl 0) E).
  assert (F : magnitude p * (10 # 1) + (1 # 2)
              == magnitude q * (10 # 1) + (1 # 2))
    by now rewrite (magnitude_compat p q E).
  now rewrite (Qfloor_comp _ _ F).
Qed.

(** The text of a positive amount at factor 1, where the amount is a
    binary64 number: the amount itself with one decimal, [.0] removed. *)
Lemma scaledAmount_factor_one64 (x : Ingredient.t) (a : Q) :
  Binary64.numericAmt x = Fin a -> 0 < a -> same (round a) (Fin a) ->
  a < pow10 21 ->
  Binary64.scaledAmount NumberToString (Fin 1) x
  = AmtStr (stripDotZero (oneDecimal a)).
Proof.
  intros Ha Hpos Hrep Hbound.
  unfold Binary64.scaledAmount, Binary64.hasValidAmt. rewrite Ha.
  change (gt (Fin a) (Fin 0)) with (Qlt_bool 0 a).
  assert (E : Qlt_bool 0 a = true) by now apply Qlt_bool_true.
  rewrite E. unfold Binary64.mul. cbn [JS.mul rnd].
  rewrite (round_compat (a * 1) a) by ring.
  destruct (round a) as [r| | |] eqn:Er; try contradiction.
  cbn [same] in Hrep.
  assert (Hm : magnitude r < pow10 21).
  { rewrite (magnitude_compat r a Hrep). unfold magnitude.
    assert (Es : Qlt_bool a 0 = false) by (apply Qlt_bool_false; lra).
    now rewrite Es. }
  rewrite (toFixed_oneDecimal NumberToString r Hm).
  now rewrite (oneDecimal_compat r a Hrep).
Qed.

(** What [parseFloat] reads is a binary64 number. *)
Lemma numericAmt_string_representable (x : Ingredient.t) (s : string) (a : Q) :
  Ingredient.amount x = AmtStr s -> Binary64.numericAmt x = Fin a -> 0 < a ->
  round a = Fin a.
Proof.
  unfold Binary64.numericAmt. intros -> H Hpos.
  unfold Binary64.parseFloat in H.
  destruct (JSString.parseFloat s) as [q| | |] eqn:Ep; cbn [rnd isNaN] in H;
    try discriminate; [|injection H as <-; lra].
  destruct (isNaN (round q)) eqn:En.
  - injection H as <-. lra.
  - assert (Hq : 0 < q).
    { apply Qnot_le_lt. intro C.
      unfold round in H.
      destruct (Qeq_bool q 0) eqn:Ez.
      - injection H as <-. lra.
      - assert (L : Qle_bool q 0 = true) by now apply Qle_bool_iff.
        rewrite L in H.
        destruct (Qle_bool (twoTo 1024) _); [discriminate|].
        remember (inject_Z (nearestEven (Qabs q / twoTo (ulpExp (Qabs q))))
                  * twoTo (ulpExp (Qabs q))) as R eqn:ER.
        assert (HR : 0 <= R).
        { rewrite ER. apply Qmult_le_0_compat;
            [|apply Qlt_le_weak, twoTo_pos].
          change 0 with (inject_Z 0). rewrite <- Zle_Qle.
          assert (F := nearestEven_floor
                         (Qabs q / twoTo (ulpExp (Qabs q)))).
          assert (0 <= Qfloor (Qabs q / twoTo (ulpExp (Qabs q))))%Z.
          { rewrite <- (Qfloor_Z 0). apply Qfloor_resp_le.
            apply Qle_shift_div_l; [apply twoTo_pos|].
            rewrite Qmult_0_l. apply Qabs_nonneg. }
          lia. }
        remember (Qred (- R)) as R' eqn:ER'.
        injection H as <-. subst R'.
        assert (Hneg := Qred_correct (- R)). lra. }
    exact (round_idem q a Hq H).
Qed.

End Rows64.

Section RowClaims.
Import JS JSFacts StringFacts.

Variable NumberToString : Q -> string.

(** C3 (as amended).  An amount whose numeric value is above zero (a number,
    or a string that parseFloat reads) is multiplied by the factor in
    binary64 and the product is written with one decimal, a final ".0"
    removed so that it reads as an integer; every other amount passes
    through unchanged: a non-numeric sentinel such as "適量", and also zero
    and negative amounts.  The unit is hidden exactly for the strings
    "適量" and "少許". *)
Theorem scaledAmount_spec (x : Ingredient.t) (factor : JS.number) :
  (Binary64.hasValidAmt x = true ->
   Binary64.scaledAmount NumberToString factor x
   = AmtStr (stripDotZero
               (toFixed NumberToString 1
                  (Binary64.mul (Binary64.numericAmt x) factor))))
  /\ (forall a f : Q,
         Binary64.numericAmt x = JS.Fin a -> factor = JS.Fin f ->
         Binary64.mul (Binary64.numericAmt x) factor
         = Binary64.round (a * f))
  /\ (forall a f : Q,
         Binary64.twoTo (-1022) <= a * f -> a * f <= Binary64.twoTo 1023 ->
         exists p, Binary64.round (a * f) = JS.Fin p
                   /\ a * f * (1 - Binary64.twoTo (-53)) <= p
                   /\ p <= a * f * (1 + Binary64.twoTo (-53)))
  /\ (forall p : Q,
         Binary64.hasValidAmt x = true ->
         Binary64.mul (Binary64.numericAmt x) factor = JS.Fin p ->
         magnitude p < pow10 21 ->
         let n := roundTenths (magnitude p) in
         Binary64.scaledAmount NumberToString factor x
         = AmtStr (if (n mod 10 =? 0)%Z then integerText p
                   else oneDecimal p)
         /\ inject_Z n - (1 # 2) <= magnitude p * (10 # 1)
         /\ magnitude p * (10 # 1) < inject_Z n + (1 # 2))
  /\ (Binary64.hasValidAmt x = false ->
      Binary64.scaledAmount NumberToString factor x = Ingredient.amount x)
  /\ (isNumeric (Ingredient.amount x) = false ->
      Binary64.scaledAmount NumberToString factor x = Ingredient.amount x)
  /\ (unitCell x = None
      <-> Ingredient.amount x = AmtStr "適量"
          \/ Ingredient.amount x = AmtStr "少許")
  /\ (unitCell x <> None -> unitCell x = Some (Ingredient.unit x)).
Proof.
  unfold Binary64.scaledAmount, unitCell.
  split; [|split; [|split; [|split; [|split; [|split; [|split; [split|]]]]]]].
  - intros ->. reflexivity.
  - intros a f -> ->. reflexivity.
  - intros a f L U. apply Binary64Facts.round_normal; assumption.
  - intros p Hv Hp Hbound. split; [|apply roundTenths_close].
    rewrite Hv, Hp, toFixed_oneDecimal by assumption.
    now rewrite stripDotZero_oneDecimal.
  - intros ->. reflexivity.
  - intro H. now rewrite (not_numeric_invalid64 x H).
  - intro H. apply shouldHideUnit_iff.
    destruct (shouldHideUnit x); [reflexivity | discriminate].
  - intro H. apply shouldHideUnit_iff in H. now rewrite H.
  - destruct (shouldHideUnit x); [congruence | reflexivity].
Qed.

(** C7 (as amended).  Where percentages are displayed, the percentage of an
    ingredient is amount / base * 100, computed in binary64, written with
    one decimal and followed by "%".  It is shown exactly when the base is
    above zero and the numeric value of the amount is above zero: it is
    skipped for a non-numeric amount, and also for a zero or a negative
    one. *)
Theorem percentCell_spec (base : LocalBase.t) (x : Ingredient.t) :
  (JS.gt (LocalBase.weight base) (JS.Fin 0) = true ->
   JS.gt (Binary64.numericAmt x) (JS.Fin 0) = true ->
   Binary64.percentCell NumberToString true true base x
   = PercentText
       (toFixed NumberToString 1
          (Binary64.mul
             (Binary64.div (Binary64.numericAmt x) (LocalBase.weight base))
             (JS.Fin 100)) ++ "%"))
  /\ ((exists s,
          Binary64.percentCell NumberToString true true base x = PercentText s)
      <-> JS.gt (LocalBase.weight base) (JS.Fin 0) = true
          /\ JS.gt (Binary64.numericAmt x) (JS.Fin 0) = true)
  /\ (isNumeric (Ingredient.amount x) = false ->
      forall s,
        Binary64.percentCell NumberToString true true base x <> PercentText s)
  /\ (forall p : Q,
         JS.gt (LocalBase.weight base) (JS.Fin 0) = true ->
         JS.gt (Binary64.numericAmt x) (JS.Fin 0) = true ->
         Binary64.mul
           (Binary64.div (Binary64.numericAmt x) (LocalBase.weight base))
           (JS.Fin 100) = JS.Fin p ->
         magnitude p < pow10 21 ->
         let n := roundTenths (magnitude p) in
         Binary64.percentCell NumberToString true true base x
         = PercentText (oneDecimal p ++ "%")
         /\ inject_Z n - (1 # 2) <= magnitude p * (10 # 1)
         /\ magnitude p * (10 # 1) < inject_Z n + (1 # 2))
  /\ (forall a b : Q,
         Binary64.numericAmt x = JS.Fin a ->
         LocalBase.weight base = JS.Fin b ->
         Binary64.inRange 100 a -> Binary64.inRange 100 b ->
         Binary64.closeTo (Binary64.twoTo (-51))
           (Binary64.mul
              (Binary64.div (Binary64.numericAmt x) (LocalBase.weight base))
              (JS.Fin 100))
           (JS.Fin (a / b * (100 # 1))))
  /\ (forall isBaking showPercentage,
         isBaking && showPercentage = false ->
         Binary64.percentCell NumberToString isBaking showPercentage base x
         = PercentAbsent).
Proof.
  unfold Binary64.percentCell, Binary64.hasValidAmt.
  split; [|split; [split|split; [|split; [|split]]]].
  - intros -> ->. reflexivity.
  - intros [s H].
    destruct (gt (LocalBase.weight base) (Fin 0)); [|discriminate].
    destruct (gt (Binary64.numericAmt x) (Fin 0)); [auto | discriminate].
  - intros [-> ->]. eexists. reflexivity.
  - intros H s. apply not_numeric_invalid64 in H.
    unfold Binary64.hasValidAmt in H.
    rewrite H. destruct (_ && _); discriminate.
  - intros p Hb Ha Hp Hbound. split; [|apply roundTenths_close].
    rewrite Hb, Ha, Hp. cbn [andb].
    now rewrite toFixed_oneDecimal.
  - intros a b Ha Hb Ra Rb. rewrite Ha, Hb.
    assert (T1 := Binary64Error.div_tracked 0 0 100 100 _ _ _ _
                    ltac:(lia) ltac:(lia) ltac:(lia) ltac:(lia)
                    (Binary64Error.tracked_exact 100 a Ra)
                    (Binary64Error.tracked_exact 100 b Rb)).
    assert (R100 : Binary64.inRange 7 (100 # 1)) by (split; discriminate).
    assert (T2 := Binary64Error.mul_tracked 1 0 200 7 _ _ _ _
                    ltac:(lia) ltac:(lia) ltac:(lia) ltac:(lia)
                    T1 (Binary64Error.tracked_exact 7 (100 # 1) R100)).
    destruct (Binary64Error.tracked_pos _ _ _ _ T2) as (p & -> & Pp & PX & U).
    apply (Binary64Error.upTo_closeTo 2); auto.
    vm_compute. discriminate.
  - intros isBaking showPercentage ->. reflexivity.
Qed.

(** C9.  Percentages and the label of the base are computed from the
    amounts as entered: for every list of ingredients they are the same with
    any scaling factor as with factor 1, and so are names and units; only
    the displayed amounts depend on the factor. *)
Theorem percent_independent_of_factor
    (ingredients : list Ingredient.t) (title : string)
    (isBaking showPercentage : bool) (factor : JS.number) :
  let shown f :=
    DisplayIngredientSection NumberToString ingredients title
      isBaking showPercentage f in
  option_map SectionView.baseLabel (shown factor)
  = option_map SectionView.baseLabel (shown (JS.Fin 1))
  /\ option_map (fun v => map Row.percent (SectionView.rows v)) (shown factor)
     = option_map (fun v => map Row.percent (SectionView.rows v))
         (shown (JS.Fin 1))
  /\ option_map (fun v => map (fun r => (Row.name r, Row.unit r))
                            (SectionView.rows v)) (shown factor)
     = option_map (fun v => map (fun r => (Row.name r, Row.unit r))
                              (SectionView.rows v)) (shown (JS.Fin 1))
  /\ (forall v, shown factor = Some v ->
        map Row.percent (SectionView.rows v)
        = map (percentCell NumberToString isBaking showPercentage
                 (localBase ingredients)) ingredients
        /\ map Row.amount (SectionView.rows v)
           = map (scaledAmount NumberToString factor) ingredients).
Proof.
  intro shown. subst shown. unfold DisplayIngredientSection.
  destruct ingredients as [|x l] eqn:E.
  - repeat split; try reflexivity; discriminate.
  - rewrite <- E. cbn [option_map SectionView.baseLabel SectionView.rows].
    rewrite !map_map. cbn [displayRow Row.percent Row.name Row.unit].
    split; [reflexivity|]. split; [reflexivity|]. split; [reflexivity|].
    intros v H. injection H as <-. cbn [SectionView.rows].
    now rewrite !map_map.
Qed.

(** C8 (as amended).  In the scaling view the filling, decoration and
    custom sections are rendered with factor 1 whatever the target
    quantity, without percentages: one row for each ingredient, whose
    amount is the amount times 1 written with one decimal when it is above
    zero, and the amount as entered otherwise.  So a positive amount is not
    scaled, but it is still rounded to one decimal.  The main and
    liquid-starter sections are rendered with the computed factor
    [targetQuantity / quantity]. *)
Theorem fixed_sections_unscaled
    (scalingRecipe : Recipe.t) (targetQuantity : JS.number) :
  let factor := Binary64.scalingFactor (Some scalingRecipe) targetQuantity in
  let baking := Recipe.isBakingRecipe scalingRecipe in
  let section := Binary64.scalingSection NumberToString scalingRecipe in
  let amountAt f x :=
    if JS.gt (Binary64.numericAmt x) (JS.Fin 0)
    then AmtStr (stripDotZero
                   (toFixed NumberToString 1
                      (Binary64.mul (Binary64.numericAmt x) f)))
    else Ingredient.amount x in
  let fixedRow x :=
    {| Row.name := Ingredient.name x;
       Row.flourDot := Ingredient.isFlour x;
       Row.amount := amountAt (JS.Fin 1) x;
       Row.unit := unitCell x;
       Row.percent := PercentAbsent |} in
  let scaledRow base x :=
    {| Row.name := Ingredient.name x;
       Row.flourDot := Ingredient.isFlour x;
       Row.amount := amountAt factor x;
       Row.unit := unitCell x;
       Row.percent := Binary64.percentCell NumberToString baking true base x |} in
  let fixedSection title l :=
    match l with
    | [] => None
    | _ => Some {| SectionView.title := title;
                   SectionView.baseLabel := None;
                   SectionView.rows := map fixedRow l |}
    end in
  let scaledSection title l :=
    match l with
    | [] => None
    | _ => Some {| SectionView.title := title;
                   SectionView.baseLabel :=
                     if baking then Some (LocalBase.name (Binary64.localBase l))
                     else None;
                   SectionView.rows :=
                     map (scaledRow (Binary64.localBase l)) l |}
    end in
  section factor "fillingIngredients"
  = fixedSection "內餡 (固定量)"
      (orEmpty (Recipe.fillingIngredients scalingRecipe))
  /\ section factor "decorationIngredients"
     = fixedSection "裝飾 / 表面 (固定量)"
         (orEmpty (Recipe.decorationIngredients scalingRecipe))
  /\ section factor "customSectionIngredients"
     = fixedSection
         (optStrOr (Recipe.customSectionName scalingRecipe) "其他區塊"
          ++ " (固定量)")
         (orEmpty (Recipe.customSectionIngredients scalingRecipe))
  /\ section factor "ingredients"
     = scaledSection
         (optStrOr (Recipe.mainSectionName scalingRecipe) "主麵團")
         (Recipe.ingredients scalingRecipe)
  /\ section factor "liquidStarterIngredients"
     = scaledSection
         (optStrOr (Recipe.liquidStarterName scalingRecipe) "發酵種")
         (orEmpty (Recipe.liquidStarterIngredients scalingRecipe))
  /\ (forall x (a : Q),
         Binary64.numericAmt x = JS.Fin a -> 0 < a -> a < pow10 21 ->
         JS.same (Binary64.round a) (JS.Fin a) ->
         amountAt (JS.Fin 1) x = AmtStr (stripDotZero (oneDecimal a)))
  /\ (forall x s (a : Q),
         Ingredient.amount x = AmtStr s ->
         Binary64.numericAmt x = JS.Fin a -> 0 < a ->
         Binary64.round a = JS.Fin a)
  /\ (forall x f, JS.gt (Binary64.numericAmt x) (JS.Fin 0) = false ->
        amountAt f x = Ingredient.amount x).
Proof.
  intros factor baking section amountAt fixedRow scaledRow
    fixedSection scaledSection.
  assert (Hfixed : forall l t,
             Binary64.DisplayIngredientSection NumberToString l t
               baking false (Fin 1)
             = fixedSection t l).
  { intros l t. unfold Binary64.DisplayIngredientSection, fixedSection.
    destruct l as [|y l'] eqn:E; [reflexivity|]. rewrite <- E.
    rewrite andb_false_r. f_equal. f_equal.
    apply map_ext. intro z.
    unfold Binary64.displayRow, Binary64.percentCell, fixedRow.
    now rewrite andb_false_r. }
  assert (Hscaled : forall l t,
             Binary64.DisplayIngredientSection NumberToString l t
               baking true factor
             = scaledSection t l).
  { intros l t. unfold Binary64.DisplayIngredientSection, scaledSection.
    destruct l as [|y l'] eqn:E; [reflexivity|]. rewrite <- E.
    rewrite andb_true_r. reflexivity. }
  split; [apply Hfixed|]. split; [apply Hfixed|]. split; [apply Hfixed|].
  split; [apply Hscaled|]. split; [apply Hscaled|].
  split; [|split].
  - intros x a Ha Hpos Hbound Hrep.
    exact (scaledAmount_factor_one64 NumberToString x a Ha Hpos Hrep Hbound).
  - intros x s a. apply numericAmt_string_representable.
  - intros x f H. unfold amountAt. now rewrite H.
Qed.

End RowClaims.

(** ** Molds of finite dimensions *)

Section MoldFacts.
Import JS JSFacts.



(** Scaling every dimension by [k > 0] multiplies the volume by [k^3], or
    by [k^2] when the height is unset. *)
Lemma volumeOf_scaled (k : Q) (ty : MoldType) (d h l w : Q) :
  0 < k ->
  volumeOf ty (k * d) (k * h) (k * l) (k * w)
  == (if Qeq_bool h 0 then k ^ 2 else k ^ 3) * volumeOf ty d h l w.
Proof.
  intro Hk. unfold volumeOf, heightOr1.
  destruct (Qeq_bool h 0) eqn:E.
  - apply Qeq_bool_iff in E.
    assert (E' : Qeq_bool (k * h) 0 = true)
      by (apply Qeq_bool_iff; rewrite E; ring).
    rewrite E'. destruct ty; unfold Qpower; simpl; field.
  - apply Qeq_bool_false in E.
    assert (E' : Qeq_bool (k * h) 0 = false).
    { apply Qeq_bool_false. intro H. apply E.
      apply Qmult_integral in H. destruct H as [H|H]; [lra | exact H]. }
    rewrite E'. destruct ty; unfold Qpower; simpl; field.
Qed.

End MoldFacts.

(** ** The mold factor up to rounding *)

Section MoldRounding.
Import Binary64 Binary64Facts Binary64Error.

Lemma tol_51 : tol 51 <= 1 + twoTo (-47).
Proof. vm_compute. discriminate. Qed.

Lemma tol_6 : tol 6 <= 1 + twoTo (-50).
Proof. vm_compute. discriminate. Qed.

Lemma volumeOf_pos (ty : MoldType) (d h l w : Q) :
  dimensionsInRange ty d h l w -> 0 < volumeOf ty d h l w.
Proof.
  intro H. destruct (tracked_pos _ _ _ _ (getVolume_tracked ty d h l w H))
    as (x & _ & _ & P & _). exact P.
Qed.

Lemma factorOf_ratio (s t : Q) : 0 < s -> 0 < t -> factorOf s t == t / s.
Proof.
  intros Hs Ht. unfold factorOf.
  assert (Es : Qle_bool s 0 = false) by now apply Qle_bool_false_lt.
  assert (Et : Qle_bool t 0 = false) by now apply Qle_bool_false_lt.
  now rewrite Es, Et.
Qed.

(** The same mold in another unit has the same ideal factor. *)
Lemma ratio_scaled (k : Q) (ty1 ty2 : MoldType)
    (d1 h1 l1 w1 d2 h2 l2 w2 : Q) :
  0 < k -> (h1 == 0 <-> h2 == 0) ->
  0 < volumeOf ty1 d1 h1 l1 w1 ->
  volumeOf ty2 (k * d2) (k * h2) (k * l2) (k * w2)
  / volumeOf ty1 (k * d1) (k * h1) (k * l1) (k * w1)
  == volumeOf ty2 d2 h2 l2 w2 / volumeOf ty1 d1 h1 l1 w1.
Proof.
  intros Hk Hh Hv.
  rewrite (volumeOf_scaled k ty1 d1 h1 l1 w1 Hk).
  rewrite (volumeOf_scaled k ty2 d2 h2 l2 w2 Hk).
  assert (E : Qeq_bool h1 0 = Qeq_bool h2 0).
  { destruct (Qeq_bool h1 0) eqn:E1, (Qeq_bool h2 0) eqn:E2; auto.
    - apply Qeq_bool_iff in E1. apply JSFacts.Qeq_bool_false in E2. tauto.
    - apply Qeq_bool_iff in E2. apply JSFacts.Qeq_bool_false in E1. tauto. }
  rewrite E.
  destruct (Qeq_bool h2 0); unfold Qpower; simpl; field; split; lra.
Qed.

Lemma closeTo_of_tracked (n m : nat) (b c : Z) (eps : Q)
    (a a' : JS.number) (X X' : Q) :
  X == X' -> tol (n + m) <= 1 + eps ->
  tracked n b a X -> tracked m c a' X' -> closeTo eps a a'.
Proof.
  intros E T Ha Ha'.
  destruct (tracked_pos _ _ _ _ Ha) as (x & -> & Px & PX & Ux).
  destruct (tracked_pos _ _ _ _ Ha') as (y & -> & Py & PY & Uy).
  apply (upTo_closeTo (n + m)); auto.
  apply (upTo_trans n m x X y); auto.
  apply upTo_sym. apply (upTo_compat m y X'); [now symmetry | exact Uy].
Qed.

End MoldRounding.

(** ** The yield factor *)




(** ** The volume of a mold and the mold factor *)





(** C6 (as amended).  The same two molds measured in another unit (every
    dimension multiplied by k > 0 and entered as the nearest binary64
    number) give the same mold factor up to the rounding of the arithmetic:
    a relative difference of at most 2^-47, for dimensions between 2^-100
    and 2^100 in both units, provided the heights of the two molds are both
    set or both unset (zero). *)
Theorem calculatedMoldFactor_scale_invariant
    (k : Q) (ty1 ty2 : MoldType) (d1 h1 l1 w1 d2 h2 l2 w2 : Q) :
  0 < k ->
  Binary64.dimensionsInRange ty1 d1 h1 l1 w1 ->
  Binary64.dimensionsInRange ty2 d2 h2 l2 w2 ->
  Binary64.dimensionsInRange ty1 (k * d1) (k * h1) (k * l1) (k * w1) ->
  Binary64.dimensionsInRange ty2 (k * d2) (k * h2) (k * l2) (k * w2) ->
  (h1 == 0 <-> h2 == 0) ->
  Binary64.closeTo (Binary64.twoTo (-47))
    (Binary64.calculatedMoldFactor
       (Binary64.moldOf ty1 (k * d1) (k * h1) (k * l1) (k * w1))
       (Binary64.moldOf ty2 (k * d2) (k * h2) (k * l2) (k * w2)))
    (Binary64.calculatedMoldFactor
       (Binary64.moldOf ty1 d1 h1 l1 w1) (Binary64.moldOf ty2 d2 h2 l2 w2)).
Proof.
  intros Hk R1 R2 R1' R2' Hh.
  apply (closeTo_of_tracked 17 17 608 608 _ _ _
           (volumeOf ty2 (k * d2) (k * h2) (k * l2) (k * w2)
            / volumeOf ty1 (k * d1) (k * h1) (k * l1) (k * w1))
           (volumeOf ty2 d2 h2 l2 w2 / volumeOf ty1 d1 h1 l1 w1)).
  - apply ratio_scaled; auto. now apply volumeOf_pos.
  - apply Binary64Error.tol_34.
  - now apply Binary64Error.calculatedMoldFactor_tracked.
  - now apply Binary64Error.calculatedMoldFactor_tracked.
Qed.

Lemma calculatedMoldFactor_scale_invariant_witness :
  Binary64.closeTo (Binary64.twoTo (-47))
    (Binary64.calculatedMoldFactor
       (Binary64.moldOf rectangular ((1 # 10) * 0) ((1 # 10) * 2)
          ((1 # 10) * 10) ((1 # 10) * 8))
       (Binary64.moldOf rectangular ((1 # 10) * 0) ((1 # 10) * 2)
          ((1 # 10) * 30) ((1 # 10) * 7)))
    (Binary64.calculatedMoldFactor
       (Binary64.moldOf rectangular 0 2 10 8)
       (Binary64.moldOf rectangular 0 2 30 7)).
Proof.
  apply (calculatedMoldFactor_scale_invariant (1 # 10)
           rectangular rectangular 0 2 10 8 0 2 30 7).
  - reflexivity.
  - split; [right; split; discriminate | split; split; discriminate].
  - split; [right; split; discriminate | split; split; discriminate].
  - split; [right; split; discriminate | split; split; discriminate].
  - split; [right; split; discriminate | split; split; discriminate].
  - split; discriminate.
Defined.

(** C6 as stated fails.  The molds 10 x 8 x 2 and 30 x 7 x 2 give the
    factor 2.625, shown as 2.63; the same molds in decimetres give
    2.62499999999999911 and 2.62.  And with a height on one mold only
    (diameter 10 on both, no height on the source, height 2 on the target)
    the factor is 2, and 4 after doubling every dimension. *)
Lemma calculatedMoldFactor_not_scale_invariant :
  let cm := Binary64.calculatedMoldFactor
              (Binary64.moldOf rectangular 0 2 10 8)
              (Binary64.moldOf rectangular 0 2 30 7) in
  let dm := Binary64.calculatedMoldFactor
              (Binary64.moldOf rectangular 0 ((1 # 10) * 2) ((1 # 10) * 10)
                 ((1 # 10) * 8))
              (Binary64.moldOf rectangular 0 ((1 # 10) * 2) ((1 # 10) * 30)
                 ((1 # 10) * 7)) in
  let source := Binary64.moldOf circular 10 0 0 0 in
  let target := Binary64.moldOf circular 10 2 0 0 in
  let source2 := Binary64.moldOf circular (2 * 10) (2 * 0) 0 0 in
  let target2 := Binary64.moldOf circular (2 * 10) (2 * 2) 0 0 in
  cm = JS.Fin (21 # 8)
  /\ dm = JS.Fin (2955487255461887 # 1125899906842624)
  /\ ~ JS.same dm cm
  /\ toFixed (fun _ => "") 2 cm = "2.63"%string
  /\ toFixed (fun _ => "") 2 dm = "2.62"%string
  /\ Binary64.calculatedMoldFactor source target = JS.Fin 2
  /\ Binary64.calculatedMoldFactor source2 target2 = JS.Fin 4.
Proof.
  intros cm dm source target source2 target2.
  split; [vm_compute; reflexivity|].
  split; [vm_compute; reflexivity|].
  split; [intro H; vm_compute in H; discriminate|].
  split; [vm_compute; reflexivity|].
  split; [vm_compute; reflexivity|].
  split; vm_compute; reflexivity.
Qed.

(** ** The rows at concrete ingredients *)

Lemma scaledAmount_spec_witness :
  let water := Ingredient.mk "water" (AmtNum (JS.Fin 280)) "g" false in
  let milk := Ingredient.mk "milk" (AmtStr "100") "ml" false in
  let cocoa := Ingredient.mk "cocoa" (AmtStr "0.7") "g" false in
  let salt := Ingredient.mk "salt" (AmtStr "適量") "g" false in
  Binary64.scaledAmount (fun _ => "") (JS.Fin 1.5) water = AmtStr "420"
  /\ Binary64.scaledAmount (fun _ => "") (Binary64.round (1 # 3)) milk
     = AmtStr "33.3"
  /\ Binary64.scaledAmount (fun _ => "") (JS.Fin 1.5) cocoa = AmtStr "1"
  /\ Binary64.scaledAmount (fun _ => "") (JS.Fin 1.5) salt = AmtStr "適量"
  /\ unitCell salt = None
  /\ unitCell water = Some "g".
Proof.
  intros water milk cocoa salt.
  split; [|split; [|split; [|split; [|split]]]].
  - refine (eq_trans (proj1 (proj1 (proj2 (proj2 (proj2
      (scaledAmount_spec (fun _ => "") water (JS.Fin 1.5)))))
      420 _ _ _)) _); vm_compute; reflexivity.
  - refine (eq_trans (proj1 (proj1 (proj2 (proj2 (proj2
      (scaledAmount_spec (fun _ => "") milk (Binary64.round (1 # 3))))))
      (2345624805922133 # 70368744177664) _ _ _)) _);
      vm_compute; reflexivity.
  - refine (eq_trans (proj1 (proj1 (proj2 (proj2 (proj2
      (scaledAmount_spec (fun _ => "") cocoa (JS.Fin 1.5)))))
      (1182194902184755 # 1125899906842624) _ _ _)) _);
      vm_compute; reflexivity.
  - exact (proj1 (proj2 (proj2 (proj2 (proj2 (proj2
      (scaledAmount_spec (fun _ => "") salt (JS.Fin 1.5))))))) eq_refl).
  - apply (proj1 (proj2 (proj2 (proj2 (proj2 (proj2 (proj2
      (scaledAmount_spec (fun _ => "") salt (JS.Fin 1.5))))))))).
    left. reflexivity.
  - apply (proj2 (proj2 (proj2 (proj2 (proj2 (proj2 (proj2
      (scaledAmount_spec (fun _ => "") water (JS.Fin 1.5))))))))).
    discriminate.
Defined.

(** C3 as stated fails for a negative amount: it is numeric, yet it is not
    multiplied by the factor; it passes through as it is. *)
Lemma scaledAmount_negative_amount :
  let x := Ingredient.mk "water" (AmtNum (JS.Fin (-5))) "g" false in
  isNumeric (Ingredient.amount x) = true
  /\ Binary64.scaledAmount (fun _ => "") (JS.Fin 2) x = AmtNum (JS.Fin (-5))
  /\ stripDotZero
       (toFixed (fun _ => "") 1
          (Binary64.mul (Binary64.numericAmt x) (JS.Fin 2))) = "-10"
  /\ Binary64.scaledAmount (fun _ => "") (JS.Fin 2) x
     <> AmtStr (stripDotZero
                  (toFixed (fun _ => "") 1
                     (Binary64.mul (Binary64.numericAmt x) (JS.Fin 2)))).
Proof.
  intro x. split; [reflexivity|]. split; [reflexivity|].
  split; [vm_compute; reflexivity|]. discriminate.
Qed.

Lemma percentCell_spec_witness :
  let flour := Ingredient.mk "flour" (AmtNum (JS.Fin 500)) "g" true in
  let water := Ingredient.mk "water" (AmtNum (JS.Fin 350)) "g" false in
  let yeast := Ingredient.mk "yeast" (AmtNum (JS.Fin 29)) "g" false in
  let salt := Ingredient.mk "salt" (AmtStr "適量") "g" false in
  let base := Binary64.localBase [flour; water; salt] in
  let base400 := {| LocalBase.weight := JS.Fin 400; LocalBase.name := "" |} in
  Binary64.percentCell (fun _ => "") true true base flour
  = PercentText "100.0%"
  /\ Binary64.percentCell (fun _ => "") true true base water
     = PercentText "70.0%"
  /\ Binary64.percentCell (fun _ => "") true true base400 yeast
     = PercentText "7.2%"
  /\ (forall s, Binary64.percentCell (fun _ => "") true true base salt
                <> PercentText s)
  /\ Binary64.percentCell (fun _ => "") true false base water = PercentAbsent.
Proof.
  intros flour water yeast salt base base400.
  split; [|split; [|split; [|split]]].
  - refine (eq_trans (proj1 (proj1 (proj2 (proj2 (proj2
      (percentCell_spec (fun _ => "") base flour))))
      100 _ _ _ _)) _); vm_compute; reflexivity.
  - refine (eq_trans (proj1 (proj1 (proj2 (proj2 (proj2
      (percentCell_spec (fun _ => "") base water))))
      70 _ _ _ _)) _); vm_compute; reflexivity.
  - refine (eq_trans (proj1 (proj1 (proj2 (proj2 (proj2
      (percentCell_spec (fun _ => "") base400 yeast))))
      (8162774324609023 # 1125899906842624) _ _ _ _)) _);
      vm_compute; reflexivity.
  - exact (proj1 (proj2 (proj2
      (percentCell_spec (fun _ => "") base salt))) eq_refl).
  - exact (proj2 (proj2 (proj2 (proj2 (proj2
      (percentCell_spec (fun _ => "") base water))))) true false eq_refl).
Defined.

(** C7 as stated fails for an amount of zero: the base is above zero and
    the amount is numeric, yet no percentage is shown. *)
Lemma percentCell_zero_amount :
  let flour := Ingredient.mk "flour" (AmtNum (JS.Fin 500)) "g" true in
  let yeast := Ingredient.mk "yeast" (AmtNum (JS.Fin 0)) "g" false in
  let base := Binary64.localBase [flour; yeast] in
  JS.gt (LocalBase.weight base) (JS.Fin 0) = true
  /\ JS.le (LocalBase.weight base) (JS.Fin 0) = false
  /\ isNumeric (Ingredient.amount yeast) = true
  /\ Binary64.percentCell (fun _ => "") true true base yeast = PercentBlank.
Proof.
  intros flour yeast base. repeat split.
Qed.

(** The scenario of the specification: yield 4 scaled to 6. *)
Example scale_four_to_six :
  let flour := Ingredient.mk "flour" (AmtNum (JS.Fin 400)) "g" true in
  let water := Ingredient.mk "water" (AmtNum (JS.Fin 280)) "g" false in
  let factor :=
    scalingFactor (Some (recipeOfQuantity (Some (JS.Fin 4)))) (JS.Fin 6) in
  JS.same factor (JS.Fin 1.5)
  /\ option_map
       (fun v => map (fun r => (Row.amount r, Row.unit r, Row.percent r))
                     (SectionView.rows v))
       (DisplayIngredientSection (fun _ => "") [flour; water] "主麵團"
          true true factor)
     = Some [ (AmtStr "600", Some "g", PercentText "100.0%");
              (AmtStr "420", Some "g", PercentText "70.0%") ].
Proof.
  split; reflexivity.
Qed.

Lemma percent_independent_of_factor_witness :
  exists v,
    DisplayIngredientSection (fun _ => "") (Recipe.ingredients custardBun)
      "主麵團" true true (JS.Fin 1.5) = Some v
    /\ map Row.percent (SectionView.rows v)
       = [PercentText "100.0%"; PercentText "70.0%"]
    /\ map Row.amount (SectionView.rows v) = [AmtStr "600"; AmtStr "420"].
Proof.
  eexists. split; [reflexivity|].
  exact (proj2 (proj2 (proj2
    (percent_independent_of_factor (fun _ => "")
       (Recipe.ingredients custardBun) "主麵團" true true (JS.Fin 1.5))))
    _ eq_refl).
Defined.

Lemma fixed_sections_unscaled_witness :
  let factor := Binary64.scalingFactor (Some custardBun) (JS.Fin 6) in
  option_map
    (fun v => (SectionView.title v, SectionView.baseLabel v,
               map (fun r => (Row.name r, Row.amount r, Row.unit r,
                              Row.percent r))
                   (SectionView.rows v)))
    (Binary64.scalingSection (fun _ => "") custardBun factor
       "fillingIngredients")
  = Some ("內餡 (固定量)", None,
          [ ("custard", AmtStr "120", Some "g", PercentAbsent);
            ("vanilla", AmtStr "少許", None, PercentAbsent) ]).
Proof.
  intro factor. subst factor.
  pose proof (proj1 (fixed_sections_unscaled (fun _ => "") custardBun
                       (JS.Fin 6))) as H.
  cbv zeta in H. rewrite H. vm_compute. reflexivity.
Defined.

(** C8 as stated fails for a filling amount with more than one decimal, and
    for one that [parseFloat] reads only in part: the section is rendered
    at factor 1, yet 12.34 is shown as 12.3 and "1/2" as 1. *)
Lemma fixed_sections_rounded :
  let factor := Binary64.scalingFactor (Some Binary64.creamBun) (JS.Fin 6) in
  factor = JS.Fin (3 # 2)
  /\ option_map (fun v => map Row.amount (SectionView.rows v))
       (Binary64.scalingSection (fun _ => "") Binary64.creamBun factor
          "fillingIngredients")
     = Some [AmtStr "12.3"; AmtStr "1"; AmtStr "少許"]
  /\ option_map (map Ingredient.amount)
       (Recipe.fillingIngredients Binary64.creamBun)
     = Some [AmtNum (Binary64.round 12.34); AmtStr "1/2"; AmtStr "少許"].
Proof.
  intro factor. split; [vm_compute; reflexivity|].
  split; [vm_compute; reflexivity | reflexivity].
Qed.

(** The scaling view of the recipe for four at target quantity six: the
    dough is scaled by 1.5, the filling is not. *)
Example custardBun_for_six :
  map (option_map
         (fun v => (SectionView.title v, SectionView.baseLabel v,
                    map (fun r => (Row.name r, Row.amount r, Row.unit r,
                                   Row.percent r))
                        (SectionView.rows v))))
      (scalingResultList (fun _ => "") custardBun (JS.Fin 6))
  = [ Some ("主麵團", Some "總粉量",
            [ ("flour", AmtStr "600", Some "g", PercentText "100.0%");
              ("water", AmtStr "420", Some "g", PercentText "70.0%") ]);
      Some ("內餡 (固定量)", None,
            [ ("custard", AmtStr "120", Some "g", PercentAbsent);
              ("vanilla", AmtStr "少許", None, PercentAbsent) ]) ].
Proof. reflexivity. Qed.

(** * Further properties of the code *)

(** ** The mold factor as a ratio *)

Section MoldAlgebra.
Import JS JSFacts.

Lemma same_refl (a : number) : same a a.
Proof. destruct a; simpl; auto. reflexivity. Qed.

Lemma same_Fin_inv (a : number) (q : Q) :
  same a (Fin q) -> exists p, a = Fin p /\ p == q.
Proof.
  destruct a as [p| | |]; simpl; try contradiction.
  intro H. exists p. split; [reflexivity | exact H].
Qed.

End MoldAlgebra.

(** X1.  For molds whose dimensions are between 2^-100 and 2^100 the mold
    factor is a finite number above zero, and it is the ratio of the two
    volumes of the specification up to the rounding of the arithmetic, a
    relative error of at most 2^-48. *)
Theorem calculatedMoldFactor_positive (ty1 ty2 : MoldType)
    (d1 h1 l1 w1 d2 h2 l2 w2 : Q) :
  Binary64.dimensionsInRange ty1 d1 h1 l1 w1 ->
  Binary64.dimensionsInRange ty2 d2 h2 l2 w2 ->
  (exists f : Q,
      Binary64.calculatedMoldFactor (Binary64.moldOf ty1 d1 h1 l1 w1)
        (Binary64.moldOf ty2 d2 h2 l2 w2) = JS.Fin f
      /\ 0 < f)
  /\ Binary64.closeTo (Binary64.twoTo (-48))
       (Binary64.calculatedMoldFactor (Binary64.moldOf ty1 d1 h1 l1 w1)
          (Binary64.moldOf ty2 d2 h2 l2 w2))
       (JS.Fin (factorOf (volumeOf ty1 d1 h1 l1 w1)
                         (volumeOf ty2 d2 h2 l2 w2))).
Proof.
  intros R1 R2.
  assert (T := Binary64Error.calculatedMoldFactor_tracked
                 ty1 ty2 d1 h1 l1 w1 d2 h2 l2 w2 R1 R2).
  assert (P1 := volumeOf_pos _ _ _ _ _ R1).
  assert (P2 := volumeOf_pos _ _ _ _ _ R2).
  destruct (Binary64Error.tracked_pos _ _ _ _ T) as (f & E & Pf & PF & U).
  split; [exists f; split; assumption|].
  rewrite E. apply (Binary64Error.upTo_closeTo 17).
  - exact Pf.
  - rewrite factorOf_ratio by assumption. exact PF.
  - apply Binary64Error.tol_17.
  - apply (Binary64Error.upTo_compat 17 f _ _
             (Qeq_sym _ _ (factorOf_ratio _ _ P1 P2)) U).
Qed.

Lemma calculatedMoldFactor_positive_witness :
  exists f : Q,
    Binary64.calculatedMoldFactor (Binary64.moldOf circular 15 7.5 0 0)
      (Binary64.moldOf rectangular 0 10 20 10) = JS.Fin f
    /\ 0 < f.
Proof.
  refine (proj1 (calculatedMoldFactor_positive circular rectangular
                   15 7.5 0 0 0 10 20 10 _ _)).
  - split; [right; split; discriminate | split; discriminate].
  - split; [right; split; discriminate | split; split; discriminate].
Defined.

(** Outside such a range the arithmetic can overflow: with a diameter of
    1e200 both volumes are infinite and the factor is NaN. *)
Example calculatedMoldFactor_overflow :
  Binary64.getVolume (Binary64.moldOf circular (Qpower 10 200) 0 0 0)
  = JS.PInf
  /\ Binary64.calculatedMoldFactor
       (Binary64.moldOf circular (Qpower 10 200) 0 0 0)
       (Binary64.moldOf circular (Qpower 10 200) 0 0 0) = JS.NaN.
Proof. split; vm_compute; reflexivity. Qed.

(** X2.  Exchanging source and target inverts the mold factor up to the
    rounding of the arithmetic: for molds whose dimensions are between
    2^-100 and 2^100 the product of the two factors is 1 with a relative
    error of at most 2^-47.  The factor from such a mold to itself is
    exactly 1. *)
Theorem calculatedMoldFactor_reciprocal (ty1 ty2 : MoldType)
    (d1 h1 l1 w1 d2 h2 l2 w2 : Q) :
  let source := Binary64.moldOf ty1 d1 h1 l1 w1 in
  let target := Binary64.moldOf ty2 d2 h2 l2 w2 in
  Binary64.dimensionsInRange ty1 d1 h1 l1 w1 ->
  Binary64.dimensionsInRange ty2 d2 h2 l2 w2 ->
  (exists f g : Q,
      Binary64.calculatedMoldFactor source target = JS.Fin f
      /\ Binary64.calculatedMoldFactor target source = JS.Fin g
      /\ f * g <= 1 + Binary64.twoTo (-47)
      /\ 1 <= f * g * (1 + Binary64.twoTo (-47)))
  /\ Binary64.calculatedMoldFactor source source = JS.Fin 1.
Proof.
  intros source target R1 R2. subst source target. split.
  - assert (T := Binary64Error.calculatedMoldFactor_tracked
                   ty1 ty2 d1 h1 l1 w1 d2 h2 l2 w2 R1 R2).
    assert (T' := Binary64Error.calculatedMoldFactor_tracked
                    ty2 ty1 d2 h2 l2 w2 d1 h1 l1 w1 R2 R1).
    assert (P1 := volumeOf_pos _ _ _ _ _ R1).
    assert (P2 := volumeOf_pos _ _ _ _ _ R2).
    destruct (Binary64Error.tracked_pos _ _ _ _ T) as (f & E & Pf & PF & U).
    destruct (Binary64Error.tracked_pos _ _ _ _ T') as (g & E' & Pg & PG & U').
    exists f, g. split; [exact E|]. split; [exact E'|].
    assert (M := Binary64Error.upTo_mul 17 17 f _ g _ PF PG U U').
    assert (E1 : volumeOf ty2 d2 h2 l2 w2 / volumeOf ty1 d1 h1 l1 w1
                 * (volumeOf ty1 d1 h1 l1 w1 / volumeOf ty2 d2 h2 l2 w2) == 1)
      by (field; split; lra).
    apply (Binary64Error.upTo_compat _ _ _ _ E1) in M.
    destruct M as [M1 M2]. cbn [Nat.add] in M1, M2.
    assert (T34 := Binary64Error.tol_34).
    assert (Pfg : 0 < f * g) by now apply Qmult_lt_0_compat.
    split; [lra|].
    assert (f * g * Binary64.tol 34 <= f * g * (1 + Binary64.twoTo (-47)))
      by (apply Qmult_le_l; assumption).
    lra.
  - unfold Binary64.calculatedMoldFactor.
    destruct (Binary64Error.tracked_pos _ _ _ _
                (Binary64Error.getVolume_tracked ty1 d1 h1 l1 w1 R1))
      as (v & E & Pv & _).
    rewrite E. cbn [JS.le].
    assert (L : Qle_bool v 0 = false)
      by (apply Binary64Facts.Qle_bool_false_lt; exact Pv).
    rewrite L. cbn [orb]. unfold Binary64.div. cbn [JS.div].
    assert (Ez : Qeq_bool v 0 = false).
    { destruct (Qeq_bool v 0) eqn:C; [|reflexivity].
      apply Qeq_bool_iff in C. lra. }
    rewrite Ez. cbn [Binary64.rnd].
    rewrite (Binary64Facts.round_compat (v / v) 1) by (field; lra).
    reflexivity.
Qed.

Lemma calculatedMoldFactor_reciprocal_witness :
  Binary64.calculatedMoldFactor (Binary64.moldOf circular 15 7.5 0 0)
    (Binary64.moldOf circular 15 7.5 0 0) = JS.Fin 1.
Proof.
  refine (proj2 (calculatedMoldFactor_reciprocal circular rectangular
                   15 7.5 0 0 0 10 20 10 _ _)).
  - split; [right; split; discriminate | split; discriminate].
  - split; [right; split; discriminate | split; split; discriminate].
Defined.

(** X3.  Mold factors compose up to the rounding of the arithmetic: for
    three molds whose dimensions are between 2^-100 and 2^100, the product
    of the factor from the first to the second and the factor from the
    second to the third is the factor from the first to the third with a
    relative error of at most 2^-47. *)
Theorem calculatedMoldFactor_compose (ty1 ty2 ty3 : MoldType)
    (d1 h1 l1 w1 d2 h2 l2 w2 d3 h3 l3 w3 : Q) :
  let a := Binary64.moldOf ty1 d1 h1 l1 w1 in
  let b := Binary64.moldOf ty2 d2 h2 l2 w2 in
  let c := Binary64.moldOf ty3 d3 h3 l3 w3 in
  Binary64.dimensionsInRange ty1 d1 h1 l1 w1 ->
  Binary64.dimensionsInRange ty2 d2 h2 l2 w2 ->
  Binary64.dimensionsInRange ty3 d3 h3 l3 w3 ->
  exists f g fg : Q,
    Binary64.calculatedMoldFactor a b = JS.Fin f
    /\ Binary64.calculatedMoldFactor b c = JS.Fin g
    /\ Binary64.calculatedMoldFactor a c = JS.Fin fg
    /\ 0 < fg
    /\ f * g <= fg * (1 + Binary64.twoTo (-47))
    /\ fg <= f * g * (1 + Binary64.twoTo (-47)).
Proof.
  intros a b c R1 R2 R3. subst a b c.
  assert (Tab := Binary64Error.calculatedMoldFactor_tracked
                   ty1 ty2 d1 h1 l1 w1 d2 h2 l2 w2 R1 R2).
  assert (Tbc := Binary64Error.calculatedMoldFactor_tracked
                   ty2 ty3 d2 h2 l2 w2 d3 h3 l3 w3 R2 R3).
  assert (Tac := Binary64Error.calculatedMoldFactor_tracked
                   ty1 ty3 d1 h1 l1 w1 d3 h3 l3 w3 R1 R3).
  assert (P1 := volumeOf_pos _ _ _ _ _ R1).
  assert (P2 := volumeOf_pos _ _ _ _ _ R2).
  assert (P3 := volumeOf_pos _ _ _ _ _ R3).
  destruct (Binary64Error.tracked_pos _ _ _ _ Tab) as (f & E1 & Pf & PF & U1).
  destruct (Binary64Error.tracked_pos _ _ _ _ Tbc) as (g & E2 & Pg & PG & U2).
  destruct (Binary64Error.tracked_pos _ _ _ _ Tac) as (fg & E3 & Pfg & PFG & U3).
  exists f, g, fg. split; [exact E1|]. split; [exact E2|]. split; [exact E3|].
  split; [exact Pfg|].
  assert (M := Binary64Error.upTo_mul 17 17 f _ g _ PF PG U1 U2).
  assert (Ec : volumeOf ty2 d2 h2 l2 w2 / volumeOf ty1 d1 h1 l1 w1
               * (volumeOf ty3 d3 h3 l3 w3 / volumeOf ty2 d2 h2 l2 w2)
               == volumeOf ty3 d3 h3 l3 w3 / volumeOf ty1 d1 h1 l1 w1)
    by (field; split; lra).
  apply (Binary64Error.upTo_compat _ _ _ _ Ec) in M.
  assert (Pp : 0 < f * g) by now apply Qmult_lt_0_compat.
  assert (C := Binary64Error.upTo_trans (17 + 17) 17 (f * g) _ fg PFG Pfg M
                 (Binary64Error.upTo_sym _ _ _ U3)).
  destruct C as [C1 C2]. cbn [Nat.add] in C1, C2.
  assert (T51 := tol_51).
  split.
  - assert (fg * Binary64.tol 51 <= fg * (1 + Binary64.twoTo (-47)))
      by (apply Qmult_le_l; assumption).
    lra.
  - assert (f * g * Binary64.tol 51 <= f * g * (1 + Binary64.twoTo (-47)))
      by (apply Qmult_le_l; assumption).
    lra.
Qed.

Lemma calculatedMoldFactor_compose_witness :
  exists f g fg : Q,
    Binary64.calculatedMoldFactor (Binary64.moldOf circular 10 6 0 0)
      (Binary64.moldOf circular 20 8 0 0) = JS.Fin f
    /\ Binary64.calculatedMoldFactor (Binary64.moldOf circular 20 8 0 0)
         (Binary64.moldOf circular 15 7.5 0 0) = JS.Fin g
    /\ Binary64.calculatedMoldFactor (Binary64.moldOf circular 10 6 0 0)
         (Binary64.moldOf circular 15 7.5 0 0) = JS.Fin fg
    /\ 0 < fg
    /\ f * g <= fg * (1 + Binary64.twoTo (-47))
    /\ fg <= f * g * (1 + Binary64.twoTo (-47)).
Proof.
  apply (calculatedMoldFactor_compose circular circular circular
           10 6 0 0 20 8 0 0 15 7.5 0 0).
  - split; [right; split; discriminate | split; discriminate].
  - split; [right; split; discriminate | split; discriminate].
  - split; [right; split; discriminate | split; discriminate].
Defined.

(** ** The target quantity and the yield factor *)

Section TargetQuantity.
Import JS JSFacts.


End TargetQuantity.



(** X5.  Selecting a recipe sets the target quantity to the recipe's own
    quantity (or 1), so the scaling view opens at factor 1: this holds for a
    missing, zero or NaN quantity and for every finite one, negative ones
    included.  Without a recipe for the chosen id the target is kept. *)
Theorem selectTarget_factor_one (r : Recipe.t) (targetQuantity : JS.number) :
  (Recipe.quantity r <> Some JS.PInf ->
   Recipe.quantity r <> Some JS.NInf ->
   JS.same (scalingFactor (Some r) (selectTarget (Some r) targetQuantity))
           (JS.Fin 1))
  /\ selectTarget None targetQuantity = targetQuantity.
Proof.
  split; [|reflexivity].
  intros Hp Hn. unfold scalingFactor, selectTarget, quantityOr1, JS.or_else.
  destruct (Recipe.quantity r) as [[q| | |]|]; try reflexivity;
    try congruence.
  cbn [JS.truthy].
  destruct (Qeq_bool q 0) eqn:Ez; cbn [negb]; [reflexivity|].
  unfold JS.div. rewrite Ez. simpl.
  apply JSFacts.Qeq_bool_false in Ez. now field.
Qed.

Lemma selectTarget_factor_one_witness :
  JS.same
    (scalingFactor (Some custardBun) (selectTarget (Some custardBun) (JS.Fin 9)))
    (JS.Fin 1)
  /\ JS.same
       (scalingFactor (Some (recipeOfQuantity None))
          (selectTarget (Some (recipeOfQuantity None)) (JS.Fin 9)))
       (JS.Fin 1).
Proof.
  split.
  - apply (proj1 (selectTarget_factor_one custardBun (JS.Fin 9)));
      discriminate.
  - apply (proj1 (selectTarget_factor_one (recipeOfQuantity None) (JS.Fin 9)));
      discriminate.
Defined.

(** X6.  For a recipe whose quantity is above zero the yield factor is
    linear in the target quantity up to the rounding of the arithmetic: a
    target [k] times as large gives a factor [k] times as large with a
    relative error of at most 2^-50, for quantities and targets between
    2^-100 and 2^100. *)
Theorem scalingFactor_linear (r : Recipe.t) (s t k : Q) :
  Recipe.quantity r = Some (Binary64.round s) ->
  Binary64.inRange 100 s -> Binary64.inRange 100 t ->
  Binary64.inRange 100 (k * t) -> 0 < k ->
  exists f f' : Q,
    Binary64.scalingFactor (Some r) (Binary64.round t) = JS.Fin f
    /\ Binary64.scalingFactor (Some r) (Binary64.round (k * t)) = JS.Fin f'
    /\ 0 < f
    /\ f' <= k * f * (1 + Binary64.twoTo (-50))
    /\ k * f <= f' * (1 + Binary64.twoTo (-50)).
Proof.
  intros Hq Rs Rt Rkt Hk.
  assert (Ts := Binary64Error.tracked_round 100 s ltac:(lia) Rs).
  assert (Tt := Binary64Error.tracked_round 100 t ltac:(lia) Rt).
  assert (Tkt := Binary64Error.tracked_round 100 (k * t) ltac:(lia) Rkt).
  assert (D := Binary64Error.div_tracked 1 1 100 100 _ _ _ _
                 ltac:(lia) ltac:(lia) ltac:(lia) ltac:(lia) Tt Ts).
  assert (D' := Binary64Error.div_tracked 1 1 100 100 _ _ _ _
                  ltac:(lia) ltac:(lia) ltac:(lia) ltac:(lia) Tkt Ts).
  destruct (Binary64Error.tracked_pos _ _ _ _ Ts) as (qs & Es & Ps & PS & _).
  assert (Etr : JS.truthy (Binary64.round s) = true).
  { rewrite Es. cbn [JS.truthy].
    destruct (Qeq_bool qs 0) eqn:C; [|reflexivity].
    apply Qeq_bool_iff in C. lra. }
  unfold Binary64.scalingFactor. rewrite Hq, Etr.
  destruct (Binary64Error.tracked_pos _ _ _ _ D) as (f & -> & Pf & PF & U).
  destruct (Binary64Error.tracked_pos _ _ _ _ D') as (f' & -> & Pf' & PF' & U').
  exists f, f'. split; [reflexivity|]. split; [reflexivity|].
  split; [exact Pf|].
  assert (Uk : Binary64.upTo 3 (k * f) (k * t / s)).
  { destruct U as [U1 U2]. split.
    - setoid_replace (k * t / s) with (k * (t / s)) by (field; lra).
      setoid_replace (k * f * Binary64.tol 3) with (k * (f * Binary64.tol 3))
        by ring.
      apply Qmult_le_l; assumption.
    - setoid_replace (k * t / s * Binary64.tol 3)
        with (k * (t / s * Binary64.tol 3)) by (field; lra).
      apply Qmult_le_l; assumption. }
  assert (Pkf : 0 < k * f) by now apply Qmult_lt_0_compat.
  assert (C := Binary64Error.upTo_trans 3 3 f' _ (k * f) PF' Pkf U'
                 (Binary64Error.upTo_sym _ _ _ Uk)).
  destruct C as [C1 C2]. cbn [Nat.add] in C1, C2.
  assert (T6 := tol_6).
  split.
  - assert (k * f * Binary64.tol 6 <= k * f * (1 + Binary64.twoTo (-50)))
      by (apply Qmult_le_l; assumption).
    lra.
  - assert (f' * Binary64.tol 6 <= f' * (1 + Binary64.twoTo (-50)))
      by (apply Qmult_le_l; assumption).
    lra.
Qed.

Lemma scalingFactor_linear_witness :
  exists f f' : Q,
    Binary64.scalingFactor (Some (recipeOfQuantity (Some (JS.Fin 3))))
      (Binary64.round 7) = JS.Fin f
    /\ Binary64.scalingFactor (Some (recipeOfQuantity (Some (JS.Fin 3))))
         (Binary64.round (10 * 7)) = JS.Fin f'
    /\ 0 < f
    /\ f' <= 10 * f * (1 + Binary64.twoTo (-50))
    /\ 10 * f <= f' * (1 + Binary64.twoTo (-50)).
Proof.
  apply (scalingFactor_linear (recipeOfQuantity (Some (JS.Fin 3))) 3 7 10).
  - reflexivity.
  - split; discriminate.
  - split; discriminate.
  - split; discriminate.
  - reflexivity.
Defined.

(** ** Amounts, percentages and the order of the ingredients *)

Section AmountFacts.
Import JS JSFacts.


(** The row and the base read the amount of an ingredient by two different
    expressions; they give the same number. *)
Lemma numericAmt_baseAmount (x : Ingredient.t) :
  same (numericAmt x) (baseAmount x).
Proof.
  unfold numericAmt, baseAmount, or_else.
  destruct (Ingredient.amount x) as [n|s]; [apply same_refl|].
  destruct (parseFloat s) as [q| | |]; cbn [isNaN truthy].
  - destruct (Qeq_bool q 0) eqn:E; cbn [negb same]; [|reflexivity].
    now apply Qeq_bool_iff in E.
  - exact I.
  - exact I.
  - reflexivity.
Qed.

End AmountFacts.

Section FullPercent.
Import JS JSFacts StringFacts.

Variable NumberToString : Q -> string.


End FullPercent.

(** X7.  The amount of an ingredient is read twice, by
    [parseFloat(amount) || 0] for the base of the section and by
    [isNaN(parsed) ? 0 : parsed] for its row: for every ingredient the two
    give the same number, so the base and the percentages are computed from
    the same amounts. *)
Theorem numericAmt_is_baseAmount (x : Ingredient.t) :
  JS.same (numericAmt x) (baseAmount x)
  /\ hasValidAmt x = JS.gt (baseAmount x) (JS.Fin 0).
Proof.
  split; [apply numericAmt_baseAmount|].
  unfold hasValidAmt, JS.gt.
  apply JSFacts.lt_same_r, numericAmt_baseAmount.
Qed.



(** ** The base of a section up to rounding *)

Section BaseRounding.
Import JS JSFacts Binary64 Binary64Facts Binary64Error Binary64.

Lemma lt_same_l (a b c : number) : same a b -> lt a c = lt b c.
Proof.
  destruct a, b, c; simpl; auto; try contradiction.
  intro H. unfold Qlt_bool. f_equal.
  apply Qle_bool_comp; [reflexivity | exact H].
Qed.

(** The greater of two numbers, as the loop takes it. *)
Lemma greater_swap (m a b : number) :
  same (if gt b (if gt a m then a else m) then b
        else if gt a m then a else m)
       (if gt a (if gt b m then b else m) then a
        else if gt b m then b else m).
Proof.
  unfold gt.
  destruct m as [m| | |], a as [a| | |], b as [b| | |]; cbn [lt];
    repeat match goal with
           | |- context [Qlt_bool ?x ?y] =>
               let E := fresh "E" in destruct (Qlt_bool x y) eqn:E; cbn [lt]
           end;
    cbn [same]; try exact I; try reflexivity; qbool; try lra.
Qed.

Lemma maxWeight_step64 (st : BaseLoop) (x : Ingredient.t) :
  maxWeight (Binary64.baseLoopStep st x)
  = if gt (Binary64.baseAmount x) (maxWeight st)
    then Binary64.baseAmount x else maxWeight st.
Proof.
  unfold Binary64.baseLoopStep.
  destruct (gt (Binary64.baseAmount x) (maxWeight st)); reflexivity.
Qed.

Lemma flourTotal_step64 (st : BaseLoop) (x : Ingredient.t) :
  flourTotal (Binary64.baseLoopStep st x)
  = if Ingredient.isFlour x
    then Binary64.add (flourTotal st) (Binary64.baseAmount x)
    else flourTotal st.
Proof.
  unfold Binary64.baseLoopStep.
  destruct (gt (Binary64.baseAmount x) (maxWeight st)); reflexivity.
Qed.

Lemma same_refl64 (a : number) : same a a.
Proof. destruct a; simpl; auto. reflexivity. Qed.

Lemma maxWeight_fold_compat (l : list Ingredient.t) (st st' : BaseLoop) :
  same (maxWeight st) (maxWeight st') ->
  same (maxWeight (fold_left Binary64.baseLoopStep l st))
       (maxWeight (fold_left Binary64.baseLoopStep l st')).
Proof.
  revert st st'. induction l as [|x l IH]; intros st st' H; [exact H|].
  cbn [fold_left]. apply IH. rewrite !maxWeight_step64.
  unfold gt. rewrite (lt_same_l _ _ _ H).
  destruct (lt (maxWeight st') (Binary64.baseAmount x));
    [apply same_refl64 | exact H].
Qed.

Lemma maxWeight_perm64 (l l' : list Ingredient.t) :
  Permutation l l' ->
  forall st st', same (maxWeight st) (maxWeight st') ->
    same (maxWeight (fold_left Binary64.baseLoopStep l st))
         (maxWeight (fold_left Binary64.baseLoopStep l' st')).
Proof.
  induction 1 as [|x l l' _ IH|x y l|l l' l'' _ IH1 _ IH2]; intros st st' H.
  - exact H.
  - cbn [fold_left]. apply IH. rewrite !maxWeight_step64.
    unfold gt. rewrite (lt_same_l _ _ _ H).
    destruct (lt (maxWeight st') (Binary64.baseAmount x));
      [apply same_refl64 | exact H].
  - cbn [fold_left]. apply maxWeight_fold_compat.
    rewrite !maxWeight_step64.
    eapply same_trans; [apply greater_swap|].
    unfold gt. rewrite !(lt_same_l _ _ _ H).
    destruct (lt (maxWeight st') (Binary64.baseAmount x)) eqn:Ex.
    + destruct (lt (Binary64.baseAmount x) (Binary64.baseAmount y));
        apply same_refl64.
    + rewrite (lt_same_l _ _ _ H).
      destruct (lt (maxWeight st') (Binary64.baseAmount y)) eqn:Ey;
        [apply same_refl64 | exact H].
  - eapply same_trans; [apply IH1, same_refl64 | now apply IH2].
Qed.

Lemma flourTotal_none (l : list Ingredient.t) (st : BaseLoop) :
  flourCount l = 0%nat ->
  flourTotal (fold_left Binary64.baseLoopStep l st) = flourTotal st.
Proof.
  revert st. induction l as [|x l IH]; intros st H; [reflexivity|].
  unfold flourCount in H. cbn [filter] in H.
  destruct (Ingredient.isFlour x) eqn:Ex; [discriminate|].
  cbn [fold_left]. rewrite (IH _ H), flourTotal_step64, Ex. reflexivity.
Qed.

Lemma add_tracked (n : nat) (b : Z) (s : number) (X0 a : Q) :
  (n < 64)%nat -> (100 <= b <= 1020)%Z ->
  tracked n b s X0 -> inRange 100 a ->
  tracked (Datatypes.S n) (b + 1) (Binary64.add s (Fin a)) (X0 + a).
Proof.
  intros Hn Hb (x1 & -> & RX & [U1 U2]) Ra.
  assert (Pa := inRange_pos 100 a Ra).
  assert (PS := inRange_pos b X0 RX).
  destruct RX as [L U]. destruct Ra as [La Ua].
  assert (T1 := tol_ge1 n). assert (Tp := tol_pos n).
  unfold Binary64.add. cbn [JS.add rnd].
  apply round_tracked; [exact Hn | lia | |].
  - split.
    + assert (twoTo (- (b + 1)) <= twoTo (- b)) by (apply twoTo_le; lia).
      lra.
    + rewrite twoTo_succ.
      assert (twoTo 100 <= twoTo b) by (apply twoTo_le; lia).
      change (twoTo (- (100))) with (twoTo (-100)) in La. lra.
  - assert (Px : 0 < x1).
    { apply (upTo_pos n x1 X0 PS). split; assumption. }
    split.
    + assert (a <= a * tol n).
      { setoid_replace a with (a * 1) at 1 by ring.
        apply Qmult_le_l; assumption. }
      setoid_replace ((x1 + a) * tol n) with (x1 * tol n + a * tol n) by ring.
      lra.
    + assert (a <= a * tol n).
      { setoid_replace a with (a * 1) at 1 by ring.
        apply Qmult_le_l; assumption. }
      setoid_replace ((X0 + a) * tol n) with (X0 * tol n + a * tol n) by ring.
      lra.
Qed.

Lemma flourInRange_tail (x : Ingredient.t) (l : list Ingredient.t) :
  flourInRange (x :: l) -> flourInRange l.
Proof. intros H y Hy. apply H. now right. Qed.

Lemma flourCount_cons (x : Ingredient.t) (l : list Ingredient.t) :
  flourCount (x :: l)
  = if Ingredient.isFlour x then Datatypes.S (flourCount l) else flourCount l.
Proof.
  unfold flourCount. cbn [filter].
  destruct (Ingredient.isFlour x); reflexivity.
Qed.

Lemma flourTotal_tracked (l : list Ingredient.t) :
  flourInRange l ->
  forall (st : BaseLoop) (n : nat) (b : Z) (X0 : Q),
    tracked n b (flourTotal st) X0 ->
    (100 <= b)%Z -> (n + flourCount l < 65)%nat ->
    (b + Z.of_nat (flourCount l) <= 1021)%Z ->
    tracked (n + flourCount l) (b + Z.of_nat (flourCount l))
      (flourTotal (fold_left Binary64.baseLoopStep l st)) (X0 + flourSum l).
Proof.
  induction l as [|x l IH]; intros HR st n b X0 T Hb Hn Hbc.
  - cbn. rewrite Nat.add_0_r, Z.add_0_r.
    apply (tracked_compat n b _ X0); [ring | exact T].
  - cbn [fold_left flourSum fold_right]. fold (flourSum l).
    rewrite flourCount_cons in *.
    destruct (Ingredient.isFlour x) eqn:Ex.
    + destruct (HR x (or_introl eq_refl) Ex) as (a & Ea & Ra).
      assert (T' : tracked (Datatypes.S n) (b + 1)
                     (flourTotal (Binary64.baseLoopStep st x)) (X0 + a)).
      { rewrite flourTotal_step64, Ex, Ea.
        apply add_tracked; [lia | lia | exact T | exact Ra]. }
      assert (R := IH (flourInRange_tail x l HR) _ _ _ _ T'
                     ltac:(lia) ltac:(lia) ltac:(lia)).
      rewrite Ea. cbn [valueOf].
      replace (n + Datatypes.S (flourCount l))%nat
        with (Datatypes.S n + flourCount l)%nat by lia.
      replace (b + Z.of_nat (Datatypes.S (flourCount l)))%Z
        with (b + 1 + Z.of_nat (flourCount l))%Z by lia.
      apply (tracked_compat _ _ _ (X0 + a + flourSum l)); [ring | exact R].
    + apply (IH (flourInRange_tail x l HR)); try assumption.
      now rewrite flourTotal_step64, Ex.
Qed.

Lemma flourTotal_from_zero (l : list Ingredient.t) :
  flourInRange l ->
  forall st : BaseLoop,
    flourTotal st = Fin 0 ->
    (0 < flourCount l < 64)%nat ->
    tracked (flourCount l) (100 + Z.of_nat (flourCount l))
      (flourTotal (fold_left Binary64.baseLoopStep l st)) (flourSum l).
Proof.
  induction l as [|x l IH]; intros HR st H0 Hc.
  - cbn in Hc. lia.
  - cbn [fold_left flourSum fold_right]. fold (flourSum l).
    rewrite flourCount_cons in *.
    destruct (Ingredient.isFlour x) eqn:Ex.
    + destruct (HR x (or_introl eq_refl) Ex) as (a & Ea & Ra).
      assert (T' : tracked 1 101
                     (flourTotal (Binary64.baseLoopStep st x)) a).
      { rewrite flourTotal_step64, Ex, Ea, H0.
        unfold Binary64.add. cbn [JS.add rnd].
        rewrite (round_compat (0 + a) a) by ring.
        apply (tracked_weaken 1 1 100 101); [lia | lia|].
        apply tracked_round; [lia | exact Ra]. }
      assert (R := flourTotal_tracked l (flourInRange_tail x l HR) _ _ _ _ T'
                     ltac:(lia) ltac:(lia) ltac:(lia)).
      rewrite Ea. cbn [valueOf].
      replace (Datatypes.S (flourCount l)) with (1 + flourCount l)%nat by lia.
      replace (100 + Z.of_nat (1 + flourCount l))%Z
        with (101 + Z.of_nat (flourCount l))%Z by lia.
      exact R.
    + apply (IH (flourInRange_tail x l HR)); [|exact Hc].
      now rewrite flourTotal_step64, Ex.
Qed.

Lemma flourSum_perm (l l' : list Ingredient.t) :
  Permutation l l' -> flourSum l == flourSum l'.
Proof.
  induction 1 as [|x l l' _ IH|x y l|l l' l'' _ IH1 _ IH2].
  - reflexivity.
  - cbn [flourSum fold_right]. fold (flourSum l) (flourSum l').
    destruct (Ingredient.isFlour x); now rewrite IH.
  - cbn [flourSum fold_right]. fold (flourSum l).
    destruct (Ingredient.isFlour x), (Ingredient.isFlour y);
      try reflexivity. ring.
  - now rewrite IH1.
Qed.

Lemma flourCount_perm (l l' : list Ingredient.t) :
  Permutation l l' -> flourCount l = flourCount l'.
Proof.
  induction 1 as [|x l l' _ IH|x y l|l l' l'' _ IH1 _ IH2].
  - reflexivity.
  - rewrite !flourCount_cons, IH. reflexivity.
  - rewrite !flourCount_cons.
    destruct (Ingredient.isFlour x), (Ingredient.isFlour y); reflexivity.
  - congruence.
Qed.

Lemma flourCount_le (l : list Ingredient.t) :
  (flourCount l <= List.length l)%nat.
Proof. apply filter_length_le. Qed.

Lemma tol_60 : tol 60 <= 1 + twoTo (-46).
Proof. vm_compute. discriminate. Qed.

(** The weight of the base after a reordering. *)
Lemma localBase_weight_reordered64 (l l' : list Ingredient.t) :
  Permutation l l' -> (List.length l <= 30)%nat -> flourInRange l ->
  (flourCount l = 0%nat ->
   same (LocalBase.weight (Binary64.localBase l))
        (LocalBase.weight (Binary64.localBase l')))
  /\ ((0 < flourCount l)%nat ->
      closeTo (twoTo (-46))
        (LocalBase.weight (Binary64.localBase l))
        (LocalBase.weight (Binary64.localBase l'))).
Proof.
  intros HP Hlen HR.
  assert (Hc := flourCount_perm l l' HP).
  assert (HR' : flourInRange l').
  { intros x Hx. apply HR. apply (Permutation_in _ (Permutation_sym HP) Hx). }
  unfold Binary64.localBase. split.
  - intro H0.
    rewrite (flourTotal_none l baseLoopInit H0).
    rewrite (flourTotal_none l' baseLoopInit) by congruence.
    cbn [flourTotal baseLoopInit]. change (gt (Fin 0) (Fin 0)) with false.
    cbn [LocalBase.weight].
    assert (M := maxWeight_perm64 l l' HP baseLoopInit baseLoopInit
                   (same_refl64 _)).
    unfold or_else.
    assert (Et : truthy (maxWeight (fold_left Binary64.baseLoopStep l
                                      baseLoopInit))
                 = truthy (maxWeight (fold_left Binary64.baseLoopStep l'
                                        baseLoopInit))).
    { destruct (maxWeight (fold_left Binary64.baseLoopStep l baseLoopInit)),
        (maxWeight (fold_left Binary64.baseLoopStep l' baseLoopInit));
        cbn [same truthy] in *; try contradiction; try reflexivity.
      f_equal. now apply Qeq_bool_comp. }
    rewrite Et.
    destruct (truthy (maxWeight (fold_left Binary64.baseLoopStep l'
                                   baseLoopInit)));
      [exact M | reflexivity].
  - intro Hpos.
    assert (Hl := flourCount_le l).
    assert (T := flourTotal_from_zero l HR baseLoopInit eq_refl
                   ltac:(lia)).
    assert (T' := flourTotal_from_zero l' HR' baseLoopInit eq_refl
                    ltac:(lia)).
    destruct (tracked_pos _ _ _ _ T) as (x & Ex & Px & _).
    destruct (tracked_pos _ _ _ _ T') as (y & Ey & Py & _).
    assert (Gx : gt (Fin x) (Fin 0) = true) by (apply Qlt_bool_true; exact Px).
    assert (Gy : gt (Fin y) (Fin 0) = true) by (apply Qlt_bool_true; exact Py).
    rewrite Ex, Ey, Gx, Gy. cbn [LocalBase.weight].
    rewrite <- Ex, <- Ey.
    assert (Hn : (flourCount l + flourCount l' <= 60)%nat) by lia.
    apply (closeTo_of_tracked (flourCount l) (flourCount l') _ _ _ _ _ _ _
             (flourSum_perm l l' HP)
             (Qle_trans _ _ _ (tol_le _ 60 Hn) tol_60) T T').
Qed.

End BaseRounding.

(** X9.  The weight of the base depends on the order of the ingredients
    only through the rounding of the flour total.  In a section of at most
    30 ingredients whose flour amounts are between 2^-100 and 2^100, a
    reordering leaves the weight as it is when no ingredient is flagged as
    flour (the weight is the greatest amount), and changes it by a relative
    error of at most 2^-46 otherwise. *)
Theorem localBase_weight_permutation (l l' : list Ingredient.t) :
  Permutation l l' -> (List.length l <= 30)%nat ->
  Binary64.flourInRange l ->
  (Binary64.flourCount l = 0%nat ->
   JS.same (LocalBase.weight (Binary64.localBase l))
           (LocalBase.weight (Binary64.localBase l')))
  /\ ((0 < Binary64.flourCount l)%nat ->
      Binary64.closeTo (Binary64.twoTo (-46))
        (LocalBase.weight (Binary64.localBase l))
        (LocalBase.weight (Binary64.localBase l'))).
Proof. exact (localBase_weight_reordered64 l l'). Qed.

Lemma localBase_weight_permutation_witness :
  let a := Ingredient.mk "rye" (AmtNum (Binary64.round 0.3)) "g" true in
  let b := Ingredient.mk "spelt" (AmtNum (Binary64.round 10.9)) "g" true in
  let c := Ingredient.mk "wheat" (AmtNum (Binary64.round 12.8)) "g" true in
  let w := Ingredient.mk "water" (AmtNum (Binary64.round 36.3)) "g" false in
  Binary64.closeTo (Binary64.twoTo (-46))
    (LocalBase.weight (Binary64.localBase [a; b; c; w]))
    (LocalBase.weight (Binary64.localBase [b; a; c; w])).
Proof.
  intros a b c w.
  refine (proj2 (localBase_weight_permutation [a; b; c; w] [b; a; c; w]
                   _ _ _) _).
  - apply perm_swap.
  - simpl. lia.
  - intros x [<-|[<-|[<-|[<-|[]]]]] Hx; try discriminate;
      (eexists; split; [vm_compute; reflexivity | split; discriminate]).
  - vm_compute. lia.
Defined.

(** The order of the flours can change a displayed percentage: the same
    four ingredients show the water at 151.3% or at 151.2%. *)
Example flour_order_changes_percent :
  let a := Ingredient.mk "rye" (AmtNum (Binary64.round 0.3)) "g" true in
  let b := Ingredient.mk "spelt" (AmtNum (Binary64.round 10.9)) "g" true in
  let c := Ingredient.mk "wheat" (AmtNum (Binary64.round 12.8)) "g" true in
  let w := Ingredient.mk "water" (AmtNum (Binary64.round 36.3)) "g" false in
  Permutation [a; b; c; w] [c; b; a; w]
  /\ Binary64.percentCell (fun _ => "") true true
       (Binary64.localBase [a; b; c; w]) w = PercentText "151.3%"
  /\ Binary64.percentCell (fun _ => "") true true
       (Binary64.localBase [c; b; a; w]) w = PercentText "151.2%".
Proof.
  intros a b c w. split; [|split; vm_compute; reflexivity].
  apply (perm_trans (l' := [b; a; c; w])); [apply perm_swap|].
  apply (perm_trans (l' := [b; c; a; w]));
    [apply perm_skip, perm_swap | apply perm_swap].
Qed.

(** ** Moving ingredients and sections *)

Section MoveFacts.

Context {A : Type}.

Lemma arrayGet_cons (x : option A) (l : array A) (i : nat) :
  arrayGet (x :: l) (S i) = arrayGet l i.
Proof. reflexivity. Qed.

Lemma swapAdjacent_length (l : list A) (i : nat) :
  List.length (swapAdjacent l i) = List.length l.
Proof.
  revert i. induction l as [|x l IH]; intro i; [destruct i; reflexivity|].
  destruct i as [|i].
  - destruct l; reflexivity.
  - simpl. now rewrite IH.
Qed.

Lemma swapAdjacent_perm (l : list A) (i : nat) :
  Permutation l (swapAdjacent l i).
Proof.
  revert i. induction l as [|x l IH]; intro i; [destruct i; reflexivity|].
  destruct i as [|i].
  - destruct l; [reflexivity | apply perm_swap].
  - simpl. apply perm_skip, IH.
Qed.

Lemma swapAdjacent_involutive (l : list A) (i : nat) :
  swapAdjacent (swapAdjacent l i) i = l.
Proof.
  revert i. induction l as [|x l IH]; intro i; [destruct i; reflexivity|].
  destruct i as [|i].
  - destruct l; reflexivity.
  - simpl. now rewrite IH.
Qed.

Lemma swapAdjacent_past_end (l : list A) (i : nat) :
  (List.length l <= i + 1)%nat -> swapAdjacent l i = l.
Proof.
  revert i. induction l as [|x l IH]; intros i H; [destruct i; reflexivity|].
  destruct i as [|i].
  - destruct l; [reflexivity | simpl in H; lia].
  - simpl. rewrite IH; [reflexivity | simpl in H; lia].
Qed.

(** The two assignments of ['down'] exchange the elements at [i], [i + 1]. *)
Lemma arraySet_down (l : list A) (i : nat) :
  (i + 1 < List.length l)%nat ->
  arraySet (arraySet (map Some l) i (arrayGet (map Some l) (i + 1)))
           (i + 1) (arrayGet (map Some l) i)
  = map Some (swapAdjacent l i).
Proof.
  revert i. induction l as [|x l IH]; intros i H; [simpl in H; lia|].
  destruct i as [|i].
  - destruct l as [|y l]; [simpl in H; lia | reflexivity].
  - simpl in H. cbn [map Nat.add]. rewrite !arrayGet_cons.
    cbn [arraySet swapAdjacent map]. f_equal. apply IH. lia.
Qed.

(** The two assignments of ['up'] exchange the elements at [i], [i + 1],
    where [i + 1] is the index given. *)
Lemma arraySet_up (l : list A) (i : nat) :
  (i + 1 < List.length l)%nat ->
  arraySet (arraySet (map Some l) (S i) (arrayGet (map Some l) i))
           i (arrayGet (map Some l) (S i))
  = map Some (swapAdjacent l i).
Proof.
  revert i. induction l as [|x l IH]; intros i H; [simpl in H; lia|].
  destruct i as [|i].
  - destruct l as [|y l]; [simpl in H; lia | reflexivity].
  - simpl in H. cbn [map]. rewrite !arrayGet_cons.
    cbn [arraySet swapAdjacent map]. f_equal. apply IH. lia.
Qed.

(** With an index of the list, a move gives the list itself or the list with
    two neighbours exchanged. *)
Lemma moveItem_some (l : list A) (index : nat) (direction : Direction) :
  (index < List.length l)%nat ->
  moveItem (map Some l) index direction
  = map Some
      (match direction with
       | up => match index with O => l | S i => swapAdjacent l i end
       | down => swapAdjacent l index
       end).
Proof.
  intro H. unfold moveItem. destruct direction.
  - destruct index as [|i]; [reflexivity|].
    cbn [Nat.ltb Nat.leb]. replace (S i - 1)%nat with i by lia.
    apply arraySet_up. lia.
  - rewrite length_map.
    destruct (Z.ltb_spec (Z.of_nat index) (Z.of_nat (List.length l) - 1)).
    + apply arraySet_down. lia.
    + rewrite swapAdjacent_past_end by lia. reflexivity.
Qed.

End MoveFacts.

(** X10.  Moving an ingredient of a section up or down never loses,
    duplicates or blanks an ingredient: the result is a reordering of the
    same ingredients, and the first one moved up and the last one moved
    down stay where they are.  The weight of the section's base after the
    move is the one before up to the rounding of the flour total: the same
    when no ingredient is flagged as flour, and within a relative error of
    2^-46 otherwise, in a section of at most 30 ingredients whose flour
    amounts are between 2^-100 and 2^100. *)
Theorem moveIngredient_reorders (items : list Ingredient.t) (index : nat)
    (direction : Direction) :
  (index < List.length items)%nat ->
  (exists items',
      moveIngredient items index direction = map Some items'
      /\ Permutation items items'
      /\ ((List.length items <= 30)%nat -> Binary64.flourInRange items ->
          (Binary64.flourCount items = 0%nat ->
           JS.same (LocalBase.weight (Binary64.localBase items))
                   (LocalBase.weight (Binary64.localBase items')))
          /\ ((0 < Binary64.flourCount items)%nat ->
              Binary64.closeTo (Binary64.twoTo (-46))
                (LocalBase.weight (Binary64.localBase items))
                (LocalBase.weight (Binary64.localBase items')))))
  /\ moveIngredient items 0 up = map Some items
  /\ moveIngredient items (List.length items - 1) down = map Some items.
Proof.
  intro H. split; [|split].
  - unfold moveIngredient. rewrite (moveItem_some items index direction H).
    eexists. split; [reflexivity|].
    assert (HP : Permutation items
                   match direction with
                   | up => match index with
                           | O => items
                           | S i => swapAdjacent items i
                           end
                   | down => swapAdjacent items index
                   end).
    { destruct direction; [destruct index|];
        auto using swapAdjacent_perm, Permutation_refl. }
    split; [exact HP|]. intros L R.
    now apply localBase_weight_reordered64.
  - reflexivity.
  - unfold moveIngredient.
    rewrite (moveItem_some items (List.length items - 1) down) by lia.
    rewrite swapAdjacent_past_end by lia. reflexivity.
Qed.

Lemma moveIngredient_reorders_witness :
  let flour := Ingredient.mk "flour" (AmtNum (JS.Fin 500)) "g" true in
  let water := Ingredient.mk "water" (AmtNum (JS.Fin 350)) "g" false in
  let salt := Ingredient.mk "salt" (AmtStr "適量") "g" false in
  exists items',
    moveIngredient [flour; water; salt] 2 up = map Some items'
    /\ Permutation [flour; water; salt] items'
    /\ ((List.length [flour; water; salt] <= 30)%nat ->
        Binary64.flourInRange [flour; water; salt] ->
        (Binary64.flourCount [flour; water; salt] = 0%nat ->
         JS.same (LocalBase.weight (Binary64.localBase [flour; water; salt]))
                 (LocalBase.weight (Binary64.localBase items')))
        /\ ((0 < Binary64.flourCount [flour; water; salt])%nat ->
            Binary64.closeTo (Binary64.twoTo (-46))
              (LocalBase.weight (Binary64.localBase [flour; water; salt]))
              (LocalBase.weight (Binary64.localBase items')))).
Proof.
  intros flour water salt.
  apply (proj1 (moveIngredient_reorders [flour; water; salt] 2 up
                  (Nat.lt_succ_diag_r 2))).
Defined.

(** X11.  A move is undone by the opposite move: moving an ingredient up and
    then moving it down from its new place, or down and then up, gives the
    list back as it was. *)
Theorem moveIngredient_undo (items : list Ingredient.t) (index : nat) :
  ((0 < index)%nat -> (index < List.length items)%nat ->
   moveItem (moveIngredient items index up) (index - 1) down
   = map Some items)
  /\ ((index + 1 < List.length items)%nat ->
      moveItem (moveIngredient items index down) (index + 1) up
      = map Some items).
Proof.
  unfold moveIngredient. split.
  - intros H0 H. destruct index as [|i]; [lia|].
    rewrite (moveItem_some items (S i) up H).
    replace (S i - 1)%nat with i by lia.
    rewrite (moveItem_some (swapAdjacent items i) i down)
      by (rewrite swapAdjacent_length; lia).
    now rewrite swapAdjacent_involutive.
  - intro H.
    rewrite (moveItem_some items index down) by lia.
    replace (index + 1)%nat with (S index) by lia.
    rewrite (moveItem_some (swapAdjacent items index) (S index) up)
      by (rewrite swapAdjacent_length; lia).
    now rewrite swapAdjacent_involutive.
Qed.

Lemma moveIngredient_undo_witness :
  let flour := Ingredient.mk "flour" (AmtNum (JS.Fin 500)) "g" true in
  let water := Ingredient.mk "water" (AmtNum (JS.Fin 350)) "g" false in
  moveItem (moveIngredient [flour; water] 1 up) (1 - 1) down
  = map Some [flour; water]
  /\ moveItem (moveIngredient [flour; water] 0 down) (0 + 1) up
     = map Some [flour; water].
Proof.
  intros flour water. split.
  - apply (proj1 (moveIngredient_undo [flour; water] 1)); repeat constructor.
  - apply (proj2 (moveIngredient_undo [flour; water] 0)); repeat constructor.
Defined.

(** X12.  Moving a section keeps the section keys: the new order is a
    reordering of the old one (of the default order when the recipe has
    none), so an order that lists each of the five sections once still does
    after the move, and the scaling view shows the same rendered sections in
    the new order. *)
Theorem moveSection_reorders (NumberToString : Q -> string)
    (sectionsOrder : option (list string)) (index : nat)
    (direction : Direction) (r : Recipe.t) (factor : JS.number) :
  let order := match sectionsOrder with
               | Some order => order
               | None => DEFAULT_SECTIONS_ORDER
               end in
  (index < List.length order)%nat ->
  exists order',
    moveSection sectionsOrder index direction = map Some order'
    /\ Permutation order order'
    /\ (Permutation DEFAULT_SECTIONS_ORDER order ->
        Permutation DEFAULT_SECTIONS_ORDER order')
    /\ Permutation (map (scalingSection NumberToString r factor) order)
                   (map (scalingSection NumberToString r factor) order').
Proof.
  intros order H. unfold moveSection. fold order.
  rewrite (moveItem_some order index direction H).
  eexists. split; [reflexivity|].
  assert (HP : Permutation order
                 match direction with
                 | up => match index with
                         | O => order
                         | S i => swapAdjacent order i
                         end
                 | down => swapAdjacent order index
                 end).
  { destruct direction; [destruct index|];
      auto using swapAdjacent_perm, Permutation_refl. }
  split; [exact HP|]. split.
  - intro HD. eapply Permutation_trans; eauto.
  - now apply Permutation_map.
Qed.

Lemma moveSection_reorders_witness :
  exists order',
    moveSection None 1 up = map Some order'
    /\ Permutation DEFAULT_SECTIONS_ORDER order'
    /\ (Permutation DEFAULT_SECTIONS_ORDER DEFAULT_SECTIONS_ORDER ->
        Permutation DEFAULT_SECTIONS_ORDER order')
    /\ Permutation
         (map (scalingSection (fun _ => "") custardBun (JS.Fin 1.5))
              DEFAULT_SECTIONS_ORDER)
         (map (scalingSection (fun _ => "") custardBun (JS.Fin 1.5)) order').
Proof.
  apply (moveSection_reorders (fun _ => "") None 1 up custardBun (JS.Fin 1.5)).
  repeat constructor.
Defined.

(** ** Reading back what [toFixed(2)] has written *)

Module ParseFacts.
Import StringFacts.

Lemma digitOf_digitChar (d : Z) :
  (0 <= d < 10)%Z -> digitOf (digitChar d) = Some d.
Proof.
  intro H.
  assert (C : (d = 0 \/ d = 1 \/ d = 2 \/ d = 3 \/ d = 4 \/ d = 5
               \/ d = 6 \/ d = 7 \/ d = 8 \/ d = 9)%Z) by lia.
  destruct C as [->|[->|[->|[->|[->|[->|[->|[->|[->| ->]]]]]]]]];
    reflexivity.
Qed.

Lemma digitsValue_snoc (ds : list Z) (d : Z) :
  digitsValue (ds ++ [d])%list = (10 * digitsValue ds + d)%Z.
Proof. unfold digitsValue. now rewrite fold_left_app. Qed.

Lemma takeDigits_cons (c : ascii) (d : Z) (s : string) :
  digitOf c = Some d ->
  takeDigits (String c s) = (d :: fst (takeDigits s), snd (takeDigits s)).
Proof.
  intro H. cbn [takeDigits]. rewrite H. now destruct (takeDigits s).
Qed.

(** The digits written for [n] are read back as [n], before whatever
    follows them. *)
Lemma takeDigits_decimal (n : Z) :
  (0 <= n)%Z ->
  exists ds,
    ds <> [] /\ digitsValue ds = n
    /\ forall s, takeDigits (decimal n ++ s)
                 = ((ds ++ fst (takeDigits s))%list, snd (takeDigits s)).
Proof.
  intro Hn. generalize Hn. pattern n.
  apply Z_lt_induction; [|exact Hn]. clear n Hn. intros n IH Hn.
  destruct (Z_lt_le_dec n 10) as [H|H].
  - exists [n]. split; [discriminate|]. split; [unfold digitsValue; simpl; lia|].
    intro s. rewrite (decimal_small n H). cbn [String.append].
    apply takeDigits_cons, digitOf_digitChar. lia.
  - destruct (IH (n / 10)%Z) as (ds & Hne & Hv & Ht).
    { split; [apply Z.div_pos; lia | apply Z.div_lt; lia]. }
    { apply Z.div_pos; lia. }
    exists (ds ++ [(n mod 10)%Z])%list. split; [destruct ds; discriminate|]. split.
    + rewrite digitsValue_snoc, Hv.
      pose proof (Z.div_mod n 10). lia.
    + intro s. rewrite (decimal_step n H), app_assoc, Ht.
      cbn [String.append].
      rewrite (takeDigits_cons _ (n mod 10) s)
        by (apply digitOf_digitChar, Z.mod_pos_bound; lia).
      cbn [fst snd]. now rewrite <- List.app_assoc.
Qed.

(** A string that begins with a digit or with a minus sign has nothing to
    trim, and a digit is no sign and no "Infinity". *)
Lemma trimStart_digit (c : ascii) (d : Z) (r : string) :
  digitOf c = Some d -> trimStart (String c r) = String c r.
Proof.
  intro H.
  destruct c as [[] [] [] [] [] [] [] []]; try discriminate H;
    destruct r as [|c2 [|c3 r3]]; reflexivity.
Qed.

Lemma trimStart_minus (r : string) :
  trimStart (String "-" r) = String "-" r.
Proof. destruct r as [|c2 [|c3 r3]]; reflexivity. Qed.

Lemma takeSign_digit (c : ascii) (d : Z) (r : string) :
  digitOf c = Some d -> takeSign (String c r) = (1%Z, String c r).
Proof.
  intro H.
  destruct c as [[] [] [] [] [] [] [] []]; try discriminate H; reflexivity.
Qed.

Lemma prefix_Infinity_digit (c : ascii) (d : Z) (r : string) :
  digitOf c = Some d -> String.prefix "Infinity" (String c r) = false.
Proof.
  intro H.
  destruct c as [[] [] [] [] [] [] [] []]; try discriminate H; reflexivity.
Qed.

Lemma decimal_head (n : Z) (s : string) :
  (0 <= n)%Z ->
  exists c r d, (decimal n ++ s)%string = String c r /\ digitOf c = Some d.
Proof.
  intro Hn. destruct (takeDigits_decimal n Hn) as (ds & Hne & _ & Ht).
  specialize (Ht s).
  destruct (decimal n ++ s)%string as [|c r] eqn:E.
  - cbn in Ht. destruct ds; [contradiction | discriminate].
  - exists c, r. cbn [takeDigits] in Ht.
    destruct (digitOf c) as [d|] eqn:Ed; [exists d; auto|].
    destruct ds; [contradiction | discriminate].
Qed.

(** What [parseFloat] reads in the digits of [a], a point and two more
    digits: the number they write. *)
Lemma parseFloat_unsigned_hundredths (a d1 d0 : Z) (sg : Z) (body : string) :
  (0 <= a)%Z -> (0 <= d1 < 10)%Z -> (0 <= d0 < 10)%Z ->
  body = (decimal a ++ "."
          ++ String (digitChar d1) (String (digitChar d0) ""))%string ->
  (if String.prefix "Infinity" body then
     (if (sg <? 0)%Z then JS.NInf else JS.PInf)
   else
     let '(ip, r1) := takeDigits body in
     match ip, r1 with
     | [], String "." r2 =>
         let '(fp, r3) := takeDigits r2 in
         match fp with
         | [] => JS.NaN
         | _ => JS.Fin (inject_Z sg * decimalValue [] fp r3)
         end
     | [], _ => JS.NaN
     | _, String "." r2 =>
         let '(fp, r3) := takeDigits r2 in
         JS.Fin (inject_Z sg * decimalValue ip fp r3)
     | _, _ => JS.Fin (inject_Z sg * decimalValue ip [] r1)
     end)
  = JS.Fin (inject_Z sg
            * (inject_Z (100 * a + 10 * d1 + d0) * Qpower (10 # 1) (0 - 2))).
Proof.
  intros Ha H1 H0 ->.
  destruct (decimal_head a
              ("." ++ String (digitChar d1) (String (digitChar d0) "")) Ha)
    as (c & r & d & E & Hd).
  rewrite E, (prefix_Infinity_digit c d r Hd), <- E.
  destruct (takeDigits_decimal a Ha) as (ds & Hne & Hv & Ht).
  rewrite Ht. cbn [String.append takeDigits digitOf fst snd].
  change (digitOf ".") with (@None Z). cbn [fst snd].
  rewrite List.app_nil_r.
  destruct ds as [|x ds]; [contradiction|].
  rewrite (takeDigits_cons _ d1 _ (digitOf_digitChar d1 H1)).
  rewrite (takeDigits_cons _ d0 _ (digitOf_digitChar d0 H0)).
  cbn [takeDigits fst snd].
  unfold decimalValue. do 4 f_equal.
  replace ((x :: ds) ++ [d1; d0])%list
    with (((x :: ds) ++ [d1]) ++ [d0])%list
    by (rewrite <- List.app_assoc; reflexivity).
  rewrite !digitsValue_snoc, Hv. lia.
Qed.

End ParseFacts.

Section ToFixedTwo.
Import JS JSFacts StringFacts ParseFacts.

Variable NumberToString : Q -> string.

Lemma roundHundredths_nonneg (x : Q) : 0 <= x -> (0 <= roundHundredths x)%Z.
Proof.
  intro H. unfold roundHundredths.
  change 0%Z with (Qfloor 0). apply Qfloor_resp_le.
  assert (H' : 0 <= x * (100 # 1))
    by (apply Qmult_le_0_compat; [exact H | discriminate]).
  lra.
Qed.

(** The integer chosen by [toFixed(2)] is within a half of [100 * x]. *)
Lemma roundHundredths_close (x : Q) :
  inject_Z (roundHundredths x) - (1 # 2) <= x * (100 # 1)
  /\ x * (100 # 1) < inject_Z (roundHundredths x) + (1 # 2).
Proof.
  unfold roundHundredths.
  pose proof (Qfloor_le (x * (100 # 1) + (1 # 2))) as H1.
  pose proof (Qlt_floor (x * (100 # 1) + (1 # 2))) as H2.
  rewrite inject_Z_plus in H2. change (inject_Z 1) with 1 in H2.
  split; lra.
Qed.

Lemma fixedNotation_hundredths (x : Q) :
  0 <= x ->
  fixedNotation 2 x
  = decimal (roundHundredths x / 100) ++ "."
    ++ String (digitChar ((roundHundredths x / 10) mod 10))
         (String (digitChar (roundHundredths x mod 10)) "").
Proof.
  intro Hx. pose proof (roundHundredths_nonneg x Hx) as Hn.
  unfold fixedNotation.
  change (Qfloor (x * pow10 2 + (1 # 2))) with (roundHundredths x).
  set (n := roundHundredths x) in *.
  destruct (Z.eqb_spec n 0) as [->|Hn0]; [reflexivity|].
  destruct (Z_lt_le_dec n 10) as [H|H].
  - rewrite (decimal_small n H).
    rewrite (Z.div_small n 100), (Z.div_small n 10), (Z.mod_small n 10)
      by lia.
    reflexivity.
  - destruct (Z_lt_le_dec n 100) as [H'|H'].
    + assert (Ht : (0 <= n / 10 < 10)%Z).
      { split; [apply Z.div_pos; lia | apply Z.div_lt_upper_bound; lia]. }
      rewrite (decimal_step n H), (decimal_small (n / 10)) by lia.
      rewrite (Z.div_small n 100), (Z.mod_small (n / 10) 10) by lia.
      reflexivity.
    + rewrite (decimal_step n H), (decimal_step (n / 10))
        by (apply Z.div_le_lower_bound; lia).
      rewrite Z.div_div by lia. change (10 * 10)%Z with 100%Z.
      set (a := decimal (n / 100)).
      set (c1 := digitChar ((n / 10) mod 10)).
      set (c0 := digitChar (n mod 10)).
      pose proof (decimal_length (n / 100)) as Hlen. fold a in Hlen.
      rewrite app_assoc. cbn [String.append].
      rewrite length_app. cbn [String.length].
      assert (E : (String.length a + 2 <=? 2)%nat = false)
        by (apply Nat.leb_gt; lia).
      rewrite E.
      replace (String.length a + 2 - 2)%nat with (String.length a) by lia.
      rewrite substring_head, substring_tail. reflexivity.
Qed.

(** Reading back what [toFixed(2)] wrote gives the number rounded to the
    nearest hundredth. *)
Lemma parseFloat_toFixed_two (q : Q) :
  magnitude q < pow10 21 ->
  same (parseFloat (toFixed NumberToString 2 (Fin q)))
       (Fin (toHundredths q)).
Proof.
  intro Hbound.
  assert (Hmag : 0 <= magnitude q).
  { unfold magnitude. destruct (Qlt_bool q 0) eqn:Hs; qbool; lra. }
  pose proof (roundHundredths_nonneg _ Hmag) as Hn.
  unfold toFixed, toHundredths. fold (magnitude q).
  assert (E : Qle_bool (pow10 21) (magnitude q) = false)
    by now apply Qle_bool_false.
  rewrite E, (fixedNotation_hundredths _ Hmag).
  set (n := roundHundredths (magnitude q)) in *.
  set (body := (decimal (n / 100) ++ "."
                ++ String (digitChar ((n / 10) mod 10))
                     (String (digitChar (n mod 10)) ""))%string).
  assert (Hval : forall sg : Z,
             inject_Z sg
             * (inject_Z (100 * (n / 100) + 10 * ((n / 10) mod 10) + n mod 10)
                * Qpower (10 # 1) (0 - 2))
             == inject_Z sg * (inject_Z n / (100 # 1))).
  { intro sg.
    replace (100 * (n / 100) + 10 * ((n / 10) mod 10) + n mod 10)%Z with n.
    - change (Qpower (10 # 1) (0 - 2)) with (/ ((10 # 1) * (10 # 1))).
      field.
    - pose proof (Z.div_mod n 10). pose proof (Z.div_mod (n / 10) 10).
      rewrite Z.div_div in * by lia. change (10 * 10)%Z with 100%Z in *.
      lia. }
  assert (Hbody : forall sg : Z,
             (if String.prefix "Infinity" body then
                (if (sg <? 0)%Z then NInf else PInf)
              else
                let '(ip, r1) := takeDigits body in
                match ip, r1 with
                | [], String "." r2 =>
                    let '(fp, r3) := takeDigits r2 in
                    match fp with
                    | [] => NaN
                    | _ => Fin (inject_Z sg * decimalValue [] fp r3)
                    end
                | [], _ => NaN
                | _, String "." r2 =>
                    let '(fp, r3) := takeDigits r2 in
                    Fin (inject_Z sg * decimalValue ip fp r3)
                | _, _ => Fin (inject_Z sg * decimalValue ip [] r1)
                end)
             = Fin (inject_Z sg
                    * (inject_Z (100 * (n / 100) + 10 * ((n / 10) mod 10)
                                 + n mod 10)
                       * Qpower (10 # 1) (0 - 2)))).
  { intro sg. apply parseFloat_unsigned_hundredths; try reflexivity.
    - apply Z.div_pos; lia.
    - apply Z.mod_pos_bound; lia.
    - apply Z.mod_pos_bound; lia. }
  unfold parseFloat.
  destruct (Qlt_bool q 0) eqn:Hs.
  - change ("-" ++ body)%string with (String "-" body).
    rewrite trimStart_minus. cbn [takeSign].
    rewrite (Hbody (-1)%Z). apply Hval.
  - change ("" ++ body)%string with body.
    destruct (decimal_head (n / 100)
                ("." ++ String (digitChar ((n / 10) mod 10))
                          (String (digitChar (n mod 10)) ""))%string)
      as (c & r & d & Ec & Hd); [apply Z.div_pos; lia|].
    fold body in Ec.
    assert (Et : takeSign (trimStart body) = (1%Z, body)).
    { rewrite Ec, (trimStart_digit c d r Hd). apply (takeSign_digit c d r Hd). }
    rewrite Et, (Hbody 1%Z). apply Hval.
Qed.

End ToFixedTwo.

Section ApplyMoldFactor.
Import JS JSFacts.

Lemma toHundredths_close (x : Q) : Qabs (toHundredths x - x) <= 1 # 200.
Proof.
  unfold toHundredths, magnitude.
  destruct (Qlt_bool x 0) eqn:Hs.
  - destruct (roundHundredths_close (- x)) as (H1 & H2).
    set (n := inject_Z (roundHundredths (- x))) in *.
    change (inject_Z (-1)) with (-1 # 1).
    apply Qabs_Qle_condition.
    assert (E : (-1 # 1) * (n / (100 # 1)) - x == (- x * (100 # 1) - n) / (100 # 1))
      by field.
    rewrite E. split.
    + apply Qle_shift_div_l; [reflexivity | lra].
    + apply Qle_shift_div_r; [reflexivity | lra].
  - destruct (roundHundredths_close x) as (H1 & H2).
    set (n := inject_Z (roundHundredths x)) in *.
    change (inject_Z 1) with 1.
    apply Qabs_Qle_condition.
    assert (E : 1 * (n / (100 # 1)) - x == (n - x * (100 # 1)) / (100 # 1))
      by field.
    rewrite E. split.
    + apply Qle_shift_div_l; [reflexivity | lra].
    + apply Qle_shift_div_r; [reflexivity | lra].
Qed.

End ApplyMoldFactor.

(** X13.  "Apply the factor" multiplies quantity and factor in binary64,
    rounds the product to two decimals and sets the target quantity to the
    binary64 number nearest to that: the two-decimal number is within 0.005
    of the product, and the yield factor then in force is new target /
    quantity.  Without a selected recipe the target is left as it is. *)
Theorem applyMoldFactor_rounds (NumberToString : Q -> string)
    (r : Recipe.t) (q f p : Q) (targetQuantity : JS.number) :
  Recipe.quantity r = Some (JS.Fin q) -> ~ q == 0 ->
  Binary64.mul (JS.Fin q) (JS.Fin f) = JS.Fin p ->
  magnitude p < pow10 21 ->
  Binary64.applyMoldFactor NumberToString (Some r) (JS.Fin f) targetQuantity
  = Binary64.round (toHundredths p)
  /\ Qabs (toHundredths p - p) <= 1 # 200
  /\ Binary64.scalingFactor (Some r)
       (Binary64.applyMoldFactor NumberToString (Some r) (JS.Fin f)
          targetQuantity)
     = Binary64.div (Binary64.round (toHundredths p)) (JS.Fin q)
  /\ Binary64.applyMoldFactor NumberToString None (JS.Fin f) targetQuantity
     = targetQuantity.
Proof.
  intros Hq Hz Hp Hbound.
  assert (Ez : Qeq_bool q 0 = false) by now apply JSFacts.Qeq_bool_false.
  assert (E : Binary64.applyMoldFactor NumberToString (Some r) (JS.Fin f)
                targetQuantity
              = Binary64.round (toHundredths p)).
  { unfold Binary64.applyMoldFactor, quantityOr1, JS.or_else. rewrite Hq.
    cbn [JS.truthy]. rewrite Ez. cbn [negb]. rewrite Hp.
    pose proof (parseFloat_toFixed_two NumberToString p Hbound) as H.
    destruct (same_Fin_inv _ _ H) as (t & Et & Ht).
    unfold Binary64.parseFloat. rewrite Et. cbn [Binary64.rnd].
    now apply Binary64Facts.round_compat. }
  split; [exact E|]. split; [apply toHundredths_close|].
  split; [|reflexivity].
  rewrite E. unfold Binary64.scalingFactor. rewrite Hq.
  cbn [JS.truthy]. rewrite Ez. reflexivity.
Qed.

Lemma applyMoldFactor_rounds_witness :
  let r := recipeOfQuantity (Some (JS.Fin 3)) in
  let f := 6567749456581973 # 4503599627370496 in
  Binary64.calculatedMoldFactor (Binary64.moldOf rectangular 0 2 6 8)
    (Binary64.moldOf rectangular 0 2 7 10) = JS.Fin f
  /\ Binary64.applyMoldFactor (fun _ => "") (Some r) (JS.Fin f) (JS.Fin 3)
     = Binary64.round (438 # 100)
  /\ toFixed (fun _ => "") 2
       (Binary64.applyMoldFactor (fun _ => "") (Some r) (JS.Fin f) (JS.Fin 3))
     = "4.38".
Proof.
  intros r f. split; [vm_compute; reflexivity|].
  assert (H := proj1 (applyMoldFactor_rounds (fun _ => "") r 3 f
                        (35 # 8) (JS.Fin 3)
                        eq_refl ltac:(discriminate)
                        ltac:(vm_compute; reflexivity) eq_refl)).
  split.
  - rewrite H. apply Binary64Facts.round_compat. vm_compute. reflexivity.
  - rewrite H. vm_compute. reflexivity.
Defined.



(** ** The mold presets *)

(** X15.  Every preset other than the custom entry describes a mold of
    volume above zero: after a preset has been applied to each side, in
    either order and from any earlier state, the mold factor is the ratio
    of the two volumes, not the fallback.  The custom entry and a name that
    is not in the list change nothing, and a preset applied to one side
    leaves the other side as it was. *)
Theorem handleApplyMoldPreset_volumes (molds : Mold.t * Mold.t) :
  (forall p1 p2,
      In p1 MOLD_PRESETS -> In p2 MOLD_PRESETS ->
      Preset.type p1 <> presetNone -> Preset.type p2 <> presetNone ->
      let applied :=
        handleApplyMoldPreset targetSide (Preset.name p2)
          (handleApplyMoldPreset sourceSide (Preset.name p1) molds) in
      applied
      = handleApplyMoldPreset sourceSide (Preset.name p1)
          (handleApplyMoldPreset targetSide (Preset.name p2) molds)
      /\ JS.gt (getVolume (fst applied)) (JS.Fin 0) = true
      /\ JS.gt (getVolume (snd applied)) (JS.Fin 0) = true
      /\ calculatedMoldFactor (fst applied) (snd applied)
         = JS.div (getVolume (snd applied)) (getVolume (fst applied)))
  /\ (forall side presetName,
         (forall p, In p MOLD_PRESETS -> Preset.type p <> presetNone ->
                    Preset.name p <> presetName) ->
         handleApplyMoldPreset side presetName molds = molds)
  /\ (forall presetName,
         snd (handleApplyMoldPreset sourceSide presetName molds) = snd molds
         /\ fst (handleApplyMoldPreset targetSide presetName molds)
            = fst molds).
Proof.
  split; [|split].
  - intros p1 p2 H1 H2 N1 N2.
    destruct molds as [s t].
    cbv [MOLD_PRESETS In] in H1, H2.
    repeat (destruct H1 as [<-|H1]; [|]); try contradiction;
      try (exfalso; apply N1; reflexivity);
      repeat (destruct H2 as [<-|H2]; [|]); try contradiction;
      try (exfalso; apply N2; reflexivity);
      (split; [reflexivity|]); (split; [reflexivity|]);
      (split; reflexivity).
  - intros side presetName Hno.
    unfold handleApplyMoldPreset.
    destruct (find _ MOLD_PRESETS) as [p|] eqn:E; [|reflexivity].
    destruct (Preset.type p) eqn:Et; [reflexivity| |];
      exfalso; apply find_some in E; destruct E as (Hin & Hname);
      apply String.eqb_eq in Hname;
      apply (Hno p Hin); [congruence | exact Hname
                         | congruence | exact Hname].
  - intro presetName. unfold handleApplyMoldPreset.
    destruct (find _ MOLD_PRESETS) as [p|]; [|split; reflexivity].
    destruct (Preset.type p); split; reflexivity.
Qed.

Lemma handleApplyMoldPreset_volumes_witness :
  let blank := moldOf circular 0 0 0 0 in
  let applied :=
    handleApplyMoldPreset targetSide "12兩吐司模 (20x10x10)"
      (handleApplyMoldPreset sourceSide "6吋圓模 (D15 H7.5)" (blank, blank)) in
  JS.gt (getVolume (fst applied)) (JS.Fin 0) = true
  /\ JS.gt (getVolume (snd applied)) (JS.Fin 0) = true
  /\ calculatedMoldFactor (fst applied) (snd applied)
     = JS.div (getVolume (snd applied)) (getVolume (fst applied))
  /\ handleApplyMoldPreset sourceSide "自定義尺寸" (blank, blank)
     = (blank, blank).
Proof.
  intros blank applied.
  pose (spec := handleApplyMoldPreset_volumes (blank, blank)).
  assert (H := proj1 spec
    (Preset.mk "6吋圓模 (D15 H7.5)" presetCircular
       (Some (JS.Fin 15)) (Some (JS.Fin 7.5)) None None)
    (Preset.mk "12兩吐司模 (20x10x10)" presetRectangular
       None (Some (JS.Fin 10)) (Some (JS.Fin 20)) (Some (JS.Fin 10)))).
  cbv zeta in H.
  destruct H as (_ & H1 & H2 & H3).
  - right. right. left. reflexivity.
  - do 4 right. left. reflexivity.
  - discriminate.
  - discriminate.
  - split; [exact H1|]. split; [exact H2|]. split; [exact H3|].
    apply (proj1 (proj2 spec) sourceSide "自定義尺寸").
    intros p Hin Hty Hname. cbv [MOLD_PRESETS In] in Hin.
    repeat (destruct Hin as [<-|Hin]; [|]); try contradiction;
      try (apply Hty; reflexivity); discriminate.
Defined.

(** ** The number of ingredients on a card *)

Section CardCount.

Variable NumberToString : Q -> string.

Lemma rowCount_display (l : list Ingredient.t) (title : string)
    (isBaking showPercentage : bool) (factor : JS.number) :
  rowCount (DisplayIngredientSection NumberToString l title isBaking
              showPercentage factor)
  = List.length l.
Proof.
  unfold DisplayIngredientSection. destruct l as [|x l'] eqn:E; [reflexivity|].
  rewrite <- E. cbn [rowCount SectionView.rows]. apply length_map.
Qed.

Lemma list_sum_perm (g : string -> nat) (l l' : list string) :
  Permutation l l' -> list_sum (map g l) = list_sum (map g l').
Proof.
  induction 1; simpl; lia.
Qed.

End CardCount.

(** X16.  The number of ingredients written on a recipe card is the number
    of ingredient rows the recipe shows, in the detail view as in the
    scaling view, whenever its section order lists each of the five sections
    once: empty and missing sections count for nothing. *)
Theorem totalIngredientsCount_rows (NumberToString : Q -> string)
    (recipe : Recipe.t) (order : list string) (factor : JS.number) :
  Permutation DEFAULT_SECTIONS_ORDER order ->
  totalIngredientsCount recipe
  = list_sum (map (fun key => rowCount (detailSection NumberToString recipe key))
                  order)
  /\ totalIngredientsCount recipe
     = list_sum (map (fun key =>
                        rowCount (scalingSection NumberToString recipe factor
                                    key))
                     order).
Proof.
  intro HP. split.
  - rewrite <- (list_sum_perm _ _ _ HP).
    cbv [DEFAULT_SECTIONS_ORDER map list_sum fold_right].
    unfold detailSection. cbn [String.eqb Ascii.eqb Bool.eqb].
    rewrite !rowCount_display. unfold totalIngredientsCount. lia.
  - rewrite <- (list_sum_perm _ _ _ HP).
    cbv [DEFAULT_SECTIONS_ORDER map list_sum fold_right].
    unfold scalingSection. cbn [String.eqb Ascii.eqb Bool.eqb].
    rewrite !rowCount_display. unfold totalIngredientsCount. lia.
Qed.

Lemma totalIngredientsCount_rows_witness :
  totalIngredientsCount custardBun
  = list_sum (map (fun key => rowCount (detailSection (fun _ => "")
                                          custardBun key))
                  DEFAULT_SECTIONS_ORDER)
  /\ totalIngredientsCount custardBun
     = list_sum (map (fun key =>
                        rowCount (scalingSection (fun _ => "") custardBun
                                    (JS.Fin 1.5) key))
                     DEFAULT_SECTIONS_ORDER).
Proof.
  apply (totalIngredientsCount_rows (fun _ => "") custardBun
           DEFAULT_SECTIONS_ORDER (JS.Fin 1.5)).
  apply Permutation_refl.
Defined.

(** ** Trimming and splitting *)

Module TagFacts.
Import StringFacts.

Lemma trimStart_step (s s' : string) :
  TrimStep s s' -> trimStart s = trimStart s'.
Proof.
  intro H. destruct H as [c r H1|c1 c2 r H1 H2|c1 c2 c3 r H1 H2 H3];
    cbn [trimStart].
  - now rewrite H1.
  - now rewrite H1, H2.
  - rewrite H1, H2. rewrite H3. reflexivity.
Qed.

Lemma trimStart_cases (s : string) :
  trimStart s = s \/ exists s', TrimStep s s'.
Proof.
  destruct s as [|c1 r1]; [left; reflexivity|].
  destruct (isSpace1 c1) eqn:H1; [right; eexists; now apply trim1|].
  destruct r1 as [|c2 r2]; [left; cbn [trimStart]; now rewrite H1|].
  destruct (isSpace2 c1 c2) eqn:H2; [right; eexists; now apply trim2|].
  destruct r2 as [|c3 r3]; [left; cbn [trimStart]; now rewrite H1, H2|].
  destruct (isSpace3 c1 c2 c3) eqn:H3; [right; eexists; now apply trim3|].
  left. cbn [trimStart]. now rewrite H1, H2, H3.
Qed.

Lemma TrimStep_length (s s' : string) :
  TrimStep s s' -> (String.length s' < String.length s)%nat.
Proof. intro H. destruct H; simpl; lia. Qed.

Lemma TrimStep_app (s s' w : string) :
  TrimStep s s' -> TrimStep (s ++ w) (s' ++ w).
Proof.
  intro H. destruct H; cbn [String.append];
    [apply trim1 | apply trim2 | apply trim3]; assumption.
Qed.

(** Induction on a string through the strings that are shorter. *)
Lemma string_length_ind (P : string -> Prop) :
  (forall s, (forall s', (String.length s' < String.length s)%nat -> P s') ->
             P s) ->
  forall s, P s.
Proof.
  intros H s.
  assert (G : forall n s, (String.length s < n)%nat -> P s).
  { induction n as [|n IH]; intros s0 Hs; [lia|].
    apply H. intros s' Hs'. apply IH. lia. }
  apply (G (S (String.length s))). lia.
Qed.

Lemma trimStart_length (s : string) :
  (String.length (trimStart s) <= String.length s)%nat.
Proof.
  induction s as [s IH] using string_length_ind.
  destruct (trimStart_cases s) as [E|(s' & H)]; [rewrite E; lia|].
  rewrite (trimStart_step _ _ H).
  pose proof (TrimStep_length _ _ H). specialize (IH s' H0). lia.
Qed.

Lemma trimStart_fixed (s s' : string) :
  trimStart s = s -> ~ TrimStep s s'.
Proof.
  intros E H. pose proof (TrimStep_length _ _ H).
  pose proof (trimStart_length s').
  rewrite <- (trimStart_step _ _ H), E in H1. lia.
Qed.

Lemma trimStart_idem (s : string) : trimStart (trimStart s) = trimStart s.
Proof.
  induction s as [s IH] using string_length_ind.
  destruct (trimStart_cases s) as [E|(s' & H)]; [now rewrite E|].
  rewrite (trimStart_step _ _ H). apply IH. now apply TrimStep_length.
Qed.

(** White space before [w] is trimmed away with the white space of [w]. *)
Lemma trimStart_blank_app (a w : string) :
  trimStart a = "" -> trimStart (a ++ w) = trimStart w.
Proof.
  induction a as [a IH] using string_length_ind. intro Hb.
  destruct (trimStart_cases a) as [E|(a' & H)].
  - rewrite Hb in E. subst a. reflexivity.
  - rewrite (trimStart_step _ _ (TrimStep_app _ _ w H)).
    apply IH; [now apply TrimStep_length|].
    now rewrite <- (trimStart_step _ _ H).
Qed.

(** [trimEnd] cuts a suffix of white space. *)
Lemma trimEnd_split (s : string) :
  exists w, s = trimEnd s ++ w /\ trimStart w = "".
Proof.
  induction s as [|c r IH]; [exists ""; split; reflexivity|].
  cbn [trimEnd].
  destruct (String.eqb (trimStart (String c r)) "") eqn:E.
  - apply String.eqb_eq in E. exists (String c r). split; [reflexivity | exact E].
  - destruct IH as (w & Hw & Hb). exists w. split; [|exact Hb].
    cbn [String.append]. now rewrite <- Hw.
Qed.

Lemma trimEnd_idem (s : string) : trimEnd (trimEnd s) = trimEnd s.
Proof.
  induction s as [|c r IH]; [reflexivity|].
  cbn [trimEnd].
  destruct (String.eqb (trimStart (String c r)) "") eqn:E; [reflexivity|].
  cbn [trimEnd].
  destruct (String.eqb (trimStart (String c (trimEnd r))) "") eqn:E'.
  - exfalso. apply String.eqb_eq in E'. apply String.eqb_neq in E. apply E.
    destruct (trimEnd_split r) as (w & Hw & Hb).
    rewrite Hw at 1.
    change (String c (trimEnd r ++ w)) with (String c (trimEnd r) ++ w).
    now rewrite (trimStart_blank_app _ w E').
  - now rewrite IH.
Qed.

Lemma trimStart_trimEnd (u : string) :
  trimStart u = u -> trimStart (trimEnd u) = trimEnd u.
Proof.
  intro E. destruct (trimStart_cases (trimEnd u)) as [H|(p' & H)]; [exact H|].
  exfalso. destruct (trimEnd_split u) as (w & Hw & _).
  apply (TrimStep_app _ _ w) in H. rewrite <- Hw in H.
  exact (trimStart_fixed _ _ E H).
Qed.

Lemma trim_trimmed (s : string) :
  trimStart (trim s) = trim s /\ trimEnd (trim s) = trim s.
Proof.
  unfold trim. split.
  - apply trimStart_trimEnd, trimStart_idem.
  - apply trimEnd_idem.
Qed.

Lemma noComma_tail (c : ascii) (r : string) :
  noComma (String c r) = true -> noComma r = true.
Proof.
  cbn [noComma]. intro H. apply andb_true_iff in H. apply H.
Qed.

Lemma noComma_step (s s' : string) :
  TrimStep s s' -> noComma s = true -> noComma s' = true.
Proof.
  intros H N. destruct H; repeat apply noComma_tail in N; exact N.
Qed.

Lemma noComma_trimStart (s : string) :
  noComma s = true -> noComma (trimStart s) = true.
Proof.
  induction s as [s IH] using string_length_ind. intro N.
  destruct (trimStart_cases s) as [E|(s' & H)]; [now rewrite E|].
  rewrite (trimStart_step _ _ H).
  apply IH; [now apply TrimStep_length | now apply (noComma_step s)].
Qed.

Lemma noComma_prefix (a w : string) :
  noComma (a ++ w) = true -> noComma a = true.
Proof.
  induction a as [|c a IH]; [reflexivity|].
  cbn [String.append noComma]. intro H.
  apply andb_true_iff in H. destruct H as (H & Hr).
  apply andb_true_iff in H. destruct H as (Hc & Hf).
  rewrite Hc, (IH Hr), andb_true_r. cbn [andb].
  destruct a as [|c2 [|c3 a']]; try reflexivity. exact Hf.
Qed.

Lemma noComma_trim (s : string) : noComma s = true -> noComma (trim s) = true.
Proof.
  intro N. unfold trim.
  destruct (trimEnd_split (trimStart s)) as (w & Hw & _).
  apply (noComma_prefix _ w). rewrite <- Hw. now apply noComma_trimStart.
Qed.

End TagFacts.

Module SplitFacts.
Import StringFacts TagFacts.

Lemma splitCommas_cons (c : ascii) (r : string) :
  splitCommas (String c r)
  = if Ascii.eqb c "," then "" :: splitCommas r
    else if fullWidthCommaAt c r then "" :: splitCommas (dropTwo r)
    else pushChar c (splitCommas r).
Proof. destruct r as [|c2 [|c3 r3]]; reflexivity. Qed.

Lemma noComma_cons (c : ascii) (r : string) :
  noComma (String c r)
  = negb (Ascii.eqb c ",") && negb (fullWidthCommaAt c r) && noComma r.
Proof. destruct r as [|c2 [|c3 r3]]; reflexivity. Qed.

Lemma dropTwo_length (c : ascii) (r : string) :
  (String.length (dropTwo r) < String.length (String c r))%nat.
Proof. destruct r as [|c2 [|c3 r3]]; simpl; lia. Qed.

(** A full-width comma seen in a prefix is seen in the whole string. *)
Lemma fullWidthCommaAt_prefix (c : ascii) (p rest : string) :
  fullWidthCommaAt c (p ++ rest) = false -> fullWidthCommaAt c p = false.
Proof. destruct p as [|c2 [|c3 p']]; auto. Qed.

(** The first piece is a prefix of the string. *)
Lemma splitCommas_head (s : string) :
  exists p ps rest, splitCommas s = p :: ps /\ s = p ++ rest.
Proof.
  induction s as [|c r IH]; [exists "", [], ""; split; reflexivity|].
  rewrite splitCommas_cons.
  destruct (Ascii.eqb c ",");
    [exists "", (splitCommas r), (String c r); split; reflexivity|].
  destruct (fullWidthCommaAt c r);
    [exists "", (splitCommas (dropTwo r)), (String c r); split; reflexivity|].
  destruct IH as (p & ps & rest & E & Hr). rewrite E. cbn [pushChar].
  exists (String c p), ps, rest. split; [reflexivity|].
  cbn [String.append]. now rewrite <- Hr.
Qed.

(** No piece holds a comma. *)
Lemma splitCommas_noComma (s : string) :
  forall p, In p (splitCommas s) -> noComma p = true.
Proof.
  induction s as [s IH] using string_length_ind.
  destruct s as [|c r]; [intros p [<-|[]]; reflexivity|].
  intro p. rewrite splitCommas_cons.
  destruct (Ascii.eqb c ",") eqn:Ec.
  - intros [<-|H]; [reflexivity|]. apply (IH r); [simpl; lia | exact H].
  - destruct (fullWidthCommaAt c r) eqn:Ef.
    + intros [<-|H]; [reflexivity|].
      apply (IH (dropTwo r)); [apply dropTwo_length | exact H].
    + destruct (splitCommas_head r) as (p0 & ps & rest & E & Hr).
      rewrite E. cbn [pushChar]. intros [<-|H].
      * rewrite noComma_cons, Ec. rewrite Hr in Ef.
        rewrite (fullWidthCommaAt_prefix _ _ _ Ef). cbn [negb andb].
        apply (IH r); [simpl; lia|]. rewrite E. now left.
      * apply (IH r); [simpl; lia|]. rewrite E. now right.
Qed.

Lemma fullWidthCommaAt_before_comma (c : ascii) (r s : string) :
  fullWidthCommaAt c r = false ->
  fullWidthCommaAt c (r ++ String "," s) = false.
Proof.
  destruct r as [|c2 [|c3 r']]; cbn [String.append fullWidthCommaAt]; auto;
    intros _.
  - destruct s; [reflexivity|]. unfold isFullWidthComma.
    change (code "," =? 188)%N with false.
    now rewrite andb_false_r.
  - unfold isFullWidthComma. change (code "," =? 140)%N with false.
    now rewrite andb_false_r.
Qed.

(** A piece without comma, then a comma: the piece is split off. *)
Lemma splitCommas_piece (t s : string) :
  noComma t = true ->
  splitCommas (t ++ String "," s) = t :: splitCommas s.
Proof.
  induction t as [|c r IH]; intro N; [reflexivity|].
  rewrite noComma_cons in N.
  apply andb_true_iff in N. destruct N as (N & Nr).
  apply andb_true_iff in N. destruct N as (Nc & Nf).
  apply negb_true_iff in Nc, Nf.
  cbn [String.append]. rewrite splitCommas_cons, Nc.
  rewrite (fullWidthCommaAt_before_comma c r s Nf), (IH Nr). reflexivity.
Qed.

Lemma splitCommas_single (t : string) :
  noComma t = true -> splitCommas t = [t].
Proof.
  induction t as [|c r IH]; intro N; [reflexivity|].
  rewrite noComma_cons in N.
  apply andb_true_iff in N. destruct N as (N & Nr).
  apply andb_true_iff in N. destruct N as (Nc & Nf).
  apply negb_true_iff in Nc, Nf.
  rewrite splitCommas_cons, Nc, Nf, (IH Nr). reflexivity.
Qed.

(** What the tags of a text that begins with a piece and a comma are. *)
Lemma handleTagsInput_piece (t s : string) :
  noComma t = true ->
  handleTagsInput (t ++ String "," s)
  = ((if String.eqb (trim t) "" then [] else [trim t])
     ++ handleTagsInput s)%list.
Proof.
  intro N. unfold handleTagsInput. rewrite (splitCommas_piece t s N).
  cbn [map filter]. destruct (String.eqb (trim t) ""); reflexivity.
Qed.

Lemma handleTagsInput_single (t : string) :
  noComma t = true ->
  handleTagsInput t = if String.eqb (trim t) "" then [] else [trim t].
Proof.
  intro N. unfold handleTagsInput. rewrite (splitCommas_single t N).
  cbn [map filter]. destruct (String.eqb (trim t) ""); reflexivity.
Qed.

(** A clean tag, alone or after the blank that [join] puts before it, is
    read as itself. *)
Lemma cleanTag_read (pre t : string) :
  pre = "" \/ pre = " " -> cleanTag t ->
  noComma (pre ++ t) = true
  /\ (if String.eqb (trim (pre ++ t)) "" then [] else [trim (pre ++ t)])
     = [t].
Proof.
  intros Hpre (Hne & Hn & Hs & He).
  assert (Ht : trim (pre ++ t) = t).
  { unfold trim. destruct Hpre as [->| ->].
    - cbn [String.append]. now rewrite Hs.
    - change (" " ++ t)%string with (String " " t).
      rewrite (trimStart_step (String " " t) t) by (now apply trim1).
      now rewrite Hs. }
  split.
  - destruct Hpre as [->| ->]; [exact Hn|].
    change (" " ++ t)%string with (String " " t).
    rewrite noComma_cons, Hn.
    destruct t as [|c2 [|c3 t']]; reflexivity.
  - rewrite Ht. apply String.eqb_neq in Hne. now rewrite Hne.
Qed.

(** The tags read back from the joined text, whatever follows a last comma
    when that holds no tag. *)
Lemma handleTagsInput_join (rest : list string) :
  forall (pre t tail : string),
    pre = "" \/ pre = " " -> cleanTag t -> Forall cleanTag rest ->
    tail = ""
    \/ (exists s', tail = String "," s' /\ handleTagsInput s' = []) ->
    handleTagsInput (pre ++ joinTags (t :: rest) ++ tail) = t :: rest.
Proof.
  induction rest as [|t2 rest IH]; intros pre t tail Hpre Ht Hrest Htail.
  - cbn [joinTags]. destruct (cleanTag_read pre t Hpre Ht) as (N & R).
    destruct Htail as [->|(s' & -> & Hs')].
    + replace (t ++ "")%string with t
        by (clear; induction t; cbn; congruence).
      now rewrite (handleTagsInput_single _ N).
    + rewrite <- app_assoc, (handleTagsInput_piece _ _ N), R, Hs'.
      reflexivity.
  - change (joinTags (t :: t2 :: rest))
      with (t ++ ", " ++ joinTags (t2 :: rest))%string.
    destruct (cleanTag_read pre t Hpre Ht) as (N & R).
    replace (pre ++ (t ++ ", " ++ joinTags (t2 :: rest)) ++ tail)%string
      with ((pre ++ t)
            ++ String "," (" " ++ joinTags (t2 :: rest) ++ tail))%string.
    + rewrite (handleTagsInput_piece _ _ N), R.
      inversion Hrest as [|? ? Ht2 Hrest']; subst.
      rewrite (IH " " t2 tail); auto.
    + rewrite !app_assoc. reflexivity.
Qed.

End SplitFacts.

Module BlankFacts.
Import TagFacts SplitFacts.

Lemma not_comma (c : ascii) : code c <> 44%N -> Ascii.eqb c "," = false.
Proof.
  intro H. apply Ascii.eqb_neq. intro E. apply H. subst c. reflexivity.
Qed.

Lemma not_fullWidth (c : ascii) (r : string) :
  code c <> 239%N -> fullWidthCommaAt c r = false.
Proof.
  intro H. destruct r as [|c2 [|c3 r3]]; try reflexivity.
  cbn [fullWidthCommaAt]. unfold isFullWidthComma.
  apply N.eqb_neq in H. now rewrite H.
Qed.

Lemma pushChar_cons (c : ascii) (s : string) :
  exists p ps, splitCommas s = p :: ps
               /\ pushChar c (splitCommas s) = String c p :: ps.
Proof.
  destruct (splitCommas_head s) as (p & ps & _ & E & _).
  exists p, ps. rewrite E. split; reflexivity.
Qed.

Lemma isSpace1_code (c : ascii) :
  isSpace1 c = true -> (code c <= 32)%N.
Proof.
  unfold isSpace1. cbv zeta. intro H.
  apply orb_true_iff in H. destruct H as [H|H].
  - apply andb_true_iff in H. destruct H as [_ H].
    apply N.leb_le in H. lia.
  - apply N.eqb_eq in H. lia.
Qed.

Lemma isSpace2_code (c1 c2 : ascii) :
  isSpace2 c1 c2 = true -> code c1 = 194%N /\ code c2 = 160%N.
Proof.
  unfold isSpace2. intro H. apply andb_true_iff in H.
  destruct H as [H1 H2]. now apply N.eqb_eq in H1, H2.
Qed.

Lemma isSpace3_code (c1 c2 c3 : ascii) :
  isSpace3 c1 c2 c3 = true ->
  (128 <= code c2 < 239)%N /\ (128 <= code c3 < 239)%N
  /\ (225 <= code c1)%N
  /\ isFullWidthComma c1 c2 c3 = false.
Proof.
  unfold isSpace3, isFullWidthComma.
  set (a := code c1). set (b := code c2). set (c := code c3).
  cbv zeta beta iota. intro H.
  repeat match type of H with
         | (_ || _) = true => apply orb_true_iff in H; destruct H as [H|H]
         end;
    repeat match goal with
           | H : (_ && _) = true |- _ =>
               apply andb_true_iff in H; destruct H
           | H : (_ || _) = true |- _ =>
               apply orb_true_iff in H; destruct H
           | H : (_ =? _)%N = true |- _ => apply N.eqb_eq in H
           | H : (_ <=? _)%N = true |- _ => apply N.leb_le in H
           end;
    (repeat split; try lia;
     try (apply andb_false_iff; left; apply andb_false_iff; right;
          apply N.eqb_neq; lia)).
Qed.

Lemma blank_pieces (s : string) :
  onlyBlanksAndCommas s = true ->
  Forall (fun p => trimStart p = "") (splitCommas s).
Proof.
  induction s as [s IH] using string_length_ind. intro H.
  destruct s as [|c1 r1]; [repeat constructor|].
  cbn [onlyBlanksAndCommas] in H. rewrite splitCommas_cons.
  destruct (Ascii.eqb c1 ",") eqn:Ec.
  - rewrite orb_true_r in H. constructor; [reflexivity|].
    apply IH; [simpl; lia | exact H].
  - rewrite orb_false_r in H.
    destruct (isSpace1 c1) eqn:E1.
    + rewrite (not_fullWidth c1 r1)
        by (apply isSpace1_code in E1; lia).
      destruct (pushChar_cons c1 r1) as (p & ps & E & ->).
      assert (F := IH r1 ltac:(simpl; lia) H). rewrite E in F.
      inversion F as [|? ? Hp Hps]; subst.
      constructor; [|exact Hps]. cbn [trimStart]. now rewrite E1.
    + destruct r1 as [|c2 r2]; [discriminate|].
      destruct (isSpace2 c1 c2) eqn:E2.
      * destruct (isSpace2_code _ _ E2) as [K1 K2].
        rewrite (not_fullWidth c1) by lia.
        rewrite splitCommas_cons, (not_comma c2) by lia.
        rewrite (not_fullWidth c2) by lia.
        destruct (pushChar_cons c2 r2) as (p & ps & E & ->).
        assert (F := IH r2 ltac:(simpl; lia) H). rewrite E in F.
        inversion F as [|? ? Hp Hps]; subst.
        cbn [pushChar]. constructor; [|exact Hps].
        cbn [trimStart]. now rewrite E1, E2.
      * destruct r2 as [|c3 r3]; [discriminate|].
        destruct (isSpace3 c1 c2 c3) eqn:E3.
        -- cbn [orb] in H.
           destruct (isSpace3_code _ _ _ E3) as (K2 & K3 & K1 & Kf).
           cbn [fullWidthCommaAt]. rewrite Kf.
           rewrite splitCommas_cons, (not_comma c2) by lia.
           rewrite (not_fullWidth c2) by lia.
           rewrite splitCommas_cons, (not_comma c3) by lia.
           rewrite (not_fullWidth c3) by lia.
           destruct (pushChar_cons c3 r3) as (p & ps & E & ->).
           assert (F := IH r3 ltac:(simpl; lia) H). rewrite E in F.
           inversion F as [|? ? Hp Hps]; subst.
           cbn [pushChar]. constructor; [|exact Hps].
           cbn [trimStart]. now rewrite E1, E2, E3.
        -- cbn [orb] in H.
           destruct (isFullWidthComma c1 c2 c3) eqn:Ef; [|discriminate].
           cbn [fullWidthCommaAt]. rewrite Ef. cbn [dropTwo].
           constructor; [reflexivity|].
           apply IH; [simpl; lia | exact H].
Qed.

Lemma handleTagsInput_blank (val : string) :
  onlyBlanksAndCommas val = true -> handleTagsInput val = [].
Proof.
  intro H. unfold handleTagsInput.
  assert (F := blank_pieces val H).
  induction F as [|p ps Hp _ IH]; [reflexivity|].
  cbn [map filter]. unfold trim at 1. rewrite Hp. cbn. exact IH.
Qed.

End BlankFacts.

(** ** The tags *)

(** X17.  Every tag that [handleTagsInput] stores is clean: it is not empty,
    it holds no comma (ASCII or full-width), and it neither begins nor ends
    with white space.  Empty input, and every input made of commas and
    white space only, gives no tag. *)
Theorem handleTagsInput_clean (val : string) :
  Forall cleanTag (handleTagsInput val)
  /\ (onlyBlanksAndCommas val = true -> handleTagsInput val = [])
  /\ handleTagsInput "" = []
  /\ handleTagsInput " , ，  ," = [].
Proof.
  split; [|split; [apply BlankFacts.handleTagsInput_blank
                  |split; reflexivity]].
  apply Forall_forall. intros t Ht. unfold handleTagsInput in Ht.
  apply filter_In in Ht. destruct Ht as (Hin & Hne).
  apply in_map_iff in Hin. destruct Hin as (p & <- & Hp).
  apply SplitFacts.splitCommas_noComma in Hp.
  repeat split.
  - apply negb_true_iff, String.eqb_neq in Hne. exact Hne.
  - now apply TagFacts.noComma_trim.
  - apply TagFacts.trim_trimmed.
  - apply TagFacts.trim_trimmed.
Qed.

(** X18.  The tags input shows the stored tags joined by ", "; reading that
    text back gives the same tags.  So a change of the text that leaves the
    tags as they are leaves the stored list, and the text shown, as they
    were. *)
Theorem handleTagsInput_joinTags (tags : list string) :
  Forall cleanTag tags ->
  handleTagsInput (joinTags tags) = tags.
Proof.
  intro H. destruct tags as [|t rest]; [reflexivity|].
  inversion H as [|? ? Ht Hrest]; subst.
  pose proof (SplitFacts.handleTagsInput_join rest "" t "" (or_introl eq_refl)
                Ht Hrest (or_introl eq_refl)) as E.
  cbn [String.append] in E.
  replace (joinTags (t :: rest) ++ "")%string with (joinTags (t :: rest)) in E;
    [exact E|].
  generalize (joinTags (t :: rest)). intro s.
  induction s; cbn; congruence.
Qed.

Lemma handleTagsInput_joinTags_witness :
  handleTagsInput (joinTags ["酥脆"; "low sugar"]) = ["酥脆"; "low sugar"].
Proof.
  apply (handleTagsInput_joinTags ["酥脆"; "low sugar"]).
  repeat constructor; discriminate.
Defined.

(** X19.  A comma typed at the end of the text shown in the tags input,
    with or without a blank after it, does not change the tags: the stored
    list is the same, so the input shows the text without the comma
    again. *)
Theorem handleTagsInput_trailing_comma (tags : list string) :
  Forall cleanTag tags ->
  handleTagsInput (joinTags tags ++ ",") = tags
  /\ handleTagsInput (joinTags tags ++ ", ") = tags
  /\ joinTags (handleTagsInput (joinTags tags ++ ",")) = joinTags tags.
Proof.
  intro H.
  assert (G : forall s', handleTagsInput s' = [] ->
                handleTagsInput (joinTags tags ++ String "," s') = tags).
  { intros s' Hs'. destruct tags as [|t rest].
    - change (handleTagsInput ("" ++ String "," s') = []).
      rewrite (SplitFacts.handleTagsInput_piece "" s' eq_refl), Hs'.
      reflexivity.
    - inversion H as [|? ? Ht Hrest]; subst.
      apply (SplitFacts.handleTagsInput_join rest "" t (String "," s')
               (or_introl eq_refl) Ht Hrest).
      right. exists s'. split; [reflexivity | exact Hs']. }
  pose proof (G "" eq_refl) as G1. pose proof (G " " eq_refl) as G2.
  split; [exact G1|]. split; [exact G2|]. now rewrite G1.
Qed.

Lemma handleTagsInput_trailing_comma_witness :
  handleTagsInput (joinTags ["酥脆"; "low sugar"] ++ ",")
  = ["酥脆"; "low sugar"]
  /\ handleTagsInput (joinTags ["酥脆"; "low sugar"] ++ ", ")
     = ["酥脆"; "low sugar"]
  /\ joinTags (handleTagsInput (joinTags ["酥脆"; "low sugar"] ++ ","))
     = joinTags ["酥脆"; "low sugar"].
Proof.
  apply (handleTagsInput_trailing_comma ["酥脆"; "low sugar"]).
  repeat constructor; discriminate.
Defined.

(** ** Adding and removing an ingredient row *)

Section RowEdits.
Import JS JSFacts.

Lemma baseLoopStep_blank (st : BaseLoop) :
  le (Fin 0) (maxWeight st) = true -> baseLoopStep st blankIngredient = st.
Proof.
  intro H. unfold baseLoopStep. cbn [blankIngredient baseAmount
    Ingredient.amount Ingredient.isFlour Ingredient.name].
  assert (E : gt (Fin 0) (maxWeight st) = false).
  { unfold gt. destruct (maxWeight st); simpl in *; auto; try discriminate.
    qbool. exact H. }
  rewrite E. destruct st; reflexivity.
Qed.

Lemma localBase_blank (items : list Ingredient.t) :
  localBase (items ++ [blankIngredient]) = localBase items.
Proof.
  unfold localBase. rewrite fold_left_app. cbn [fold_left].
  rewrite baseLoopStep_blank; [reflexivity|].
  apply maxWeight_nonneg. reflexivity.
Qed.

Lemma filterIndexed_remove {A : Type} (l : list A) (i idx : nat) :
  filterIndexed (fun _ j => negb (Nat.eqb j (i + idx))) i l
  = (firstn idx l ++ skipn (S idx) l)%list.
Proof.
  revert i idx. induction l as [|x l IH]; intros i idx.
  - destruct idx; reflexivity.
  - cbn [filterIndexed]. destruct idx as [|idx].
    + rewrite Nat.add_0_r, Nat.eqb_refl. cbn [negb firstn skipn app].
      clear IH. revert i. induction l as [|y l IH]; intro i; [reflexivity|].
      cbn [filterIndexed].
      assert (E : Nat.eqb (S i) i = false) by (apply Nat.eqb_neq; lia).
      rewrite E. cbn [negb]. f_equal.
      specialize (IH (S i)).
      assert (G : forall k j, (j < k)%nat ->
                    filterIndexed (fun (_ : A) m => negb (Nat.eqb m j)) k l = l).
      { clear. induction l as [|z l IHl]; intros k j Hk; [reflexivity|].
        cbn [filterIndexed].
        assert (E : Nat.eqb k j = false) by (apply Nat.eqb_neq; lia).
        rewrite E. cbn [negb]. f_equal. apply IHl. lia. }
      apply G. lia.
    + assert (E : Nat.eqb i (i + S idx) = false) by (apply Nat.eqb_neq; lia).
      rewrite E. cbn [negb firstn skipn app]. f_equal.
      replace (i + S idx)%nat with (S i + idx)%nat by lia. apply IH.
Qed.

End RowEdits.

(** X20.  Appending the blank ingredient of the button "+ 新增" leaves the
    base of the section exactly as it was, so the rows already there are
    displayed as before, percentages included; the new row shows the amount
    0 (unscaled) with its unit and no percentage. *)
Theorem addIngredient_keeps_rows (NumberToString : Q -> string)
    (items : list Ingredient.t) (isBaking showPercentage : bool)
    (factor : JS.number) :
  localBase (addIngredient (Some items)) = localBase items
  /\ map (displayRow NumberToString isBaking showPercentage factor
            (localBase (addIngredient (Some items))))
         (addIngredient (Some items))
     = (map (displayRow NumberToString isBaking showPercentage factor
              (localBase items)) items
       ++ [ {| Row.name := ""; Row.flourDot := false;
               Row.amount := AmtNum (JS.Fin 0); Row.unit := Some "g";
               Row.percent := if isBaking && showPercentage
                              then PercentBlank else PercentAbsent |} ])%list
  /\ addIngredient None = [blankIngredient].
Proof.
  unfold addIngredient. cbn [orEmpty]. split; [apply localBase_blank|].
  split; [|reflexivity].
  rewrite localBase_blank, map_app. f_equal. cbn [map]. f_equal.
  assert (G : JS.gt (LocalBase.weight (localBase items)) (JS.Fin 0) = true).
  { destruct (localBase_weight_cases items)
      as [(H & E)|[(_ & H & E)|(_ & _ & E)]]; rewrite E;
      [exact H | exact H | reflexivity]. }
  unfold displayRow, percentCell. rewrite G, andb_true_r.
  destruct (isBaking && showPercentage); reflexivity.
Qed.

(** X21.  Removing row [idx] drops exactly that ingredient and keeps the
    others in order; an index past the end removes nothing; and removing the
    row just appended gives the list back. *)
Theorem removeIngredient_at (items : list Ingredient.t) (idx : nat) :
  removeIngredient items idx
  = (firstn idx items ++ skipn (S idx) items)%list
  /\ ((idx < List.length items)%nat ->
      List.length (removeIngredient items idx) = (List.length items - 1)%nat)
  /\ ((List.length items <= idx)%nat -> removeIngredient items idx = items)
  /\ removeIngredient (addIngredient (Some items)) (List.length items) = items.
Proof.
  assert (E : forall l i,
             removeIngredient l i = (firstn i l ++ skipn (S i) l)%list).
  { intros l i. unfold removeIngredient.
    apply (filterIndexed_remove l 0 i). }
  split; [apply E|]. split; [|split].
  - intro H. rewrite E, length_app, length_firstn, length_skipn. lia.
  - intro H. rewrite E, firstn_all2, skipn_all2 by lia. apply app_nil_r.
  - rewrite E. unfold addIngredient. cbn [orEmpty].
    rewrite firstn_app, Nat.sub_diag, firstn_all, skipn_all2
      by (rewrite length_app; simpl; lia).
    cbn [firstn]. now rewrite !app_nil_r.
Qed.

Lemma removeIngredient_at_witness :
  let flour := Ingredient.mk "flour" (AmtNum (JS.Fin 500)) "g" true in
  let water := Ingredient.mk "water" (AmtNum (JS.Fin 350)) "g" false in
  List.length (removeIngredient [flour; water] 0) = (2 - 1)%nat
  /\ removeIngredient [flour; water] 5 = [flour; water].
Proof.
  intros flour water. split.
  - apply (proj1 (proj2 (removeIngredient_at [flour; water] 0))).
    repeat constructor.
  - apply (proj1 (proj2 (proj2 (removeIngredient_at [flour; water] 5)))).
    repeat constructor.
Defined.

(** ** The image sent back for editing *)

Module ImageFacts.
Import StringFacts.

Lemma splitOn_piece (sep : ascii) (a b : string) :
  noChar sep a = true ->
  splitOn sep (a ++ String sep b) = a :: splitOn sep b.
Proof.
  induction a as [|c a IH]; intro H.
  - cbn [String.append splitOn]. now rewrite Ascii.eqb_refl.
  - cbn [noChar] in H. apply andb_true_iff in H as [Hc Ha].
    apply negb_true_iff in Hc.
    cbn [String.append splitOn]. rewrite Hc, (IH Ha). reflexivity.
Qed.

Lemma splitOn_single (sep : ascii) (a : string) :
  noChar sep a = true -> splitOn sep a = [a].
Proof.
  induction a as [|c a IH]; intro H; [reflexivity|].
  cbn [noChar] in H. apply andb_true_iff in H as [Hc Ha].
  apply negb_true_iff in Hc.
  cbn [splitOn]. rewrite Hc, (IH Ha). reflexivity.
Qed.

Lemma noChar_app (c : ascii) (a b : string) :
  noChar c (a ++ b) = noChar c a && noChar c b.
Proof.
  induction a as [|x a IH]; [reflexivity|].
  cbn [String.append noChar]. now rewrite IH, andb_assoc.
Qed.

Lemma dataUrl_comma (m d : string) :
  dataUrl m d = ("data:" ++ m ++ ";base64") ++ String "," d.
Proof.
  unfold dataUrl. rewrite !app_assoc. reflexivity.
Qed.

Lemma dataUrl_semicolon (m d : string) :
  dataUrl m d = ("data:" ++ m) ++ String ";" ("base64," ++ d).
Proof.
  unfold dataUrl. rewrite !app_assoc. reflexivity.
Qed.

Lemma trimStart_spaces (n : nat) : trimStart (spaces n) = "".
Proof. induction n as [|n IH]; [reflexivity | exact IH]. Qed.

End ImageFacts.

(** X22.  A data URL as [generateRecipeImage] and [editRecipeImage] build it
    is taken apart again by [editRecipeImage]: when the MIME type holds none
    of [,], [;], [:] and the data no [,], the request carries exactly that
    data and that MIME type ([image/png] when the type is empty), and the
    prompt as given. *)
Theorem editRecipeImage_parts_dataUrl (mimeType data prompt : string) :
  noChar "," mimeType = true ->
  noChar ";" mimeType = true ->
  noChar ":" mimeType = true ->
  noChar "," data = true ->
  editRecipeImage_parts (dataUrl mimeType data) prompt
  = {| EditParts.inlineData :=
         {| InlineData.data := Some data;
            InlineData.mimeType := strOr mimeType "image/png" |};
       EditParts.text := prompt |}.
Proof.
  intros Hc Hs Hl Hd. unfold editRecipeImage_parts.
  assert (E1 : splitOn "," (dataUrl mimeType data)
               = ["data:" ++ mimeType ++ ";base64"; data]).
  { rewrite ImageFacts.dataUrl_comma, ImageFacts.splitOn_piece.
    - now rewrite (ImageFacts.splitOn_single _ _ Hd).
    - change ("data:" ++ mimeType ++ ";base64")
        with (String "d" (String "a" (String "t" (String "a" (String ":"
                (mimeType ++ ";base64")))))).
      cbn [noChar]. rewrite ImageFacts.noChar_app, Hc. reflexivity. }
  assert (E2 : hd "" (splitOn ";" (dataUrl mimeType data))
               = "data:" ++ mimeType).
  { rewrite ImageFacts.dataUrl_semicolon, ImageFacts.splitOn_piece;
      [reflexivity|].
    change ("data:" ++ mimeType)
      with (String "d" (String "a" (String "t" (String "a" (String ":"
              mimeType))))).
    cbn [noChar]. rewrite Hs. reflexivity. }
  assert (E3 : splitOn ":" ("data:" ++ mimeType) = ["data"; mimeType]).
  { change ("data:" ++ mimeType) with ("data" ++ String ":" mimeType).
    rewrite ImageFacts.splitOn_piece by reflexivity.
    now rewrite (ImageFacts.splitOn_single _ _ Hl). }
  rewrite E1, E2, E3. reflexivity.
Qed.

Lemma editRecipeImage_parts_dataUrl_witness :
  editRecipeImage_parts "data:image/jpeg;base64,/9j/4AAQSkZJRg==" "warmer"
  = {| EditParts.inlineData :=
         {| InlineData.data := Some "/9j/4AAQSkZJRg==";
            InlineData.mimeType := "image/jpeg" |};
       EditParts.text := "warmer" |}.
Proof.
  exact (editRecipeImage_parts_dataUrl "image/jpeg" "/9j/4AAQSkZJRg=="
           "warmer" eq_refl eq_refl eq_refl eq_refl).
Defined.

(** X23.  [handleEdit] sends nothing for a prompt of spaces only or for an
    empty image URL; and for an image URL without comma (a link, not a data
    URL) [editRecipeImage] sends a request whose image data is undefined. *)
Theorem handleEdit_guard (currentImageUrl prompt : string) (n : nat) :
  handleEdit currentImageUrl (spaces n) = None
  /\ handleEdit "" prompt = None
  /\ (noChar "," currentImageUrl = true ->
      InlineData.data
        (EditParts.inlineData (editRecipeImage_parts currentImageUrl prompt))
      = None)
  /\ (trim prompt <> "" -> currentImageUrl <> "" ->
      handleEdit currentImageUrl prompt
      = Some (editRecipeImage_parts currentImageUrl prompt)).
Proof.
  split; [|split; [|split]].
  - unfold handleEdit, trim. rewrite ImageFacts.trimStart_spaces.
    reflexivity.
  - unfold handleEdit. cbn [String.eqb]. now rewrite orb_true_r.
  - intro H. unfold editRecipeImage_parts. cbn [EditParts.inlineData
      InlineData.data]. now rewrite (ImageFacts.splitOn_single _ _ H).
  - intros Hp Hu. unfold handleEdit.
    apply String.eqb_neq in Hp. apply String.eqb_neq in Hu.
    now rewrite Hp, Hu.
Qed.

Lemma handleEdit_guard_witness :
  InlineData.data
    (EditParts.inlineData
       (editRecipeImage_parts "https://picsum.photos/800/450" "warmer"))
  = None
  /\ handleEdit "https://picsum.photos/800/450" "warmer"
     = Some (editRecipeImage_parts "https://picsum.photos/800/450" "warmer").
Proof.
  split.
  - apply (proj1 (proj2 (proj2
             (handleEdit_guard "https://picsum.photos/800/450" "warmer" 0)))).
    reflexivity.
  - apply (proj2 (proj2 (proj2
             (handleEdit_guard "https://picsum.photos/800/450" "warmer" 0)))).
    + discriminate.
    + discriminate.
Defined.
